(** * PlutoTVDownloader: manifest parsing and the decrypt-to-disk loop

    A shallow embedding of [helper.ts] (parsePlaylist, parseKey, parseMaster,
    parseAttributes, getHighestBandwidthStream, getURLBaseDir, buf2hex,
    ProcessPlaylist, decryptFileToFile, removeAfterLastSlash, getFiles), of
    [DownloadPlaylist.ts] (parseM3U8) and of the script [Parse_Playlist.ts],
    followed by the properties of the design document that concern them and
    by further properties of the code.

    Conventions.
    - A JavaScript string is a sequence of UTF-16 code units.  The model
      covers the code units below 256 and represents them by [ascii], so a
      JavaScript string is a [string]; [trim] and [toLowerCase] are the
      ECMAScript functions restricted to that range.
    - A JavaScript exception (here always a [TypeError] raised by a property
      access on [undefined]) is [None] in the parsers and an [Error] in
      the effectful loop.
    - Array indexing [a[i]] is the list lookup [a !! i]; [undefined] is
      [None].
    - Objects created by [parseKey] live in a heap (a list, the address is
      the position), so that two segments holding the same object hold the
      same address. *)

From Stdlib Require Import ZArith NArith Ascii String.
From Stdlib.Strings Require Import Byte.
From stdpp Require Import base option list strings gmap.

Local Open Scope string_scope.

(** * The program *)

(** ** JavaScript string primitives *)

Module JS.

(** WhiteSpace and LineTerminator code units below 256:
    TAB, LF, VT, FF, CR, SP and NBSP. *)
Definition isWhiteSpace (c : ascii) : bool :=
  let n := nat_of_ascii c in
  ((9 <=? n)%nat && (n <=? 13)%nat) || (n =? 32)%nat || (n =? 160)%nat.

Fixpoint trimStart (s : string) : string :=
  match s with
  | EmptyString => EmptyString
  | String c s' => if isWhiteSpace c then trimStart s' else s
  end.

Definition trimEnd (s : string) : string :=
  String.rev (trimStart (String.rev s)).

(** [s.trim()] *)
Definition trim (s : string) : string := trimEnd (trimStart s).

(** [s.startsWith(p)] *)
Fixpoint startsWith (p s : string) : bool :=
  match p, s with
  | EmptyString, _ => true
  | String a p', String b s' => Ascii.eqb a b && startsWith p' s'
  | String _ _, EmptyString => false
  end.

(** [s.includes(p)] *)
Fixpoint includes (p s : string) : bool :=
  startsWith p s ||
  match s with
  | EmptyString => false
  | String _ s' => includes p s'
  end.

(** Puts a code unit in front of the first piece of a split. *)
Definition consHead (c : ascii) (pieces : list string) : list string :=
  match pieces with
  | p :: rest => String c p :: rest
  | [] => [String c EmptyString]
  end.

(** [s.split(sep)] for a separator of one code unit. *)
Fixpoint split (sep : ascii) (s : string) : list string :=
  match s with
  | EmptyString => [EmptyString]
  | String c s' =>
      if Ascii.eqb c sep then EmptyString :: split sep s'
      else consHead c (split sep s')
  end.

(** [s.split(/\r?\n/)] *)
Fixpoint splitLines (s : string) : list string :=
  match s with
  | EmptyString => [EmptyString]
  | String c s' =>
      if Ascii.eqb c "010" then EmptyString :: splitLines s'
      else if Ascii.eqb c "013" then
        match s' with
        | String c2 s'' =>
            if Ascii.eqb c2 "010" then EmptyString :: splitLines s''
            else consHead c (splitLines s')
        | EmptyString => consHead c (splitLines s')
        end
      else consHead c (splitLines s')
  end.

(** [pieces.join(sep)] *)
Fixpoint join (sep : string) (pieces : list string) : string :=
  match pieces with
  | [] => EmptyString
  | [p] => p
  | p :: rest => p ++ sep ++ join sep rest
  end.

Fixpoint dropChars (n : nat) (s : string) : string :=
  match n, s with
  | O, _ => s
  | S n', String _ s' => dropChars n' s'
  | S _, EmptyString => EmptyString
  end.

(** The relative-index rule of [slice]: a negative index counts from the
    end, and the result is clamped to [0 .. len]. *)
Definition sliceIndex (len : nat) (i : Z) : nat :=
  if (i <? 0)%Z then Z.to_nat (Z.max (Z.of_nat len + i) 0)
  else Nat.min (Z.to_nat i) len.

(** [s.slice(start, end)]; [s.slice(start)] is [slice start None s]. *)
Definition slice (start : Z) (stop : option Z) (s : string) : string :=
  let len := String.length s in
  let from := sliceIndex len start in
  let to := match stop with Some e => sliceIndex len e | None => len end in
  substring from (to - from) s.

(** [s.replace(pat, "")] for a string pattern: the first occurrence of
    [pat] is removed. *)
Fixpoint removeFirst (pat s : string) : string :=
  if startsWith pat s then dropChars (String.length pat) s
  else match s with
       | EmptyString => EmptyString
       | String c s' => String c (removeFirst pat s')
       end.

(** [s.replace(/c/g, "")] for a pattern of one code unit. *)
Fixpoint removeAll (c : ascii) (s : string) : string :=
  match s with
  | EmptyString => EmptyString
  | String d s' =>
      if Ascii.eqb d c then removeAll c s' else String d (removeAll c s')
  end.

(** [toLowerCase] on one code unit: A-Z, and the Latin-1 capitals
    U+00C0..U+00DE except the multiplication sign U+00D7. *)
Definition lowerChar (c : ascii) : ascii :=
  let n := nat_of_ascii c in
  if ((65 <=? n)%nat && (n <=? 90)%nat)
     || ((192 <=? n)%nat && (n <=? 222)%nat && negb (n =? 215)%nat)
  then ascii_of_nat (n + 32) else c.

Fixpoint toLowerCase (s : string) : string :=
  match s with
  | EmptyString => EmptyString
  | String c s' => String (lowerChar c) (toLowerCase s')
  end.

(** [a.indexOf(x)]: the first position holding [x]; [None] stands for
    the result -1. *)
Fixpoint indexOf (a : list string) (x : string) : option nat :=
  match a with
  | [] => None
  | y :: a' => if String.eqb y x then Some 0 else S <$> indexOf a' x
  end.

(** [a[a.indexOf(x) + 1]]; when [x] is absent this is [a[-1 + 1]]. *)
Definition afterFirst (a : list string) (x : string) : option string :=
  match indexOf a x with
  | Some i => a !! (i + 1)
  | None => a !! 0
  end.

End JS.

(** ** Data model ([interface.ts]) *)

(** Address of a key object in the heap. *)
Definition loc := nat.

(** The [ivasDec] field holds [parseInt(hex, 16)], a double that nothing
    reads; it is kept as the digits handed to [parseInt].  The field starts
    as the empty string. *)
Inductive ivasDecValue :=
  | IvUnset
  | IvParseInt16 (digits : string).

(** The object built by [parseKey]. *)
Record KeyRecord := mkKey {
  key_name : string;
  key_uri : string;
  key_iv : string;
  key_ivasDec : ivasDecValue
}.

(** [MediaSegment]: [key] is a reference to a key object, or [undefined]. *)
Record MediaSegment := mkSegment {
  seg_url : string;
  seg_index : string;
  seg_key : option loc
}.

#[global] Instance ivasDecValue_eq_dec : EqDecision ivasDecValue.
Proof. solve_decision. Defined.
#[global] Instance KeyRecord_eq_dec : EqDecision KeyRecord.
Proof. solve_decision. Defined.
#[global] Instance MediaSegment_eq_dec : EqDecision MediaSegment.
Proof. solve_decision. Defined.

(** ** parseKey *)

(** The two filler assets that [parsePlaylist] leaves out. *)
Definition excluded (s : string) : bool :=
  JS.includes "099_Pluto_TV_OandO" s || JS.includes "829_Pluto_TV_OandO" s.

(** One turn of the loop over the comma-separated parts of a KEY line:
    [const [keyName, value] = part.split("=")] and the [switch]. *)
Definition parseKeyPart (key : KeyRecord) (part : string) : option KeyRecord :=
  let kv := JS.split "=" part in
  keyName ← kv !! 0;
  let value := kv !! 1 in
  if decide (JS.trim keyName = "URI") then
    v ← value;
    let uri := JS.slice 1 (Some (-1)%Z) (JS.trim v) in
    let uriParts := JS.split "/" uri in
    p5 ← uriParts !! 5;
    Some (mkKey (JS.slice 25 None p5) uri (key_iv key) (key_ivasDec key))
  else if decide (JS.trim keyName = "IV") then
    v ← value;
    let hex := JS.slice 2 None (JS.trim v) in
    Some (mkKey (key_name key) (key_uri key) hex (IvParseInt16 hex))
  else Some key.

Fixpoint parseKeyParts (key : KeyRecord) (parts : list string) : option KeyRecord :=
  match parts with
  | [] => Some key
  | part :: parts' => key' ← parseKeyPart key part; parseKeyParts key' parts'
  end.

Definition emptyKey : KeyRecord := mkKey "" "" "" IvUnset.

Definition parseKey (line : string) : option KeyRecord :=
  parseKeyParts emptyKey (JS.split "," line).

(** ** parsePlaylist ([helper.ts]) *)

(** The arrays [segments] and [keys] under construction, and the heap of
    key objects allocated so far. *)
Record ParseState := mkState {
  st_heap : list KeyRecord;
  st_keys : list loc;
  st_segments : list MediaSegment
}.

Definition initialState : ParseState := mkState [] [] [].

(** [url.split("-").pop()?.replace(".ts", "") || ""] *)
Definition segmentIndex (url : string) : string :=
  default "" (JS.removeFirst ".ts" <$> last (JS.split "-" url)).

(** The body of the loop [for (const [index, line] of lines.entries())]. *)
Definition parseStep (lines : list string) (index : nat) (line : string)
    (st : ParseState) : option ParseState :=
  if JS.startsWith "#EXT-X-KEY" line then
    key ← parseKey line;
    let a := length (st_heap st) in
    if negb (JS.includes "099_Pluto_TV_OandO" (key_uri key))
       && negb (JS.includes "829_Pluto_TV_OandO" (key_uri key))
    then Some (mkState (st_heap st ++ [key]) (st_keys st ++ [a]) (st_segments st))
    else Some (mkState (st_heap st ++ [key]) (st_keys st) (st_segments st))
  else if JS.startsWith "#EXTINF:" line then
    next ← lines !! (index + 1);
    let url := JS.trim next in
    if negb (JS.includes "099_Pluto_TV_OandO" url)
       && negb (JS.includes "829_Pluto_TV_OandO" url)
    then
      let segment := mkSegment url (segmentIndex url) (last (st_keys st)) in
      Some (mkState (st_heap st) (st_keys st) (st_segments st ++ [segment]))
    else Some st
  else Some st.

Fixpoint parseLoop (lines : list string) (index : nat) (todo : list string)
    (st : ParseState) : option ParseState :=
  match todo with
  | [] => Some st
  | line :: todo' =>
      st' ← parseStep lines index line st;
      parseLoop lines (S index) todo' st'
  end.

(** The scan of an array of lines, from the first one. *)
Definition parseLines (lines : list string) : option ParseState :=
  parseLoop lines 0 lines initialState.

(** [parsePlaylist(playlist)]: the result [{ segments, keys }] is
    [st_segments] and [st_keys] of the final state. *)
Definition parsePlaylist (playlist : string) : option ParseState :=
  parseLines (JS.splitLines playlist).

(** ** parseM3U8 ([DownloadPlaylist.ts])

    The older parser: the KEY case carries the text of [parseKey] inline,
    nothing is excluded, the line after a tag is found through [indexOf],
    and the loop ends at a discontinuity line. *)

Fixpoint m3u8Loop (lines todo : list string) (st : ParseState) : option ParseState :=
  match todo with
  | [] => Some st
  | line :: todo' =>
      if JS.startsWith "#EXT-X-KEY" line then
        key ← parseKeyParts emptyKey (JS.split "," line);
        m3u8Loop lines todo'
          (mkState (st_heap st ++ [key]) (st_keys st ++ [length (st_heap st)])
                   (st_segments st))
      else if JS.startsWith "#EXTINF:" line then
        next ← JS.afterFirst lines line;
        let url := JS.trim next in
        let segment := mkSegment url (segmentIndex url) (last (st_keys st)) in
        let segment :=
          if (0 <? length (st_keys st))%nat
          then mkSegment (seg_url segment) (seg_index segment) (last (st_keys st))
          else segment in
        m3u8Loop lines todo'
          (mkState (st_heap st) (st_keys st) (st_segments st ++ [segment]))
      else if String.eqb line "#EXT-X-DISCONTINUITY" then Some st
      else m3u8Loop lines todo' st
  end.

Definition parseM3U8Lines (lines : list string) : option ParseState :=
  m3u8Loop lines lines initialState.

Definition parseM3U8 (playlist : string) : option ParseState :=
  parseM3U8Lines (JS.splitLines playlist).

(** ** parseAttributes and parseMaster *)

Definition doubleQuote : ascii := "034".

(** One turn of the loop of [parseAttributes]: the bag is a JavaScript
    object used as a map from attribute names to strings (the property
    name [__proto__], which an object does not store, is left aside). *)
Definition parseAttribute (attributes : gmap string string) (part : string)
    : option (gmap string string) :=
  let kv := JS.split "=" part in
  key ← kv !! 0;
  value ← kv !! 1;
  Some (<[JS.toLowerCase (JS.trim key) := JS.removeAll doubleQuote (JS.trim value)]>
          attributes).

Fixpoint parseAttributeParts (attributes : gmap string string)
    (parts : list string) : option (gmap string string) :=
  match parts with
  | [] => Some attributes
  | part :: parts' =>
      attributes' ← parseAttribute attributes part;
      parseAttributeParts attributes' parts'
  end.

Definition parseAttributes (line : string) : option (gmap string string) :=
  parseAttributeParts ∅ (JS.split "," line).

Record M3UPlaylist := mkMaster {
  media : list (gmap string string);
  streams : list (gmap string string)
}.

Fixpoint masterLoop (lines todo : list string) (playlist : M3UPlaylist)
    : option M3UPlaylist :=
  match todo with
  | [] => Some playlist
  | line :: todo' =>
      let trimmedLine := JS.trim line in
      if JS.startsWith "#EXTM3U" trimmedLine then masterLoop lines todo' playlist
      else if JS.startsWith "#EXT-X-MEDIA" trimmedLine then
        m ← parseAttributes trimmedLine;
        masterLoop lines todo' (mkMaster (media playlist ++ [m]) (streams playlist))
      else if JS.startsWith "#EXT-X-STREAM-INF" trimmedLine then
        stream ← parseAttributes trimmedLine;
        next ← JS.afterFirst lines line;
        let stream := <["uri" := JS.trim next]> stream in
        masterLoop lines todo' (mkMaster (media playlist) (streams playlist ++ [stream]))
      else masterLoop lines todo' playlist
  end.

Definition parseMasterLines (lines : list string) : option M3UPlaylist :=
  masterLoop lines lines (mkMaster [] []).

(** [parseMaster(m3uContent)]; the lines come from [split("\n")]. *)
Definition parseMaster (m3uContent : string) : option M3UPlaylist :=
  parseMasterLines (JS.split "010" m3uContent).

(** ** getHighestBandwidthStream *)

(** The numbers that occur: integers, the [-Infinity] that [Math.max]
    returns for no argument, and [NaN]. *)
Inductive number :=
  | NegInfinity
  | Int (z : Z)
  | NaN.

(** The [Stream] interface of [interface.ts]. *)
Record Stream := mkStream {
  programId : number;
  bandwidth : number;
  subtitles : string;
  uri : string
}.

(** [Math.max] of two numbers. *)
Definition max2 (a b : number) : number :=
  match a, b with
  | NaN, _ | _, NaN => NaN
  | NegInfinity, x | x, NegInfinity => x
  | Int x, Int y => Int (Z.max x y)
  end.

(** [Math.max(...values)] *)
Definition Math_max (values : list number) : number :=
  foldr max2 NegInfinity values.

(** [a == b] on numbers: [NaN] equals nothing. *)
Definition looseEq (a b : number) : bool :=
  match a, b with
  | NegInfinity, NegInfinity => true
  | Int x, Int y => (x =? y)%Z
  | _, _ => false
  end.

Definition getHighestBandwidthStream (streams : list Stream) : option Stream :=
  let maxBandwidth := Math_max (map bandwidth streams) in
  head (List.filter (fun stream => looseEq (bandwidth stream) maxBandwidth) streams).

(** ** getURLBaseDir *)

(** Length of a match of [/720p(?:DRM)?\//] at the start of [s]. *)
Definition match720p (s : string) : option nat :=
  if JS.startsWith "720pDRM/" s then Some 8
  else if JS.startsWith "720p/" s then Some 5
  else None.

(** [s.split(/720p(?:DRM)?\//)]; [skip] counts the code units of the
    current match that are still to be passed over. *)
Fixpoint split720p (skip : nat) (s : string) : list string :=
  match s with
  | EmptyString => [EmptyString]
  | String c s' =>
      match skip with
      | S k => split720p k s'
      | O =>
          match match720p s with
          | Some n => EmptyString :: split720p (n - 1) s'
          | None => JS.consHead c (split720p 0 s')
          end
      end
  end.

Definition getURLBaseDir (url : string) : string :=
  let parts := split720p 0 url in
  match parts !! 1 with
  | None => ""
  | Some p1 =>
      if String.eqb p1 "" then ""
      else
        let segments := JS.split "/" p1 in
        JS.join "/" (removelast segments)
  end.

(** ** ProcessPlaylist *)

Definition buffer := list byte.

Definition hexDigit (n : N) : ascii :=
  match String.get (N.to_nat n) "0123456789abcdef" with
  | Some c => c
  | None => "0"%char
  end.

(** [x.toString(16).padStart(2, "0")] for a byte. *)
Definition byteToHex (b : byte) : string :=
  let n := Byte.to_N b in
  String (hexDigit (n / 16)) (String (hexDigit (n mod 16)) EmptyString).

Definition buf2hex (data : buffer) : string :=
  String.concat "" (map byteToHex data).

Definition hexValue (c : ascii) : option N :=
  let n := N_of_ascii c in
  if ((48 <=? n) && (n <=? 57))%N then Some (n - 48)%N
  else if ((97 <=? n) && (n <=? 102))%N then Some (n - 87)%N
  else if ((65 <=? n) && (n <=? 70))%N then Some (n - 55)%N
  else None.

(** [Buffer.from(s, "hex")]: pairs of hexadecimal digits are decoded up to
    the first pair that is not one. *)
Fixpoint Buffer_from_hex (s : string) : buffer :=
  match s with
  | String a (String b s') =>
      match hexValue a, hexValue b with
      | Some x, Some y =>
          match Byte.of_N (16 * x + y) with
          | Some v => v :: Buffer_from_hex s'
          | None => []
          end
      | _, _ => []
      end
  | _ => []
  end.

(** What the run does to the outside, in order. *)
Inductive Resource := SegmentBody | KeyBytes.

Inductive Event :=
  | EvMkdir (dir : string)
  | EvGet (what : Resource) (url : string)
  | EvWrite (path : string) (data : buffer).

Inductive Error :=
  | ParseThrew
  | KeyUndefined
  | MkdirFailed (dir : string)
  | RequestFailed (url : string)
  | DecipherFailed
  | WriteFailed (path : string).

#[global] Instance byte_eq_dec : EqDecision byte := Byte.byte_eq_dec.
#[global] Instance Resource_eq_dec : EqDecision Resource.
Proof. solve_decision. Defined.
#[global] Instance Event_eq_dec : EqDecision Event.
Proof. solve_decision. Defined.
#[global] Instance Error_eq_dec : EqDecision Error.
Proof. solve_decision. Defined.

(** The collaborators of the loop: the HTTP origin behind [axios.get]
    ([None]: the request fails), [join] of [node:path], [mkdir], the
    AES-128-CBC decipher of [node:crypto] ([None]: it throws) and
    [writeFile] (the booleans tell whether the call succeeds).  Within one
    run a collaborator answers the same arguments in the same way. *)
Record Host := mkHost {
  http : string -> option buffer;
  path_join : list string -> string;
  mkdir_ok : string -> bool;
  aes_128_cbc_decrypt : buffer -> buffer -> buffer -> option buffer;
  write_ok : string -> bool
}.

(** The files on disk and the events so far. *)
Record World := mkWorld {
  files : gmap string buffer;
  trace : list Event
}.

(** Computations that change the world and may throw. *)
Definition IO (A : Type) : Type := World -> World * (Error + A).

Definition ret {A} (a : A) : IO A := fun w => (w, inr a).
Definition throw {A} (e : Error) : IO A := fun w => (w, inl e).
Definition bind {A B} (m : IO A) (k : A -> IO B) : IO B :=
  fun w => match m w with
           | (w', inr a) => k a w'
           | (w', inl e) => (w', inl e)
           end.
Definition emit (ev : Event) : IO unit :=
  fun w => (mkWorld (files w) (trace w ++ [ev]), inr tt).

Notation "x <- m ;; k" := (bind m (fun x => k))
  (at level 100, m at next level, right associativity).
Notation "m ;; k" := (bind m (fun _ => k))
  (at level 100, right associativity).

Section Process.
Context (host : Host).

Definition mkdir (dir : string) : IO unit :=
  emit (EvMkdir dir) ;;
  if mkdir_ok host dir then ret tt else throw (MkdirFailed dir).

Definition axios_get (what : Resource) (url : string) : IO buffer :=
  emit (EvGet what url) ;;
  match http host url with
  | Some data => ret data
  | None => throw (RequestFailed url)
  end.

(** [Bun.file(path).exists()] *)
Definition fileExists (path : string) : IO bool :=
  fun w => (w, inr (bool_decide (is_Some (files w !! path)))).

Definition writeFile (path : string) (data : buffer) : IO unit :=
  if write_ok host path then
    fun w => (mkWorld (<[path := data]> (files w)) (trace w ++ [EvWrite path data]), inr tt)
  else throw (WriteFailed path).

Definition decryptFileToFile (file : buffer) (outputPath : string)
    (key iv : buffer) : IO unit :=
  match aes_128_cbc_decrypt host key iv file with
  | Some decryptedData => writeFile outputPath decryptedData
  | None => throw DecipherFailed
  end.

(** [segment.key], dereferenced: a [TypeError] when it is [undefined]. *)
Definition segmentKey (heap : list KeyRecord) (segment : MediaSegment)
    : IO KeyRecord :=
  match seg_key segment ≫= (fun a => heap !! a) with
  | Some key => ret key
  | None => throw KeyUndefined
  end.

(** The body of the loop over the segments. *)
Definition processSegment (heap : list KeyRecord) (ShowName : string)
    (segment : MediaSegment) : IO unit :=
  k <- segmentKey heap segment ;;
  let Directory :=
    path_join host ["./"; ShowName; key_name k; getURLBaseDir (seg_url segment)] in
  mkdir Directory ;;
  let urlParts := JS.split "/" (seg_url segment) in
  let lastPathSegment := default "" (last urlParts) in
  VCSegment <- axios_get SegmentBody (seg_url segment) ;;
  keyResponse <- axios_get KeyBytes (key_uri k) ;;
  let key := Buffer_from_hex (buf2hex keyResponse) in
  let iv := Buffer_from_hex (key_iv k) in
  found <- fileExists (path_join host [Directory; lastPathSegment]) ;;
  if found then ret tt
  else decryptFileToFile VCSegment (path_join host [Directory; lastPathSegment]) key iv.

Fixpoint processSegments (heap : list KeyRecord) (ShowName : string)
    (segments : list MediaSegment) : IO unit :=
  match segments with
  | [] => ret tt
  | segment :: rest =>
      processSegment heap ShowName segment ;;
      processSegments heap ShowName rest
  end.

Definition ProcessPlaylist (playlist ShowName : string) : IO unit :=
  match parsePlaylist playlist with
  | None => throw ParseThrew
  | Some st => processSegments (st_heap st) ShowName (st_segments st)
  end.

End Process.

(** * Vocabulary of the statements *)

(** ** Strings *)

(** [s] holds the code unit [c]. *)
Fixpoint hasChar (c : ascii) (s : string) : bool :=
  match s with
  | EmptyString => false
  | String d s' => Ascii.eqb d c || hasChar c s'
  end.

(** The text after the last [c] of [s]; the whole of [s] when [c] does not
    occur in it. *)
Fixpoint afterLast (c : ascii) (s : string) : string :=
  match s with
  | EmptyString => EmptyString
  | String d s' =>
      if hasChar c s' then afterLast c s'
      else if Ascii.eqb d c then s' else s
  end.

(** ** The structure of a manifest *)

(** A KEY line that yields the key object [k], kept in [keys]. *)
Definition liveKey (line : string) (k : KeyRecord) : Prop :=
  JS.startsWith "#EXT-X-KEY" line = true /\
  parseKey line = Some k /\
  excluded (key_uri k) = false.

(** No line of the block puts a key object into [keys]. *)
Definition noLiveKey (block : list string) : Prop :=
  forall line k,
    line ∈ block ->
    JS.startsWith "#EXT-X-KEY" line = true ->
    parseKey line = Some k ->
    excluded (key_uri k) = true.

(** The URL that the line at position [index] declares as a segment:
    the trimmed next line of an EXTINF line, unless it is excluded. *)
Definition declaredUrl (lines : list string) (index : nat) (line : string)
    : option string :=
  if JS.startsWith "#EXTINF:" line then
    match lines !! (index + 1) with
    | Some next => if excluded (JS.trim next) then None else Some (JS.trim next)
    | None => None
    end
  else None.

(** The segment URLs declared by a block of consecutive lines that starts
    at position [index] of [lines], in order. *)
Fixpoint declaredUrls (lines : list string) (index : nat) (block : list string)
    : list string :=
  match block with
  | [] => []
  | line :: block' =>
      match declaredUrl lines index line with
      | Some url => url :: declaredUrls lines (S index) block'
      | None => declaredUrls lines (S index) block'
      end
  end.

(** What one turn of the loop does, case by case. *)
Inductive stepSpec (lines : list string) (index : nat) (line : string)
    (st st' : ParseState) : Prop :=
  | step_key_kept k :
      liveKey line k ->
      st' = mkState (st_heap st ++ [k]) (st_keys st ++ [length (st_heap st)])
                    (st_segments st) ->
      stepSpec lines index line st st'
  | step_key_excluded k :
      JS.startsWith "#EXT-X-KEY" line = true ->
      parseKey line = Some k ->
      excluded (key_uri k) = true ->
      st' = mkState (st_heap st ++ [k]) (st_keys st) (st_segments st) ->
      stepSpec lines index line st st'
  | step_segment url :
      JS.startsWith "#EXT-X-KEY" line = false ->
      declaredUrl lines index line = Some url ->
      excluded url = false ->
      st' = mkState (st_heap st) (st_keys st)
              (st_segments st ++ [mkSegment url (segmentIndex url) (last (st_keys st))]) ->
      stepSpec lines index line st st'
  | step_skip :
      JS.startsWith "#EXT-X-KEY" line = false ->
      declaredUrl lines index line = None ->
      st' = st ->
      stepSpec lines index line st st'.

(** ** States of the scan *)

Record WellFormed (st : ParseState) : Prop := mkWellFormed {
  keys_live :
    forall a : loc, a ∈ st_keys st ->
      exists k, st_heap st !! a = Some k /\ excluded (key_uri k) = false;
  segments_clean :
    forall s, s ∈ st_segments st ->
      excluded (seg_url s) = false /\ seg_index s = segmentIndex (seg_url s);
  segment_keys :
    forall s (a : loc), s ∈ st_segments st -> seg_key s = Some a -> a ∈ st_keys st
}.

(** ** Sample manifests *)

Module Samples.

Definition quoted (s : string) : string :=
  String doubleQuote (s ++ String doubleQuote EmptyString).

Definition newline : string := String "010" EmptyString.

(** The text of a manifest with the given lines. *)
Definition manifest (lines : list string) : string := JS.join newline lines.

Definition keyLine (uri iv : string) : string :=
  "#EXT-X-KEY:METHOD=AES-128,URI=" ++ quoted uri ++ ",IV=0x" ++ iv.

(** A KEY line whose first attribute is the URI. *)
Definition keyLineUriFirst (uri iv : string) : string :=
  "#EXT-X-KEY:URI=" ++ quoted uri ++ ",METHOD=AES-128,IV=0x" ++ iv.

Definition uriFirst : string :=
  manifest ["#EXTM3U"; keyLineUriFirst "k/key.bin" "00";
            "#EXTINF:5.0,"; "https://cdn.example/720p/show/a/clip-1.ts"].

Definition uriA : string :=
  "https://cdn.example/keys/pluto/0123456789abcdef01234567_episode1/key.bin".
Definition uriB : string :=
  "https://cdn.example/keys/pluto/0123456789abcdef01234567_episode2/key.bin".
Definition uriFiller : string :=
  "https://cdn.example/keys/pluto/0123456789abcdef01234567_099_Pluto_TV_OandO/key.bin".

Definition keyA : KeyRecord :=
  mkKey "episode1" uriA "000102030405060708090a0b0c0d0e0f"
        (IvParseInt16 "000102030405060708090a0b0c0d0e0f").
Definition keyB : KeyRecord :=
  mkKey "episode2" uriB "101112131415161718191a1b1c1d1e1f"
        (IvParseInt16 "101112131415161718191a1b1c1d1e1f").

Definition lineA : string := keyLine uriA "000102030405060708090a0b0c0d0e0f".
Definition lineB : string := keyLine uriB "101112131415161718191a1b1c1d1e1f".
Definition lineFiller : string := keyLine uriFiller "00".

Definition head2 : list string := ["#EXTM3U"; "#EXT-X-VERSION:3"].
Definition blockA : list string :=
  ["#EXTINF:5.005,"; "https://cdn.example/720p/show/a/clip-1.ts";
   "#EXTINF:5.005,"; "https://cdn.example/720p/show/a/clip-2.ts"].
Definition blockB : list string :=
  ["#EXTINF:5.005,"; "https://cdn.example/720p/show/b/clip-3.ts"; ""].

(** Two key epochs. *)
Definition twoKeys : string :=
  manifest (head2 ++ lineA :: blockA ++ lineB :: blockB).

(** A filler asset named by a KEY tag and by a segment URL. *)
Definition withFiller : string :=
  manifest
    ["#EXTM3U"; lineA;
     "#EXTINF:5.005,"; "https://cdn.example/720p/show/a/clip-1.ts";
     lineFiller;
     "#EXTINF:5.005,"; "https://cdn.example/720p/099_Pluto_TV_OandO/clip-7.ts";
     "#EXTINF:5.005,"; "https://cdn.example/720p/show/a/clip-2.ts"; ""].

(** A segment whose URL has no ['-']. *)
Definition noDash : string :=
  manifest ["#EXTM3U"; lineA; "#EXTINF:5.005,"; "https://cdn.example/720p/show/a/clip.ts"; ""].

(** Segments on both sides of a discontinuity. *)
Definition withDiscontinuity : string :=
  manifest
    ["#EXTM3U"; lineA;
     "#EXTINF:5.005,"; "https://cdn.example/720p/show/a/clip-1.ts";
     "#EXT-X-DISCONTINUITY";
     "#EXTINF:5.005,"; "https://cdn.example/720p/show/a/clip-2.ts"; ""].

(** A segment before any KEY tag. *)
Definition keyless : string :=
  manifest
    ["#EXTM3U"; "#EXTINF:5.005,"; "https://cdn.example/720p/show/a/clip-1.ts";
     lineA; "#EXTINF:5.005,"; "https://cdn.example/720p/show/a/clip-2.ts"; ""].

End Samples.

(** A decidable form of [noLiveKey], for concrete blocks. *)
Definition noLiveKeyb (block : list string) : bool :=
  forallb (fun line =>
             if JS.startsWith "#EXT-X-KEY" line then
               match parseKey line with
               | Some k => excluded (key_uri k)
               | None => true
               end
             else true) block.

(** The last path segment of a URL. *)
Definition fileName (url : string) : string := afterLast "/" url.

(** ** Attributes of a KEY line *)

(** The URI that [parseKey] reads from one comma-separated part: the part
    is [name=value] with [name] trimming to [URI], and the URI is the
    trimmed value without its first and last code unit (the quotes). *)
Definition declaredUri (part : string) : option string :=
  let kv := JS.split "=" part in
  match kv !! 0, kv !! 1 with
  | Some name, Some v =>
      if decide (JS.trim name = "URI")
      then Some (JS.slice 1 (Some (-1)%Z) (JS.trim v))
      else None
  | _, _ => None
  end.

(** ** Output files and events *)

(** The directory and the output file that [processSegment] derives. *)
Definition outputDirectory (host : Host) (ShowName : string) (k : KeyRecord)
    (url : string) : string :=
  path_join host ["./"; ShowName; key_name k; getURLBaseDir url].

Definition outputPath (host : Host) (ShowName : string) (k : KeyRecord)
    (url : string) : string :=
  path_join host [outputDirectory host ShowName k url;
                  default "" (last (JS.split "/" url))].

Definition isWrite (ev : Event) : bool :=
  match ev with EvWrite _ _ => true | _ => false end.

(** The URIs of the key requests among some events, in order. *)
Fixpoint keyRequests (evs : list Event) : list string :=
  match evs with
  | [] => []
  | EvGet KeyBytes u :: evs' => u :: keyRequests evs'
  | _ :: evs' => keyRequests evs'
  end.

(** The URLs of the segment requests among some events, in order. *)
Fixpoint segmentRequests (evs : list Event) : list string :=
  match evs with
  | [] => []
  | EvGet SegmentBody u :: evs' => u :: segmentRequests evs'
  | _ :: evs' => segmentRequests evs'
  end.

(** What one turn of the loop over the segments can do: it throws before
    any effect for want of a key, or it logs events that are not writes and
    leaves the files alone, or it completes with a write to a path at which
    no file was. *)
Inductive turnSpec (host : Host) (heap : list KeyRecord) (ShowName : string)
    (segment : MediaSegment) (w w' : World) (r : Error + unit) : Prop :=
  | turn_no_key :
      seg_key segment ≫= (fun a => heap !! a) = None ->
      w' = w -> r = inl KeyUndefined ->
      turnSpec host heap ShowName segment w w' r
  | turn_no_write k evs :
      seg_key segment ≫= (fun a => heap !! a) = Some k ->
      w' = mkWorld (files w) (trace w ++ evs) ->
      Forall (fun ev => isWrite ev = false) evs ->
      (r = inr tt ->
       evs = [EvMkdir (outputDirectory host ShowName k (seg_url segment));
              EvGet SegmentBody (seg_url segment); EvGet KeyBytes (key_uri k)]) ->
      (is_Some (files w !! outputPath host ShowName k (seg_url segment)) ->
       r <> inl DecipherFailed /\ (forall p, r <> inl (WriteFailed p)) /\
       (mkdir_ok host (outputDirectory host ShowName k (seg_url segment)) = true ->
        is_Some (http host (seg_url segment)) ->
        is_Some (http host (key_uri k)) -> r = inr tt)) ->
      turnSpec host heap ShowName segment w w' r
  | turn_write k plain :
      seg_key segment ≫= (fun a => heap !! a) = Some k ->
      files w !! outputPath host ShowName k (seg_url segment) = None ->
      w' = mkWorld (<[outputPath host ShowName k (seg_url segment) := plain]> (files w))
             (trace w ++
              [EvMkdir (outputDirectory host ShowName k (seg_url segment));
               EvGet SegmentBody (seg_url segment); EvGet KeyBytes (key_uri k);
               EvWrite (outputPath host ShowName k (seg_url segment)) plain]) ->
      r = inr tt ->
      turnSpec host heap ShowName segment w w' r.

(** ** Sample collaborators *)

Module SampleHost.

(** [join] of [node:path] on the arguments met in the samples: the
    leading ["./"] and empty parts vanish, the rest is joined by ["/"]. *)
Definition join (parts : list string) : string :=
  JS.join "/"
    (List.filter (fun p => negb (String.eqb p "./") && negb (String.eqb p "")) parts).

(** Every request answers two bytes, every directory can be made, the
    decipher hands the body back, every write succeeds. *)
Definition host : Host :=
  mkHost (fun _ => Some [x00; x01]) join (fun _ => true)
         (fun _ _ data => Some data) (fun _ => true).

Definition emptyDisk : World := mkWorld ∅ [].

(** A disk that already holds the output file of the one segment of
    [Samples.noDash]. *)
Definition diskWithClip : World :=
  mkWorld {[ "Show/episode1/show/a/clip.ts" := [x2a] ]} [].

End SampleHost.

Definition discontinuity : string := "#EXT-X-DISCONTINUITY".

(** ** Order on numbers *)

(** Order on the numbers that are integers. *)
Definition numLe (a b : number) : Prop :=
  match a, b with
  | Int x, Int y => (x <= y)%Z
  | _, _ => False
  end.

Definition numLt (a b : number) : Prop :=
  match a, b with
  | Int x, Int y => (x < y)%Z
  | _, _ => False
  end.

Definition isInt (n : number) : Prop := exists z, n = Int z.

(** ** A sample master manifest *)

Module MasterSample.

(** Two variants announced by the same STREAM-INF line. *)
Definition twins : string :=
  Samples.manifest
    ["#EXTM3U";
     "#EXT-X-STREAM-INF:PROGRAM-ID=1,BANDWIDTH=1200000";
     "720p-a/playlist.m3u8";
     "#EXT-X-STREAM-INF:PROGRAM-ID=1,BANDWIDTH=1200000";
     "720p-b/playlist.m3u8"].

End MasterSample.

(** * Further code and vocabulary *)

(** ** Counting and ordering *)

(** The number of EXTINF lines of a block. *)
Definition extinfCount (block : list string) : nat :=
  length (List.filter (JS.startsWith "#EXTINF:") block).

(** Order on the [key] fields: [undefined] lies below every address. *)
Definition keyLe (x y : option loc) : Prop :=
  match x, y with
  | None, _ => True
  | Some a, Some b => a <= b
  | Some _, None => False
  end.

(** What the scan keeps true of the addresses: those in [keys] are
    allocated, the current key is the greatest of them, and the [key]
    fields of the segments never decrease along [segments] nor exceed the
    current key. *)
Record KeysOrdered (st : ParseState) : Prop := mkKeysOrdered {
  keys_allocated : forall a : loc, a ∈ st_keys st -> a < length (st_heap st);
  segments_below_current :
    forall s, s ∈ st_segments st -> keyLe (seg_key s) (last (st_keys st));
  segments_sorted :
    forall i j si sj,
      st_segments st !! i = Some si -> st_segments st !! j = Some sj ->
      i <= j -> keyLe (seg_key si) (seg_key sj)
}.

(** ** More sample manifests *)

Module MoreSamples.

(** One key, two segments of different durations, nothing excluded. *)
Definition plain : string :=
  Samples.manifest
    ["#EXTM3U"; Samples.lineA;
     "#EXTINF:5.005,"; "https://cdn.example/720p/show/a/clip-1.ts";
     "#EXTINF:4.004,"; "https://cdn.example/720p/show/a/clip-2.ts"; ""].

End MoreSamples.

(** ** Hosts that fail *)

Module FaultyHost.

(** Like [SampleHost.host], but the request for the second clip fails. *)
Definition host : Host :=
  mkHost (fun url =>
            if String.eqb url "https://cdn.example/720p/show/a/clip-2.ts"
            then None else Some [x00; x01])
         SampleHost.join (fun _ => true)
         (fun _ _ data => Some data) (fun _ => true).

End FaultyHost.

(** The segment can be processed up to the existence check: its key is
    there, its directory can be made and both requests are answered. *)
Definition fetchable (host : Host) (heap : list KeyRecord) (ShowName : string)
    (segment : MediaSegment) : Prop :=
  exists k,
    seg_key segment ≫= (fun a => heap !! a) = Some k /\
    mkdir_ok host (outputDirectory host ShowName k (seg_url segment)) = true /\
    is_Some (http host (seg_url segment)) /\
    is_Some (http host (key_uri k)).

(** The output file of the segment is on disk. *)
Definition materialized (host : Host) (heap : list KeyRecord) (ShowName : string)
    (fs : gmap string buffer) (segment : MediaSegment) : Prop :=
  exists k,
    seg_key segment ≫= (fun a => heap !! a) = Some k /\
    is_Some (fs !! outputPath host ShowName k (seg_url segment)).

(** The paths written by some events, in order. *)
Fixpoint writtenPaths (evs : list Event) : list string :=
  match evs with
  | [] => []
  | EvWrite p _ :: evs' => p :: writtenPaths evs'
  | _ :: evs' => writtenPaths evs'
  end.

(** ** Attribute bags *)

(** Names are in lower case and values hold no double quote. *)
Definition cleanBag (bag : gmap string string) : Prop :=
  forall name value, bag !! name = Some value ->
    JS.toLowerCase name = name /\ hasChar doubleQuote value = false.

(** ** The master manifest *)

(** The loop of parseMaster as the comment on [Stream.uri] words it: the
    URI of a stream is the line after its STREAM-INF line.  It differs
    from [masterLoop] in the look-up only: the position of the line in
    place of [indexOf]. *)
Fixpoint masterLoopAt (lines : list string) (index : nat) (todo : list string)
    (playlist : M3UPlaylist) : option M3UPlaylist :=
  match todo with
  | [] => Some playlist
  | line :: todo' =>
      let trimmedLine := JS.trim line in
      if JS.startsWith "#EXTM3U" trimmedLine
      then masterLoopAt lines (S index) todo' playlist
      else if JS.startsWith "#EXT-X-MEDIA" trimmedLine then
        m ← parseAttributes trimmedLine;
        masterLoopAt lines (S index) todo'
          (mkMaster (media playlist ++ [m]) (streams playlist))
      else if JS.startsWith "#EXT-X-STREAM-INF" trimmedLine then
        stream ← parseAttributes trimmedLine;
        next ← lines !! (index + 1);
        let stream := <["uri" := JS.trim next]> stream in
        masterLoopAt lines (S index) todo'
          (mkMaster (media playlist) (streams playlist ++ [stream]))
      else masterLoopAt lines (S index) todo' playlist
  end.

(** The line carries the STREAM-INF tag. *)
Definition isStreamInf (line : string) : bool :=
  JS.startsWith "#EXT-X-STREAM-INF" (JS.trim line).

Module MasterSamples.

(** Two variants with different STREAM-INF lines and one rendition. *)
Definition twoVariants : string :=
  Samples.manifest
    ["#EXTM3U";
     "#EXT-X-MEDIA:TYPE=SUBTITLES,GROUP-ID=subs,NAME=Deutsch";
     "#EXT-X-STREAM-INF:PROGRAM-ID=1,BANDWIDTH=500000";
     "480p/playlist.m3u8";
     "#EXT-X-STREAM-INF:PROGRAM-ID=1,BANDWIDTH=1200000";
     "720p/playlist.m3u8"].

End MasterSamples.

(** ** KEY lines of the usual shape *)

(** No code unit of [s] is white space. *)
Fixpoint noSpace (s : string) : bool :=
  match s with
  | EmptyString => true
  | String c s' => negb (JS.isWhiteSpace c) && noSpace s'
  end.

(** ** removeAfterLastSlash *)

(** [s.lastIndexOf(c)] for one code unit; [None] stands for -1. *)
Fixpoint lastIndexOf (c : ascii) (s : string) : option nat :=
  match s with
  | EmptyString => None
  | String d s' =>
      match lastIndexOf c s' with
      | Some i => Some (S i)
      | None => if Ascii.eqb d c then Some 0 else None
      end
  end.

Definition removeAfterLastSlash (str : string) : string :=
  match lastIndexOf "/" str with
  | Some lastSlashIndex => substring 0 lastSlashIndex str
  | None => str
  end.

(** ** getFiles and the script of [Parse_Playlist.ts] *)

(** [s.endsWith(suffix)] *)
Definition endsWith (suffix s : string) : bool :=
  JS.startsWith (String.rev suffix) (String.rev s).

(** Further collaborators: [readdir] ([None]: it throws), the order that
    [sort] with [localeCompare] puts paths in, the decoding of a file's
    bytes by [Bun.file(...).text()], and whether a file that is there can
    be read and can be removed (permissions, a file in use).  The listing
    of a directory is what the collaborator answers; it is not derived from
    the [files] of a world. *)
Record Folder := mkFolder {
  readdir : string -> option (list string);
  sortByLocale : list string -> list string;
  decodeText : buffer -> string;
  readable : string -> bool;
  unlinkable : string -> bool
}.

(** The test of the [filter] in getFiles. *)
Definition keepPath (NamePrefix fileExt fp : string) : bool :=
  (String.eqb NamePrefix "" || JS.includes NamePrefix fp)
  && (String.eqb fileExt "" || endsWith fileExt fp).

Definition getFiles (host : Host) (folder : Folder)
    (directoryPath NamePrefix fileExt : string) : list string :=
  match readdir folder directoryPath with
  | None => []
  | Some fileNames =>
      let filePaths := map (fun fn => path_join host [directoryPath; fn]) fileNames in
      sortByLocale folder (List.filter (keepPath NamePrefix fileExt) filePaths)
  end.

Inductive ScriptError :=
  | ReadFailed (file : string)
  | RunFailed (file : string) (e : Error)
  | UnlinkFailed (file : string).

(** [await Bun.file(file).text()]: it throws when there is no such file or
    the file cannot be read. *)
Definition readText (folder : Folder) (file : string) (w : World) : option string :=
  match files w !! file with
  | Some bytes => if readable folder file then Some (decodeText folder bytes) else None
  | None => None
  end.

(** [unlinkSync(file)]: it throws when there is no such file or the file
    cannot be removed. *)
Definition unlinkSync (folder : Folder) (file : string) (w : World) : option World :=
  match files w !! file with
  | Some _ =>
      if unlinkable folder file
      then Some (mkWorld (delete file (files w)) (trace w))
      else None
  | None => None
  end.

(** The loop of the script over the playlist files: read the file, run
    ProcessPlaylist on its text, unlink it.  The second component lists the
    files unlinked so far. *)
Fixpoint processFiles (host : Host) (folder : Folder) (ShowName : string)
    (Files : list string) (w : World) (unlinked : list string)
    : World * list string * (ScriptError + unit) :=
  match Files with
  | [] => (w, unlinked, inr tt)
  | file :: rest =>
      match readText folder file w with
      | None => (w, unlinked, inl (ReadFailed file))
      | Some text =>
          match ProcessPlaylist host text ShowName w with
          | (w1, inl e) => (w1, unlinked, inl (RunFailed file e))
          | (w1, inr _) =>
              match unlinkSync folder file w1 with
              | None => (w1, unlinked, inl (UnlinkFailed file))
              | Some w2 =>
                  processFiles host folder ShowName rest w2 (unlinked ++ [file])
              end
          end
      end
  end.

(** The script: the playlists of [./m3u8] whose path includes [FNN] and
    ends with [m3u8]. *)
Definition Parse_Playlist (host : Host) (folder : Folder) (w : World)
    : World * list string * (ScriptError + unit) :=
  processFiles host folder "FreitagNachtNews"
    (getFiles host folder "./m3u8" "FNN" "m3u8") w [].

Module SampleFolder.

Fixpoint insertPath (p : string) (l : list string) : list string :=
  match l with
  | [] => [p]
  | q :: l' => if String.leb p q then p :: l else q :: insertPath p l'
  end.

(** Code unit order, which is the order of [localeCompare] on the sample
    names. *)
Definition sortPaths (l : list string) : list string := foldr insertPath [] l.

(** The text of a file whose bytes are all below 128. *)
Definition text (bytes : buffer) : string := string_of_list_byte bytes.

(** [join] of [node:path] on the arguments met here: as [SampleHost.join],
    and a leading ["./"] of the result is dropped. *)
Definition join (parts : list string) : string :=
  let s := SampleHost.join parts in
  if JS.startsWith "./" s then JS.dropChars 2 s else s.

Definition host : Host :=
  mkHost (fun _ => Some [x00; x01]) join (fun _ => true)
         (fun _ _ data => Some data) (fun _ => true).

Definition folder : Folder :=
  mkFolder
    (fun dir => if String.eqb dir "./m3u8"
                then Some ["FNN_1700000005.m3u8"; "notes.txt"; "FNN_1700000000.m3u8"]
                else None)
    sortPaths text (fun _ => true) (fun _ => true).

(** A disk with the two playlists: the first one is [Samples.keyless], on
    which ProcessPlaylist throws, the other is [Samples.twoKeys]. *)
Definition disk : World :=
  mkWorld
    (<["m3u8/FNN_1700000000.m3u8" := list_byte_of_string Samples.twoKeys]>
       (<["m3u8/FNN_1700000005.m3u8" := list_byte_of_string Samples.keyless]> ∅))
    [].

End SampleFolder.

(** * Properties *)

(** ** Strings *)

Lemma startsWith_app (p t : string) : JS.startsWith p (p ++ t) = true.
Proof.
  induction p as [|a p IH]; simpl; [reflexivity|].
  rewrite Ascii.eqb_refl. exact IH.
Qed.

Lemma startsWith_inv (p s : string) :
  JS.startsWith p s = true -> exists t, s = p ++ t.
Proof.
  revert s. induction p as [|a p IH]; intros s H.
  - exists s. reflexivity.
  - destruct s as [|b s]; simpl in H; [discriminate|].
    apply andb_true_iff in H as [Hab Hps].
    apply Ascii.eqb_eq in Hab. subst b.
    destruct (IH _ Hps) as [t ->]. exists t. reflexivity.
Qed.

(** A line cannot carry both tags: the branches of the parsers do not
    overlap. *)
Lemma extinf_not_key (line : string) :
  JS.startsWith "#EXTINF:" line = true ->
  JS.startsWith "#EXT-X-KEY" line = false.
Proof.
  intros H. apply startsWith_inv in H as [t ->]. reflexivity.
Qed.

Lemma split_not_nil (c : ascii) (s : string) : JS.split c s <> [].
Proof.
  induction s as [|d s IH]; simpl; [discriminate|].
  destruct (Ascii.eqb d c); [discriminate|].
  destruct (JS.split c s); [contradiction|discriminate].
Qed.

Lemma split_no_sep (c : ascii) (s : string) :
  hasChar c s = false -> JS.split c s = [s].
Proof.
  induction s as [|d s IH]; simpl; intros H; [reflexivity|].
  apply orb_false_iff in H as [Hd Hs].
  rewrite Hd, (IH Hs). reflexivity.
Qed.

Lemma last_consHead (d : ascii) (p q : string) (rest : list string) :
  last (JS.consHead d (p :: q :: rest)) = last (p :: q :: rest).
Proof. reflexivity. Qed.

Lemma split_two_pieces (c : ascii) (s : string) :
  hasChar c s = true -> exists p q rest, JS.split c s = p :: q :: rest.
Proof.
  induction s as [|d s IH]; simpl; intros H; [discriminate|].
  destruct (Ascii.eqb d c) eqn:Hd.
  - pose proof (split_not_nil c s) as Hne.
    destruct (JS.split c s) as [|q rest]; [contradiction|].
    exists EmptyString, q, rest. reflexivity.
  - simpl in H. destruct (IH H) as (p & q & rest & ->).
    exists (String d p), q, rest. reflexivity.
Qed.

(** [s.split(c).pop()] is the text after the last [c]. *)
Lemma last_split (c : ascii) (s : string) :
  last (JS.split c s) = Some (afterLast c s).
Proof.
  induction s as [|d s IH]; [reflexivity|].
  cbn [JS.split afterLast].
  destruct (hasChar c s) eqn:Hs.
  - destruct (split_two_pieces c s Hs) as (p & q & rest & Hsplit).
    rewrite Hsplit in *.
    destruct (Ascii.eqb d c); [exact IH|].
    rewrite last_consHead. exact IH.
  - rewrite (split_no_sep c s Hs).
    destruct (Ascii.eqb d c); reflexivity.
Qed.

(** The source expression for a segment's [index], said in words: what
    follows the last ['-'] of the URL, less the first [".ts"] in it. *)
Lemma segmentIndex_afterLast (url : string) :
  segmentIndex url = JS.removeFirst ".ts" (afterLast "-" url).
Proof. unfold segmentIndex. rewrite last_split. reflexivity. Qed.

Lemma segmentIndex_no_dash (url : string) :
  hasChar "-" url = false -> segmentIndex url = JS.removeFirst ".ts" url.
Proof.
  intros H. unfold segmentIndex. rewrite (split_no_sep _ _ H). reflexivity.
Qed.

(** [afterLast] returns a suffix. *)
Lemma afterLast_suffix (c : ascii) (s : string) :
  exists p, s = p ++ afterLast c s.
Proof.
  induction s as [|d s [p IH]]; [exists EmptyString; reflexivity|].
  cbn [afterLast]. destruct (hasChar c s).
  - exists (String d p).
    change (String d s = String d (p ++ afterLast c s)). f_equal. exact IH.
  - destruct (Ascii.eqb d c).
    + exists (String d EmptyString). reflexivity.
    + exists EmptyString. reflexivity.
Qed.

Lemma hasChar_app (c : ascii) (p t : string) :
  hasChar c (p ++ t) = hasChar c p || hasChar c t.
Proof.
  induction p as [|d p IH]; [reflexivity|].
  simpl. rewrite IH, orb_assoc. reflexivity.
Qed.

(** The last [c] of a string lies in any suffix that holds a [c]. *)
Lemma afterLast_in_suffix (c : ascii) (p t : string) :
  hasChar c t = true -> afterLast c (p ++ t) = afterLast c t.
Proof.
  intros Ht. induction p as [|d p IH]; [reflexivity|].
  change (afterLast c (String d (p ++ t)) = afterLast c t).
  cbn [afterLast]. rewrite hasChar_app, Ht, orb_true_r. exact IH.
Qed.

(** When the file name of a URL holds a ['-'], the last ['-'] of the URL
    is the last ['-'] of the file name. *)
Lemma afterLast_fileName (url : string) :
  hasChar "-" (fileName url) = true ->
  afterLast "-" url = afterLast "-" (fileName url).
Proof.
  intros H. destruct (afterLast_suffix "/" url) as [p Hp].
  rewrite Hp at 1. apply afterLast_in_suffix. exact H.
Qed.

(** ** The scan of parsePlaylist *)

Lemma not_excluded (s : string) :
  negb (JS.includes "099_Pluto_TV_OandO" s)
  && negb (JS.includes "829_Pluto_TV_OandO" s) = negb (excluded s).
Proof. unfold excluded. rewrite negb_orb. reflexivity. Qed.

Arguments parseStep : simpl never.
Arguments parseKey : simpl never.

Lemma parseStep_spec lines index line st st' :
  parseStep lines index line st = Some st' -> stepSpec lines index line st st'.
Proof.
  unfold parseStep. intros H.
  destruct (JS.startsWith "#EXT-X-KEY" line) eqn:Hkey.
  - destruct (parseKey line) as [k|] eqn:Hk; simpl in H; [|discriminate].
    rewrite not_excluded in H.
    destruct (excluded (key_uri k)) eqn:Hex; simpl in H; inversion H; subst.
    + eapply step_key_excluded; eauto.
    + eapply step_key_kept; [repeat split; eauto | reflexivity].
  - destruct (JS.startsWith "#EXTINF:" line) eqn:Hinf.
    + destruct (lines !! (index + 1)) as [next|] eqn:Hnext; simpl in H; [|discriminate].
      rewrite not_excluded in H.
      destruct (excluded (JS.trim next)) eqn:Hex; simpl in H; inversion H; subst.
      * apply step_skip; auto. unfold declaredUrl. rewrite Hinf, Hnext, Hex. reflexivity.
      * eapply step_segment; eauto.
        unfold declaredUrl. rewrite Hinf, Hnext, Hex. reflexivity.
    + inversion H; subst. apply step_skip; auto.
      unfold declaredUrl. rewrite Hinf. reflexivity.
Qed.

Lemma parseLoop_app lines index a b st :
  parseLoop lines index (a ++ b) st =
  parseLoop lines index a st ≫= parseLoop lines (index + length a) b.
Proof.
  revert index st. induction a as [|line a IH]; intros index st; simpl.
  - rewrite Nat.add_0_r. reflexivity.
  - destruct (parseStep lines index line st) as [st1|]; simpl; [|reflexivity].
    rewrite IH. replace (S index + length a) with (index + S (length a)) by lia.
    reflexivity.
Qed.

(** A block without a live key leaves [keys] alone and gives every segment
    it declares the key that was current on entry. *)
Lemma parseLoop_block lines index block st st' :
  noLiveKey block ->
  parseLoop lines index block st = Some st' ->
  st_keys st' = st_keys st /\
  (exists garbage, st_heap st' = (st_heap st ++ garbage)%list) /\
  st_segments st' =
    (st_segments st ++
     map (fun url => mkSegment url (segmentIndex url) (last (st_keys st)))
         (declaredUrls lines index block))%list.
Proof.
  revert index st. induction block as [|line block IH]; intros index st Hno H.
  - simpl in H. inversion H; subst. split; [reflexivity|]. split.
    + exists []. rewrite app_nil_r. reflexivity.
    + simpl. rewrite app_nil_r. reflexivity.
  - simpl in H.
    destruct (parseStep lines index line st) as [st1|] eqn:Hstep; simpl in H; [|discriminate].
    assert (Hno' : noLiveKey block).
    { intros l k Hl. apply Hno. apply elem_of_cons. right. exact Hl. }
    destruct (IH _ _ Hno' H) as (Hkeys & [g Hheap] & Hsegs).
    apply parseStep_spec in Hstep.
    destruct Hstep as [k [Hs [Hp Hex]] ->|k Hs Hp Hex ->|url Hs Hd Hex ->|Hs Hd ->];
      cbn [st_keys st_heap st_segments declaredUrls] in *.
    + assert (excluded (key_uri k) = true) by (eapply Hno; eauto; apply elem_of_cons; auto).
      congruence.
    + split; [exact Hkeys|]. split.
      * exists ([k] ++ g)%list. rewrite Hheap, <- app_assoc. reflexivity.
      * destruct (JS.startsWith "#EXTINF:" line) eqn:Hinf.
        -- rewrite (extinf_not_key _ Hinf) in Hs. discriminate.
        -- unfold declaredUrl. rewrite Hinf. exact Hsegs.
    + split; [exact Hkeys|]. split; [exists g; exact Hheap|].
      rewrite Hd. rewrite Hsegs, <- app_assoc. reflexivity.
    + split; [exact Hkeys|]. split; [exists g; exact Hheap|].
      rewrite Hd. exact Hsegs.
Qed.

(** Any stretch of the scan only appends to the heap, to [keys] and to
    [segments]; the segments it appends are the ones its lines declare. *)
Lemma parseLoop_grows lines index todo st st' :
  parseLoop lines index todo st = Some st' ->
  exists h ks ss,
    st_heap st' = (st_heap st ++ h)%list /\
    st_keys st' = (st_keys st ++ ks)%list /\
    st_segments st' = (st_segments st ++ ss)%list /\
    map seg_url ss = declaredUrls lines index todo.
Proof.
  revert index st. induction todo as [|line todo IH]; intros index st H.
  - simpl in H. inversion H; subst. exists [], [], [].
    rewrite !app_nil_r. auto.
  - simpl in H.
    destruct (parseStep lines index line st) as [st1|] eqn:Hstep; simpl in H; [|discriminate].
    destruct (IH _ _ H) as (h & ks & ss & Hh & Hk & Hs & Hu).
    apply parseStep_spec in Hstep.
    destruct Hstep as [k [Hs1 [Hp Hex]] ->|k Hs1 Hp Hex ->|url Hs1 Hd Hex ->|Hs1 Hd ->];
      cbn [st_keys st_heap st_segments declaredUrls] in *.
    + exists ([k] ++ h)%list, ([length (st_heap st)] ++ ks)%list, ss.
      rewrite Hh, Hk, Hs, <- !app_assoc. repeat split; auto.
      destruct (JS.startsWith "#EXTINF:" line) eqn:Hinf.
      * rewrite (extinf_not_key _ Hinf) in Hs1. discriminate.
      * unfold declaredUrl. rewrite Hinf. exact Hu.
    + exists ([k] ++ h)%list, ks, ss.
      rewrite Hh, Hk, Hs, <- !app_assoc. repeat split; auto.
      destruct (JS.startsWith "#EXTINF:" line) eqn:Hinf.
      * rewrite (extinf_not_key _ Hinf) in Hs1. discriminate.
      * unfold declaredUrl. rewrite Hinf. exact Hu.
    + exists h, ks, ([mkSegment url (segmentIndex url) (last (st_keys st))] ++ ss)%list.
      rewrite Hh, Hk, Hs, <- !app_assoc. repeat split; auto.
      rewrite Hd. simpl. f_equal. exact Hu.
    + exists h, ks, ss. rewrite Hd. auto.
Qed.

(** A KEY line with a live key allocates it and makes it the current key. *)
Lemma parseStep_liveKey lines index line k st st' :
  liveKey line k ->
  parseStep lines index line st = Some st' ->
  st' = mkState (st_heap st ++ [k]) (st_keys st ++ [length (st_heap st)])
                (st_segments st).
Proof.
  intros (Hs & Hp & Hex) H. apply parseStep_spec in H.
  destruct H as [k' [Hs1 [Hp1 Hex1]] ->|k' Hs1 Hp1 Hex1 ->|url Hs1 Hd Hex1 ->|Hs1 Hd ->];
    try congruence.
Qed.

(** Key scoping for a scan whose look-ahead array is [lines]. *)
Lemma two_key_blocks lines pre K1 b1 K2 b2 k1 k2 st :
  liveKey K1 k1 -> liveKey K2 k2 -> noLiveKey b1 -> noLiveKey b2 ->
  parseLoop lines 0 (pre ++ K1 :: b1 ++ K2 :: b2) initialState = Some st ->
  exists (a1 a2 : loc) (S0 S1 S2 : list MediaSegment),
    st_segments st = (S0 ++ S1 ++ S2)%list /\
    a1 <> a2 /\
    st_heap st !! a1 = Some k1 /\
    st_heap st !! a2 = Some k2 /\
    map seg_url S0 = declaredUrls lines 0 pre /\
    map seg_url S1 = declaredUrls lines (length pre + 1) b1 /\
    Forall (fun s => seg_key s = Some a1) S1 /\
    map seg_url S2 = declaredUrls lines (length pre + 1 + length b1 + 1) b2 /\
    Forall (fun s => seg_key s = Some a2) S2.
Proof.
  intros HK1 HK2 Hb1 Hb2 H.
  rewrite parseLoop_app in H.
  destruct (parseLoop lines 0 pre initialState) as [st0|] eqn:H0;
    cbn [mbind option_bind] in H; [|discriminate].
  cbn [parseLoop] in H. rewrite Nat.add_0_l in H.
  destruct (parseStep lines (length pre) K1 st0) as [st1|] eqn:H1;
    cbn [mbind option_bind] in H; [|discriminate].
  rewrite parseLoop_app in H.
  replace (S (length pre)) with (length pre + 1) in H by lia.
  destruct (parseLoop lines (length pre + 1) b1 st1) as [st2|] eqn:H2;
    cbn [mbind option_bind] in H; [|discriminate].
  cbn [parseLoop] in H.
  destruct (parseStep lines (length pre + 1 + length b1) K2 st2) as [st3|] eqn:H3;
    cbn [mbind option_bind] in H; [|discriminate].
  replace (S (length pre + 1 + length b1)) with (length pre + 1 + length b1 + 1)
    in H by lia.
  apply parseLoop_grows in H0 as (h0 & ks0 & S0 & Hh0 & _ & Hs0 & Hu0).
  simpl in Hh0, Hs0.
  apply (parseStep_liveKey _ _ _ _ _ _ HK1) in H1.
  apply (parseLoop_block _ _ _ _ _ Hb1) in H2 as (Hk2 & [g2 Hh2] & Hs2).
  apply (parseStep_liveKey _ _ _ _ _ _ HK2) in H3.
  apply (parseLoop_block _ _ _ _ _ Hb2) in H as (Hk4 & [g4 Hh4] & Hs4).
  subst st1 st3. cbn [st_keys st_heap st_segments] in *.
  rewrite last_snoc in Hs2, Hs4.
  exists (length (st_heap st0)), (length (st_heap st2)), S0.
  eexists. eexists.
  split; [rewrite Hs4, Hs2, Hs0, <- app_assoc; reflexivity|].
  split; [rewrite Hh2, !length_app; simpl; lia|].
  split.
  { rewrite Hh4, Hh2, <- !app_assoc. apply list_lookup_middle. reflexivity. }
  split.
  { rewrite Hh4, <- !app_assoc. apply list_lookup_middle. reflexivity. }
  split; [exact Hu0|].
  split; [rewrite map_map; simpl; apply map_id|].
  split; [apply List.Forall_map, Forall_true; intros u; reflexivity|].
  split; [rewrite map_map; simpl; apply map_id|].
  apply List.Forall_map, Forall_true. intros u. reflexivity.
Qed.

(** ** What every state of the scan satisfies *)

Lemma WellFormed_initial : WellFormed initialState.
Proof.
  split; simpl; intros; exfalso; eapply not_elem_of_nil; eauto.
Qed.

Lemma last_elem_of {A} (l : list A) (x : A) : last l = Some x -> x ∈ l.
Proof.
  intros H. apply last_Some in H as [l' ->].
  apply elem_of_app. right. apply list_elem_of_singleton. reflexivity.
Qed.

Lemma parseStep_WellFormed lines index line st st' :
  WellFormed st -> parseStep lines index line st = Some st' -> WellFormed st'.
Proof.
  intros [Hk Hs Hsk] H. apply parseStep_spec in H.
  destruct H as [k [Hs1 [Hp Hex]] ->|k Hs1 Hp Hex ->|url Hs1 Hd Hex ->|Hs1 Hd ->].
  - split; cbn [st_keys st_heap st_segments].
    + intros a Ha. apply elem_of_app in Ha as [Ha|Ha].
      * destruct (Hk a Ha) as (k' & Hl & Hx). exists k'. split; [|exact Hx].
        apply lookup_app_l_Some. exact Hl.
      * apply list_elem_of_singleton in Ha. subst a. exists k. split; [|exact Hex].
        apply list_lookup_middle. reflexivity.
    + exact Hs.
    + intros s a Hin Hkey. apply elem_of_app. left. eapply Hsk; eauto.
  - split; cbn [st_keys st_heap st_segments].
    + intros a Ha. destruct (Hk a Ha) as (k' & Hl & Hx). exists k'. split; [|exact Hx].
      apply lookup_app_l_Some. exact Hl.
    + exact Hs.
    + exact Hsk.
  - split; cbn [st_keys st_heap st_segments].
    + exact Hk.
    + intros s Hin. apply elem_of_app in Hin as [Hin|Hin]; [auto|].
      apply list_elem_of_singleton in Hin. subst s. simpl. auto.
    + intros s a Hin Hkey. apply elem_of_app in Hin as [Hin|Hin]; [eauto|].
      apply list_elem_of_singleton in Hin. subst s. simpl in Hkey.
      apply last_elem_of. exact Hkey.
  - split; assumption.
Qed.

Lemma parseLoop_WellFormed lines index todo st st' :
  WellFormed st -> parseLoop lines index todo st = Some st' -> WellFormed st'.
Proof.
  revert index st. induction todo as [|line todo IH]; intros index st Hwf H.
  - simpl in H. inversion H; subst. exact Hwf.
  - cbn [parseLoop] in H.
    destruct (parseStep lines index line st) as [st1|] eqn:Hstep;
      cbn [mbind option_bind] in H; [|discriminate].
    eapply IH; [|exact H]. eapply parseStep_WellFormed; eauto.
Qed.

Lemma parsePlaylist_WellFormed playlist st :
  parsePlaylist playlist = Some st -> WellFormed st.
Proof. apply parseLoop_WellFormed, WellFormed_initial. Qed.

(** The key object of a returned segment, when it has one, is in the heap. *)
Lemma segment_key_deref st s :
  WellFormed st -> s ∈ st_segments st ->
  seg_key s ≫= (fun a => st_heap st !! a) = None <-> seg_key s = None.
Proof.
  intros [Hk _ Hsk] Hin. split; intros H.
  - destruct (seg_key s) as [a|] eqn:Ha; [|reflexivity].
    destruct (Hk a (Hsk _ _ Hin Ha)) as (k & Hl & _).
    simpl in H. congruence.
  - rewrite H. reflexivity.
Qed.

Lemma m3u8Loop_index lines todo st st' :
  (forall s, s ∈ st_segments st -> seg_index s = segmentIndex (seg_url s)) ->
  m3u8Loop lines todo st = Some st' ->
  forall s, s ∈ st_segments st' -> seg_index s = segmentIndex (seg_url s).
Proof.
  revert st. induction todo as [|line todo IH]; intros st Hst H.
  - simpl in H. inversion H; subst. exact Hst.
  - cbn [m3u8Loop] in H.
    destruct (JS.startsWith "#EXT-X-KEY" line).
    + destruct (parseKeyParts emptyKey (JS.split "," line)) as [k|];
        cbn [mbind option_bind] in H; [|discriminate].
      eapply IH; [|exact H]. exact Hst.
    + destruct (JS.startsWith "#EXTINF:" line).
      * destruct (JS.afterFirst lines line) as [next|];
          cbn [mbind option_bind] in H; [|discriminate].
        eapply IH; [|exact H]. cbn [st_segments].
        intros s Hin. apply elem_of_app in Hin as [Hin|Hin]; [auto|].
        apply list_elem_of_singleton in Hin. subst s.
        destruct (0 <? length (st_keys st))%nat; reflexivity.
      * destruct (String.eqb line "#EXT-X-DISCONTINUITY").
        -- inversion H; subst. exact Hst.
        -- eapply IH; eauto.
Qed.

Lemma noLiveKeyb_sound block : noLiveKeyb block = true -> noLiveKey block.
Proof.
  unfold noLiveKeyb. rewrite forallb_forall.
  intros H line k Hin Hs Hp. apply list_elem_of_In in Hin.
  specialize (H line Hin). rewrite Hs, Hp in H. exact H.
Qed.

(** ** Key scoping *)

(** C1. Let the manifest consist of any lines [pre], a KEY line [K1] whose
    key object [k1] is kept, a block [b1] without a kept key, a second KEY
    line [K2] whose key object [k2] is kept, and a block [b2] without a kept
    key.  When parsePlaylist returns, its segments are those of [pre], then
    those declared in [b1], every one of them holding the same address
    [a1], then those declared in [b2], every one of them holding the same
    address [a2]; [a1] and [a2] are different objects of the heap, the key
    records parsed from [K1] and from [K2]. *)
Theorem key_scoping playlist pre K1 b1 K2 b2 k1 k2 st :
  JS.splitLines playlist = (pre ++ K1 :: b1 ++ K2 :: b2)%list ->
  liveKey K1 k1 -> liveKey K2 k2 -> noLiveKey b1 -> noLiveKey b2 ->
  parsePlaylist playlist = Some st ->
  exists (a1 a2 : loc) (S0 S1 S2 : list MediaSegment),
    st_segments st = (S0 ++ S1 ++ S2)%list /\
    a1 <> a2 /\
    st_heap st !! a1 = Some k1 /\
    st_heap st !! a2 = Some k2 /\
    map seg_url S0 = declaredUrls (JS.splitLines playlist) 0 pre /\
    map seg_url S1 = declaredUrls (JS.splitLines playlist) (length pre + 1) b1 /\
    Forall (fun s => seg_key s = Some a1) S1 /\
    map seg_url S2 =
      declaredUrls (JS.splitLines playlist) (length pre + 1 + length b1 + 1) b2 /\
    Forall (fun s => seg_key s = Some a2) S2.
Proof.
  intros Hlines HK1 HK2 Hb1 Hb2 H.
  unfold parsePlaylist, parseLines in H.
  rewrite Hlines in H at 2.
  eapply two_key_blocks; eauto.
Qed.

Lemma key_scoping_witness :
  exists st,
    parsePlaylist Samples.twoKeys = Some st /\
    exists (a1 a2 : loc) (S0 S1 S2 : list MediaSegment),
      st_segments st = (S0 ++ S1 ++ S2)%list /\
      a1 <> a2 /\
      st_heap st !! a1 = Some Samples.keyA /\
      st_heap st !! a2 = Some Samples.keyB /\
      map seg_url S0 = [] /\
      map seg_url S1 =
        ["https://cdn.example/720p/show/a/clip-1.ts";
         "https://cdn.example/720p/show/a/clip-2.ts"] /\
      Forall (fun s => seg_key s = Some a1) S1 /\
      map seg_url S2 = ["https://cdn.example/720p/show/b/clip-3.ts"] /\
      Forall (fun s => seg_key s = Some a2) S2.
Proof.
  eexists. split; [vm_compute; reflexivity|].
  apply (key_scoping Samples.twoKeys Samples.head2 Samples.lineA Samples.blockA
           Samples.lineB Samples.blockB Samples.keyA Samples.keyB).
  - vm_compute; reflexivity.
  - repeat split; vm_compute; reflexivity.
  - repeat split; vm_compute; reflexivity.
  - apply noLiveKeyb_sound. vm_compute; reflexivity.
  - apply noLiveKeyb_sound. vm_compute; reflexivity.
  - vm_compute; reflexivity.
Defined.

(** ** Excluded filler assets *)

(** C6. Whatever the manifest holds, and so also when a filler identifier
    occurs in it both as the URI of a KEY tag and as a segment URL: when
    parsePlaylist returns, no key object in [keys] has a URI that includes
    one of the two identifiers, and no segment in [segments] has a URL
    that includes one. *)
Theorem excluded_absent playlist st :
  parsePlaylist playlist = Some st ->
  (forall a : loc, a ∈ st_keys st ->
     exists k, st_heap st !! a = Some k /\ excluded (key_uri k) = false) /\
  (forall s, s ∈ st_segments st -> excluded (seg_url s) = false).
Proof.
  intros H. apply parsePlaylist_WellFormed in H as [Hk Hs _].
  split; [exact Hk|]. intros s Hin. apply (Hs s Hin).
Qed.

Lemma excluded_absent_witness :
  exists st,
    parsePlaylist Samples.withFiller = Some st /\
    excluded Samples.uriFiller = true /\
    excluded "https://cdn.example/720p/099_Pluto_TV_OandO/clip-7.ts" = true /\
    length (st_keys st) = 1 /\ length (st_segments st) = 2 /\
    (forall a : loc, a ∈ st_keys st ->
       exists k, st_heap st !! a = Some k /\ excluded (key_uri k) = false) /\
    (forall s, s ∈ st_segments st -> excluded (seg_url s) = false).
Proof.
  eexists. split; [vm_compute; reflexivity|].
  split; [vm_compute; reflexivity|].
  split; [vm_compute; reflexivity|].
  split; [reflexivity|]. split; [reflexivity|].
  apply (excluded_absent Samples.withFiller). vm_compute; reflexivity.
Defined.

(** ** The index of a segment *)

(** C8, as stated, fails: the file name [clip.ts] has no ['-'], and the
    index of its segment is the URL less [".ts"], not the empty string. *)
Lemma index_without_dash_counterexample :
  exists st s,
    parsePlaylist Samples.noDash = Some st /\
    st_segments st = [s] /\
    seg_url s = "https://cdn.example/720p/show/a/clip.ts" /\
    excluded (seg_url s) = false /\
    fileName (seg_url s) = "clip.ts" /\
    hasChar "-" (fileName (seg_url s)) = false /\
    seg_index s = "https://cdn.example/720p/show/a/clip" /\
    seg_index s <> "".
Proof.
  eexists. eexists. split; [vm_compute; reflexivity|].
  repeat split. discriminate.
Qed.

(** C8, amended.  For every segment returned by parsePlaylist or by
    parseM3U8, [index] is the text after the last ['-'] of the whole URL,
    with the first [".ts"] in that text removed.  When the file name of the
    URL holds a ['-'], that text is the text after the last ['-'] of the
    file name.  When the URL holds no ['-'], that text is the whole URL, so
    that [index] is the URL less its first [".ts"], not the empty
    string. *)
Theorem segment_index playlist st s :
  parsePlaylist playlist = Some st \/ parseM3U8 playlist = Some st ->
  s ∈ st_segments st ->
  seg_index s = JS.removeFirst ".ts" (afterLast "-" (seg_url s)) /\
  (hasChar "-" (fileName (seg_url s)) = true ->
   seg_index s = JS.removeFirst ".ts" (afterLast "-" (fileName (seg_url s)))) /\
  (hasChar "-" (seg_url s) = false ->
   seg_index s = JS.removeFirst ".ts" (seg_url s)).
Proof.
  intros H Hin.
  assert (Hidx : seg_index s = segmentIndex (seg_url s)).
  { destruct H as [H|H].
    - apply parsePlaylist_WellFormed in H as [_ Hs _]. apply (Hs s Hin).
    - eapply m3u8Loop_index; [|exact H|exact Hin].
      intros s' Hs'. exfalso. eapply not_elem_of_nil. exact Hs'. }
  rewrite Hidx. split; [|split].
  - apply segmentIndex_afterLast.
  - intros Hf. rewrite segmentIndex_afterLast, (afterLast_fileName _ Hf). reflexivity.
  - apply segmentIndex_no_dash.
Qed.

Lemma segment_index_witness :
  exists st s,
    parsePlaylist Samples.twoKeys = Some st /\
    st_segments st !! 0 = Some s /\
    seg_index s = "1" /\
    seg_index s = JS.removeFirst ".ts" (afterLast "-" (seg_url s)) /\
    (hasChar "-" (fileName (seg_url s)) = true ->
     seg_index s = JS.removeFirst ".ts" (afterLast "-" (fileName (seg_url s)))) /\
    (hasChar "-" (seg_url s) = false ->
     seg_index s = JS.removeFirst ".ts" (seg_url s)).
Proof.
  eexists. eexists. split; [vm_compute; reflexivity|].
  split; [reflexivity|]. split; [reflexivity|].
  eapply (segment_index Samples.twoKeys).
  - left. vm_compute; reflexivity.
  - apply list_elem_of_lookup. exists 0. reflexivity.
Defined.

(** ** Partiality of parseKey *)

Lemma parseKeyPart_uri key part key' u :
  parseKeyPart key part = Some key' ->
  declaredUri part = Some u ->
  6 <= length (JS.split "/" u).
Proof.
  unfold parseKeyPart, declaredUri.
  destruct (JS.split "=" part !! 0) as [name|]; cbn [mbind option_bind]; [|discriminate].
  destruct (JS.split "=" part !! 1) as [v|]; [|discriminate].
  destruct (decide (JS.trim name = "URI")); [|discriminate].
  cbn [mbind option_bind]. intros H Hu. inversion Hu; subst u.
  destruct (JS.split "/" (JS.slice 1 (Some (-1)%Z) (JS.trim v)) !! 5) as [p5|] eqn:H5;
    cbn [mbind option_bind] in H; [|discriminate].
  apply lookup_lt_Some in H5. lia.
Qed.

Lemma parseKeyParts_uri key parts key' part u :
  parseKeyParts key parts = Some key' ->
  part ∈ parts ->
  declaredUri part = Some u ->
  6 <= length (JS.split "/" u).
Proof.
  revert key. induction parts as [|p parts IH]; intros key H Hin Hu.
  - exfalso. eapply not_elem_of_nil. exact Hin.
  - cbn [parseKeyParts] in H.
    destruct (parseKeyPart key p) as [key1|] eqn:Hp; cbn [mbind option_bind] in H;
      [|discriminate].
    apply elem_of_cons in Hin as [->|Hin].
    + eapply parseKeyPart_uri; eauto.
    + eapply IH; eauto.
Qed.

Lemma parseLoop_keys_parse lines index todo st st' line :
  parseLoop lines index todo st = Some st' ->
  line ∈ todo ->
  JS.startsWith "#EXT-X-KEY" line = true ->
  is_Some (parseKey line).
Proof.
  revert index st. induction todo as [|l todo IH]; intros index st H Hin Hs.
  - exfalso. eapply not_elem_of_nil. exact Hin.
  - cbn [parseLoop] in H.
    destruct (parseStep lines index l st) as [st1|] eqn:Hstep;
      cbn [mbind option_bind] in H; [|discriminate].
    apply elem_of_cons in Hin as [->|Hin]; [|eapply IH; eauto].
    apply parseStep_spec in Hstep.
    destruct Hstep as [k [Hs1 [Hp Hex]] _|k Hs1 Hp Hex _|url Hs1 Hd Hex _|Hs1 Hd _];
      try congruence; rewrite Hp; eexists; reflexivity.
Qed.

Lemma parseKeyPart_no_uri key part key' :
  parseKeyPart key part = Some key' ->
  declaredUri part = None ->
  key_uri key' = key_uri key /\ key_name key' = key_name key.
Proof.
  unfold parseKeyPart, declaredUri.
  destruct (JS.split "=" part !! 0) as [name|]; cbn [mbind option_bind]; [|discriminate].
  destruct (decide (JS.trim name = "URI")).
  - destruct (JS.split "=" part !! 1) as [v|]; cbn [mbind option_bind]; discriminate.
  - destruct (decide (JS.trim name = "IV")).
    + destruct (JS.split "=" part !! 1) as [v|]; cbn [mbind option_bind];
        [|discriminate].
      intros H _. inversion H; subst. split; reflexivity.
    + intros H _. inversion H; subst. split; reflexivity.
Qed.

Lemma parseKeyParts_no_uri key parts key' :
  parseKeyParts key parts = Some key' ->
  Forall (fun part => declaredUri part = None) parts ->
  key_uri key' = key_uri key /\ key_name key' = key_name key.
Proof.
  revert key. induction parts as [|p parts IH]; intros key H Hall.
  - inversion H; subst. split; reflexivity.
  - cbn [parseKeyParts] in H.
    destruct (parseKeyPart key p) as [key1|] eqn:Hp; cbn [mbind option_bind] in H;
      [|discriminate].
    apply Forall_cons in Hall as [Hp0 Hall].
    destruct (parseKeyPart_no_uri _ _ _ Hp Hp0) as [<- <-].
    apply IH; assumption.
Qed.

(** C10, as stated, fails: on a KEY line whose first attribute is the URI,
    the part that holds the URI is named [#EXT-X-KEY:URI], which is not
    [URI]; parseKey does not read it and returns a record with empty [uri]
    and [name], although the quoted URI [k/key.bin] has two pieces, and
    parsePlaylist and parseM3U8 return with that key kept. *)
Lemma uri_first_attribute_counterexample :
  Samples.keyLineUriFirst "k/key.bin" "00"
    = "#EXT-X-KEY:URI=" ++ Samples.quoted "k/key.bin" ++ ",METHOD=AES-128,IV=0x00" /\
  length (JS.split "/" "k/key.bin") = 2 /\
  JS.split "=" <$> JS.split "," (Samples.keyLineUriFirst "k/key.bin" "00")
    = [["#EXT-X-KEY:URI"; Samples.quoted "k/key.bin"];
       ["METHOD"; "AES-128"]; ["IV"; "0x00"]] /\
  (exists k,
     parseKey (Samples.keyLineUriFirst "k/key.bin" "00") = Some k /\
     key_uri k = "" /\ key_name k = "" /\ key_iv k = "00" /\
     excluded (key_uri k) = false /\
     exists st,
       parsePlaylist Samples.uriFirst = Some st /\
       parseM3U8 Samples.uriFirst = Some st /\
       st_heap st = [k] /\ st_keys st = [0] /\
       st_segments st =
         [mkSegment "https://cdn.example/720p/show/a/clip-1.ts" "1" (Some 0)]).
Proof.
  split; [reflexivity|]. split; [reflexivity|]. split; [vm_compute; reflexivity|].
  eexists. split; [vm_compute; reflexivity|].
  repeat (split; [reflexivity|]).
  eexists. split; [vm_compute; reflexivity|].
  split; [vm_compute; reflexivity|].
  split; [reflexivity|]. split; reflexivity.
Qed.

(** C10, amended.  parseKey reads a URI only from a comma-separated part of
    the KEY line whose text before the first ['='] trims to [URI].  A line
    with such a part whose URI has fewer than six ['/']-separated pieces
    makes parseKey throw: the lookup [uriParts[5]] is undefined.  Hence
    parsePlaylist returns only for manifests in which every URI read in
    this way on a KEY line, excluded or not, has at least six pieces.  On a
    line without such a part, whatever it holds, parseKey does not throw
    for the number of pieces: when it returns, [uri] and [name] of the
    record are empty. *)
Theorem short_key_uri_throws :
  (forall line part u,
     part ∈ JS.split "," line ->
     declaredUri part = Some u ->
     length (JS.split "/" u) < 6 ->
     JS.split "/" u !! 5 = None /\ parseKey line = None) /\
  (forall playlist st line part u,
     parsePlaylist playlist = Some st ->
     line ∈ JS.splitLines playlist ->
     JS.startsWith "#EXT-X-KEY" line = true ->
     part ∈ JS.split "," line ->
     declaredUri part = Some u ->
     6 <= length (JS.split "/" u)) /\
  (forall line key,
     parseKey line = Some key ->
     Forall (fun part => declaredUri part = None) (JS.split "," line) ->
     key_uri key = "" /\ key_name key = "").
Proof.
  split; [|split].
  - intros line part u Hin Hu Hlen. split.
    + apply lookup_ge_None. lia.
    + destruct (parseKey line) as [k|] eqn:Hk; [|reflexivity].
      unfold parseKey in Hk.
      pose proof (parseKeyParts_uri _ _ _ _ _ Hk Hin Hu). lia.
  - intros playlist st line part u H Hline Hs Hin Hu.
    destruct (parseLoop_keys_parse _ _ _ _ _ _ H Hline Hs) as [k Hk].
    unfold parseKey in Hk. eapply parseKeyParts_uri; eauto.
  - intros line key Hk Hall. unfold parseKey in Hk.
    exact (parseKeyParts_no_uri _ _ _ Hk Hall).
Qed.

Lemma short_key_uri_throws_witness :
  (JS.split "/" "https://cdn.example/keys/key.bin" !! 5 = None /\
   parseKey (Samples.keyLine "https://cdn.example/keys/key.bin" "00") = None) /\
  parsePlaylist
    (Samples.manifest
       ["#EXTM3U"; Samples.keyLine "https://cdn.example/keys/key.bin" "00"; ""])
  = None /\
  6 <= length (JS.split "/" Samples.uriA) /\
  (key_uri (mkKey "" "" "00" (IvParseInt16 "00")) = "" /\
   key_name (mkKey "" "" "00" (IvParseInt16 "00")) = "").
Proof.
  split; [|split; [|split]].
  - eapply (proj1 short_key_uri_throws
              (Samples.keyLine "https://cdn.example/keys/key.bin" "00")).
    + apply list_elem_of_lookup. exists 1. vm_compute; reflexivity.
    + vm_compute; reflexivity.
    + vm_compute; lia.
  - vm_compute; reflexivity.
  - eapply (proj1 (proj2 short_key_uri_throws) Samples.twoKeys _ Samples.lineA).
    + vm_compute; reflexivity.
    + apply list_elem_of_lookup. exists 2. vm_compute; reflexivity.
    + vm_compute; reflexivity.
    + apply list_elem_of_lookup. exists 1. vm_compute; reflexivity.
    + vm_compute; reflexivity.
  - apply (proj2 (proj2 short_key_uri_throws)
             (Samples.keyLineUriFirst "k/key.bin" "00")).
    + vm_compute; reflexivity.
    + vm_compute. repeat constructor.
Defined.

(** ** The decrypt-to-disk loop *)

(** The run of one segment whose key can be dereferenced, spelled out. *)
Lemma processSegment_run host heap ShowName segment k w :
  seg_key segment ≫= (fun a => heap !! a) = Some k ->
  let dir := outputDirectory host ShowName k (seg_url segment) in
  let target := outputPath host ShowName k (seg_url segment) in
  let w1 := mkWorld (files w) (trace w ++ [EvMkdir dir]) in
  let w2 := mkWorld (files w) (trace w ++ [EvMkdir dir; EvGet SegmentBody (seg_url segment)]) in
  let w3 := mkWorld (files w)
              (trace w ++ [EvMkdir dir; EvGet SegmentBody (seg_url segment);
                           EvGet KeyBytes (key_uri k)]) in
  processSegment host heap ShowName segment w =
  if mkdir_ok host dir then
    match http host (seg_url segment) with
    | None => (w2, inl (RequestFailed (seg_url segment)))
    | Some body =>
        match http host (key_uri k) with
        | None => (w3, inl (RequestFailed (key_uri k)))
        | Some keyData =>
            if bool_decide (is_Some (files w !! target)) then (w3, inr tt)
            else
              match aes_128_cbc_decrypt host (Buffer_from_hex (buf2hex keyData))
                      (Buffer_from_hex (key_iv k)) body with
              | None => (w3, inl DecipherFailed)
              | Some plain =>
                  if write_ok host target
                  then (mkWorld (<[target := plain]> (files w))
                                (trace w3 ++ [EvWrite target plain]), inr tt)
                  else (w3, inl (WriteFailed target))
              end
        end
    end
  else (w1, inl (MkdirFailed dir)).
Proof.
  intros Hk. cbv zeta.
  unfold processSegment, segmentKey. rewrite Hk.
  unfold outputPath, outputDirectory.
  unfold mkdir, axios_get, fileExists, decryptFileToFile, writeFile.
  unfold bind, ret, throw, emit. cbn [files trace].
  destruct (mkdir_ok host _); [|reflexivity].
  destruct (http host (seg_url segment)) as [body|];
    cbn [files trace]; rewrite <- ?app_assoc; cbn [app]; [|reflexivity].
  destruct (http host (key_uri k)) as [keyData|];
    cbn [files trace]; rewrite <- ?app_assoc; cbn [app]; [|reflexivity].
  destruct (bool_decide _); [reflexivity|].
  destruct (aes_128_cbc_decrypt _ _ _ _) as [plain|]; [|reflexivity].
  destruct (write_ok host _); cbn [files trace]; rewrite <- ?app_assoc; reflexivity.
Qed.

Lemma processSegment_no_key host heap ShowName segment w :
  seg_key segment ≫= (fun a => heap !! a) = None ->
  processSegment host heap ShowName segment w = (w, inl KeyUndefined).
Proof.
  intros Hk. unfold processSegment, segmentKey. rewrite Hk. reflexivity.
Qed.

Ltac turn_done :=
  intros;
  repeat match goal with
         | H : is_Some _ |- _ => destruct H
         end;
  congruence.

Lemma processSegment_spec host heap ShowName segment w w' r :
  processSegment host heap ShowName segment w = (w', r) ->
  turnSpec host heap ShowName segment w w' r.
Proof.
  intros H.
  destruct (seg_key segment ≫= (fun a => heap !! a)) as [k|] eqn:Hk.
  2:{ rewrite (processSegment_no_key _ _ _ _ _ Hk) in H. inversion H; subst.
      apply turn_no_key; auto. }
  rewrite (processSegment_run _ _ _ _ _ _ Hk) in H. cbv zeta in H.
  destruct (mkdir_ok host _) eqn:Hmk.
  2:{ inversion H; subst.
      eapply turn_no_write; [exact Hk|reflexivity|repeat constructor|discriminate|].
      intros _. split; [discriminate|]. split; [intros p; discriminate|].
      turn_done. }
  destruct (http host (seg_url segment)) as [body|] eqn:Hb.
  2:{ inversion H; subst.
      eapply turn_no_write; [exact Hk|reflexivity|repeat constructor|discriminate|].
      intros _. split; [discriminate|]. split; [intros p; discriminate|].
      turn_done. }
  destruct (http host (key_uri k)) as [keyData|] eqn:Hkd.
  2:{ inversion H; subst.
      eapply turn_no_write; [exact Hk|reflexivity|repeat constructor|discriminate|].
      intros _. split; [discriminate|]. split; [intros p; discriminate|].
      turn_done. }
  destruct (bool_decide _) eqn:Hex.
  { inversion H; subst.
    eapply turn_no_write; [exact Hk|reflexivity|repeat constructor|reflexivity|].
    intros _. split; [discriminate|]. split; [intros p; discriminate|].
    reflexivity. }
  apply bool_decide_eq_false in Hex.
  assert (Hnone : files w !! outputPath host ShowName k (seg_url segment) = None).
  { destruct (files w !! _) eqn:E; [|reflexivity].
    exfalso. apply Hex. eexists. reflexivity. }
  destruct (aes_128_cbc_decrypt _ _ _ _) as [plain|].
  2:{ inversion H; subst.
      eapply turn_no_write; [exact Hk|reflexivity|repeat constructor|discriminate|].
      rewrite Hnone. turn_done. }
  destruct (write_ok host _).
  2:{ inversion H; subst.
      eapply turn_no_write; [exact Hk|reflexivity|repeat constructor|discriminate|].
      rewrite Hnone. turn_done. }
  inversion H; subst. eapply turn_write; [exact Hk|exact Hnone| |reflexivity].
  cbn [trace]. rewrite <- app_assoc. reflexivity.
Qed.

Lemma processSegments_cons host heap ShowName segment rest w :
  processSegments host heap ShowName (segment :: rest) w =
  match processSegment host heap ShowName segment w with
  | (w1, inr _) => processSegments host heap ShowName rest w1
  | (w1, inl e) => (w1, inl e)
  end.
Proof. reflexivity. Qed.

(** A run writes only to paths at which no file was when it began, and
    keeps the files that were there. *)
Lemma processSegments_writes host heap ShowName segments w w' r :
  processSegments host heap ShowName segments w = (w', r) ->
  exists evs,
    trace w' = (trace w ++ evs)%list /\
    (forall p d, EvWrite p d ∈ evs -> files w !! p = None) /\
    (forall p d, files w !! p = Some d -> files w' !! p = Some d).
Proof.
  revert w. induction segments as [|s rest IH]; intros w H.
  - inversion H; subst. exists []. rewrite app_nil_r.
    split; [reflexivity|]. split; [|auto].
    intros p d Hin. exfalso. eapply not_elem_of_nil. exact Hin.
  - rewrite processSegments_cons in H.
    destruct (processSegment host heap ShowName s w) as [w1 r1] eqn:Hturn.
    apply processSegment_spec in Hturn.
    destruct Hturn as [Hk -> ->|k evs Hk -> Hnw _ _|k plain Hk Hnone -> ->].
    + inversion H; subst. exists []. rewrite app_nil_r.
      split; [reflexivity|]. split; [|auto].
      intros p d Hin. exfalso. eapply not_elem_of_nil. exact Hin.
    + assert (Hrest : exists evs2,
                 trace w' = ((trace w ++ evs) ++ evs2)%list /\
                 (forall p d, EvWrite p d ∈ evs2 -> files w !! p = None) /\
                 (forall p d, files w !! p = Some d -> files w' !! p = Some d)).
      { destruct r1 as [e|[]].
        - inversion H; subst. exists []. rewrite app_nil_r.
          split; [reflexivity|]. split; [|auto].
          intros p d Hin. exfalso. eapply not_elem_of_nil. exact Hin.
        - apply IH in H. exact H. }
      destruct Hrest as (evs2 & Ht & Hw & Hf).
      exists (evs ++ evs2)%list. rewrite app_assoc. split; [exact Ht|].
      split; [|exact Hf].
      intros p d Hin. apply elem_of_app in Hin as [Hin|Hin]; [|eauto].
      exfalso. rewrite Forall_forall in Hnw. specialize (Hnw _ Hin). discriminate.
    + apply IH in H as (evs2 & Ht & Hw & Hf). cbn [files trace] in *.
      eexists. rewrite Ht, <- app_assoc. split; [reflexivity|].
      split.
      * intros p d Hin. apply elem_of_app in Hin as [Hin|Hin].
        -- repeat (apply elem_of_cons in Hin as [Hin|Hin]; [try discriminate|]).
           ++ inversion Hin; subst. exact Hnone.
           ++ exfalso. eapply not_elem_of_nil. exact Hin.
        -- specialize (Hw _ _ Hin).
           apply lookup_insert_None in Hw as [Hw _]. exact Hw.
      * intros p d Hp. apply Hf. rewrite lookup_insert_ne; [exact Hp|].
        intros <-. congruence.
Qed.

(** A run that completes has dereferenced the key of every segment, and
    has requested, segment by segment, the segment URL and the key URI. *)
Lemma processSegments_requests host heap ShowName segments w w' :
  processSegments host heap ShowName segments w = (w', inr tt) ->
  exists evs ks,
    trace w' = (trace w ++ evs)%list /\
    Forall2 (fun s k => seg_key s ≫= (fun a => heap !! a) = Some k) segments ks /\
    keyRequests evs = map key_uri ks /\
    segmentRequests evs = map seg_url segments.
Proof.
  revert w. induction segments as [|s rest IH]; intros w H.
  - inversion H; subst. exists [], []. rewrite app_nil_r. repeat split. constructor.
  - rewrite processSegments_cons in H.
    destruct (processSegment host heap ShowName s w) as [w1 r1] eqn:Hturn.
    apply processSegment_spec in Hturn.
    destruct Hturn as [Hk -> ->|k evs Hk -> Hnw Hok _|k plain Hk Hnone -> ->].
    + discriminate.
    + destruct r1 as [e|[]]; [discriminate|].
      apply IH in H as (evs2 & ks & Ht & Hks & Hkr & Hsr). cbn [trace] in Ht.
      rewrite (Hok eq_refl) in Ht.
      eexists. exists (k :: ks). rewrite Ht, <- app_assoc.
      split; [reflexivity|]. split; [constructor; assumption|].
      cbn. rewrite Hkr, Hsr. split; reflexivity.
    + apply IH in H as (evs2 & ks & Ht & Hks & Hkr & Hsr). cbn [trace] in Ht.
      eexists. exists (k :: ks). rewrite Ht, <- app_assoc.
      split; [reflexivity|]. split; [constructor; assumption|].
      cbn. rewrite Hkr, Hsr. split; reflexivity.
Qed.

(** ** Skip-if-exists *)

(** C3, as stated, fails: the output file of the only segment exists when
    the segment is processed, and the run still requests the segment body
    and the key bytes. *)
Lemma skip_still_fetches_counterexample :
  exists w',
    outputPath SampleHost.host "Show" Samples.keyA
      "https://cdn.example/720p/show/a/clip.ts" = "Show/episode1/show/a/clip.ts" /\
    files SampleHost.diskWithClip !! "Show/episode1/show/a/clip.ts" = Some [x2a] /\
    ProcessPlaylist SampleHost.host Samples.noDash "Show" SampleHost.diskWithClip
      = (w', inr tt) /\
    trace w' =
      [EvMkdir "Show/episode1/show/a";
       EvGet SegmentBody "https://cdn.example/720p/show/a/clip.ts";
       EvGet KeyBytes Samples.uriA] /\
    files w' = files SampleHost.diskWithClip.
Proof.
  eexists. split; [vm_compute; reflexivity|].
  split; [vm_compute; reflexivity|].
  split; [vm_compute; reflexivity|].
  split; reflexivity.
Qed.

(** C3, amended.  For a segment whose derived output file exists when the
    segment is processed, the turn of the loop writes nothing and leaves
    the files as they are, it does not call the decipher, and it ends
    without error unless making the directory or one of the two requests
    that precede the check fails.  Over a whole run of ProcessPlaylist, no
    write goes to a path that held a file when the run began, and every
    such file is kept. *)
Theorem existing_file_skipped host ShowName :
  (forall heap segment k w,
     seg_key segment ≫= (fun a => heap !! a) = Some k ->
     is_Some (files w !! outputPath host ShowName k (seg_url segment)) ->
     exists evs r,
       processSegment host heap ShowName segment w
         = (mkWorld (files w) (trace w ++ evs), r) /\
       Forall (fun ev => isWrite ev = false) evs /\
       r <> inl DecipherFailed /\
       (forall p, r <> inl (WriteFailed p)) /\
       (mkdir_ok host (outputDirectory host ShowName k (seg_url segment)) = true ->
        is_Some (http host (seg_url segment)) ->
        is_Some (http host (key_uri k)) ->
        r = inr tt)) /\
  (forall playlist w w' r,
     ProcessPlaylist host playlist ShowName w = (w', r) ->
     exists evs,
       trace w' = (trace w ++ evs)%list /\
       (forall p d, EvWrite p d ∈ evs -> files w !! p = None) /\
       (forall p d, files w !! p = Some d -> files w' !! p = Some d)).
Proof.
  split.
  - intros heap segment k w Hk Hex.
    destruct (processSegment host heap ShowName segment w) as [w' r] eqn:Hturn.
    apply processSegment_spec in Hturn.
    destruct Hturn as [Hk' -> ->|k' evs Hk' -> Hnw _ Hskip|k' plain Hk' Hnone -> ->].
    + congruence.
    + assert (k' = k) by congruence. subst k'.
      destruct (Hskip Hex) as (Hd & Hw & Hok).
      exists evs, r. repeat split; assumption.
    + assert (k' = k) by congruence. subst k'.
      rewrite Hnone in Hex. destruct Hex as [? ?]. discriminate.
  - intros playlist w w' r H. unfold ProcessPlaylist in H.
    destruct (parsePlaylist playlist) as [st|].
    + eapply processSegments_writes. exact H.
    + inversion H; subst. exists []. rewrite app_nil_r.
      split; [reflexivity|]. split; [|auto].
      intros p d Hin. exfalso. eapply not_elem_of_nil. exact Hin.
Qed.

Lemma existing_file_skipped_witness :
  exists evs r,
    processSegment SampleHost.host [Samples.keyA] "Show"
      (mkSegment "https://cdn.example/720p/show/a/clip.ts" "" (Some 0))
      SampleHost.diskWithClip
    = (mkWorld (files SampleHost.diskWithClip)
               (trace SampleHost.diskWithClip ++ evs), r) /\
    Forall (fun ev => isWrite ev = false) evs /\
    r <> inl DecipherFailed /\
    (forall p, r <> inl (WriteFailed p)) /\
    (mkdir_ok SampleHost.host
       (outputDirectory SampleHost.host "Show" Samples.keyA
          "https://cdn.example/720p/show/a/clip.ts") = true ->
     is_Some (http SampleHost.host "https://cdn.example/720p/show/a/clip.ts") ->
     is_Some (http SampleHost.host (key_uri Samples.keyA)) ->
     r = inr tt).
Proof.
  apply (proj1 (existing_file_skipped SampleHost.host "Show") [Samples.keyA]
           (mkSegment "https://cdn.example/720p/show/a/clip.ts" "" (Some 0))
           Samples.keyA SampleHost.diskWithClip).
  - reflexivity.
  - exists [x2a]. vm_compute; reflexivity.
Defined.

(** ** Key requests *)

(** C4, as stated, fails: the first two segments of the manifest share one
    key object, and a single run requests its URI twice. *)
Lemma key_fetched_twice_counterexample :
  exists st w',
    parsePlaylist Samples.twoKeys = Some st /\
    seg_key <$> st_segments st = [Some 0; Some 0; Some 1] /\
    st_heap st !! 0 = Some Samples.keyA /\
    ProcessPlaylist SampleHost.host Samples.twoKeys "Show" SampleHost.emptyDisk
      = (w', inr tt) /\
    keyRequests (trace w') = [Samples.uriA; Samples.uriA; Samples.uriB] /\
    count_occ string_dec (keyRequests (trace w')) Samples.uriA = 2.
Proof.
  eexists. eexists. split; [vm_compute; reflexivity|].
  split; [reflexivity|]. split; [reflexivity|].
  split; [vm_compute; reflexivity|].
  split; vm_compute; reflexivity.
Qed.

(** C4, amended.  ProcessPlaylist keeps no key cache.  A run that completes
    has issued one key request for each segment, in segment order, to the
    URI of that segment's key object, next to one request for the segment
    itself; so when all [n] segments hold the same key object, its URI is
    requested [n] times. *)
Theorem key_requested_per_segment host playlist ShowName w w' st :
  parsePlaylist playlist = Some st ->
  ProcessPlaylist host playlist ShowName w = (w', inr tt) ->
  exists evs ks,
    trace w' = (trace w ++ evs)%list /\
    Forall2 (fun s k => seg_key s ≫= (fun a => st_heap st !! a) = Some k)
            (st_segments st) ks /\
    keyRequests evs = map key_uri ks /\
    segmentRequests evs = map seg_url (st_segments st) /\
    (forall (a : loc) k,
       st_heap st !! a = Some k ->
       Forall (fun s => seg_key s = Some a) (st_segments st) ->
       keyRequests evs = replicate (length (st_segments st)) (key_uri k)).
Proof.
  intros Hp H. unfold ProcessPlaylist in H. rewrite Hp in H.
  apply processSegments_requests in H as (evs & ks & Ht & Hks & Hkr & Hsr).
  exists evs, ks. repeat split; try assumption.
  intros a k Ha Hall. rewrite Hkr. clear Hkr Hsr Ht.
  induction Hks as [|s k' segs ks' Hsk Hrest IH]; [reflexivity|].
  apply Forall_cons in Hall as [Hs Hall].
  rewrite Hs in Hsk. simpl in Hsk. assert (k' = k) by congruence. subst k'.
  simpl. f_equal. apply IH. exact Hall.
Qed.

Lemma key_requested_per_segment_witness :
  exists w' st evs ks,
    parsePlaylist Samples.twoKeys = Some st /\
    length (st_segments st) = 3 /\
    trace w' = (trace SampleHost.emptyDisk ++ evs)%list /\
    Forall2 (fun s k => seg_key s ≫= (fun a => st_heap st !! a) = Some k)
            (st_segments st) ks /\
    keyRequests evs = map key_uri ks /\
    segmentRequests evs = map seg_url (st_segments st) /\
    (forall (a : loc) k,
       st_heap st !! a = Some k ->
       Forall (fun s => seg_key s = Some a) (st_segments st) ->
       keyRequests evs = replicate (length (st_segments st)) (key_uri k)).
Proof.
  eexists. eexists.
  assert (Hp : parsePlaylist Samples.twoKeys = Some _) by (vm_compute; reflexivity).
  assert (Hr : ProcessPlaylist SampleHost.host Samples.twoKeys "Show"
                 SampleHost.emptyDisk = (_, inr tt)) by (vm_compute; reflexivity).
  destruct (key_requested_per_segment _ _ _ _ _ _ Hp Hr) as (evs & ks & H).
  exists evs, ks. split; [exact Hp|]. split; [reflexivity|]. exact H.
Defined.

(** ** Segments without a key *)

Lemma first_segment_keyless lines pre line rest url st :
  noLiveKey pre ->
  declaredUrls lines 0 pre = [] ->
  declaredUrl lines (length pre) line = Some url ->
  parseLoop lines 0 (pre ++ line :: rest) initialState = Some st ->
  exists more,
    st_segments st = mkSegment url (segmentIndex url) None :: more.
Proof.
  intros Hno Hnone Hurl H.
  rewrite parseLoop_app in H.
  destruct (parseLoop lines 0 pre initialState) as [st0|] eqn:H0;
    cbn [mbind option_bind] in H; [|discriminate].
  apply (parseLoop_block _ _ _ _ _ Hno) in H0 as (Hk0 & _ & Hs0).
  rewrite Hnone in Hs0. cbn in Hk0, Hs0.
  cbn [parseLoop] in H. rewrite Nat.add_0_l in H.
  destruct (parseStep lines (length pre) line st0) as [st1|] eqn:H1;
    cbn [mbind option_bind] in H; [|discriminate].
  apply parseLoop_grows in H as (_ & _ & ss & _ & _ & Hs & _).
  assert (Hinf : JS.startsWith "#EXTINF:" line = true).
  { unfold declaredUrl in Hurl.
    destruct (JS.startsWith "#EXTINF:" line); [reflexivity|discriminate]. }
  apply parseStep_spec in H1.
  destruct H1 as [k [Hs1 _] _|k Hs1 _ _ _|url' Hs1 Hd Hex ->|Hs1 Hd _].
  - rewrite (extinf_not_key _ Hinf) in Hs1. discriminate.
  - rewrite (extinf_not_key _ Hinf) in Hs1. discriminate.
  - assert (url' = url) by congruence. subst url'.
    cbn [st_segments] in Hs. rewrite Hs0, Hk0 in Hs.
    exists ss. exact Hs.
  - congruence.
Qed.

(** A run that completes met no segment without a key object. *)
Lemma processSegments_completed host heap ShowName segments w w' s :
  processSegments host heap ShowName segments w = (w', inr tt) ->
  s ∈ segments ->
  is_Some (seg_key s ≫= (fun a => heap !! a)).
Proof.
  intros H Hin.
  apply processSegments_requests in H as (evs & ks & _ & Hks & _).
  apply list_elem_of_lookup in Hin as [i Hi].
  destruct (Forall2_lookup_l _ _ _ _ _ Hks Hi) as (k & _ & Hk).
  exists k. exact Hk.
Qed.

(** C9. Let the manifest be lines [pre] that keep no key and declare no
    segment, followed by an EXTINF line that declares the segment [url].
    When parsePlaylist returns, [url] is its first segment and the [key]
    of that segment is undefined; ProcessPlaylist throws with the world
    untouched (nothing was made, requested, deciphered or written), and
    the exception is the one of the access to [segment.key.name] whenever
    parsePlaylist returned.  Moreover no playlist that has a segment with
    an undefined [key] is processed to completion. *)
Theorem keyless_segment_throws host ShowName w :
  (forall playlist pre line rest url,
     JS.splitLines playlist = (pre ++ line :: rest)%list ->
     noLiveKey pre ->
     declaredUrls (JS.splitLines playlist) 0 pre = [] ->
     declaredUrl (JS.splitLines playlist) (length pre) line = Some url ->
     (forall st, parsePlaylist playlist = Some st ->
        exists s more,
          st_segments st = s :: more /\ seg_url s = url /\ seg_key s = None) /\
     (exists e,
        ProcessPlaylist host playlist ShowName w = (w, inl e) /\
        (is_Some (parsePlaylist playlist) -> e = KeyUndefined))) /\
  (forall playlist st s w',
     parsePlaylist playlist = Some st ->
     s ∈ st_segments st ->
     seg_key s = None ->
     ProcessPlaylist host playlist ShowName w <> (w', inr tt)).
Proof.
  split.
  - intros playlist pre line rest url Hlines Hno Hnone Hurl.
    assert (Hfirst : forall st, parsePlaylist playlist = Some st ->
              exists more, st_segments st = mkSegment url (segmentIndex url) None :: more).
    { intros st H. unfold parsePlaylist, parseLines in H.
      rewrite Hlines in H at 2.
      eapply first_segment_keyless; eauto. }
    split.
    + intros st H. destruct (Hfirst st H) as [more Hs].
      eexists. exists more. split; [exact Hs|]. split; reflexivity.
    + unfold ProcessPlaylist.
      destruct (parsePlaylist playlist) as [st|] eqn:Hp.
      * destruct (Hfirst st eq_refl) as [more Hs]. rewrite Hs.
        exists KeyUndefined. split; [reflexivity|]. intros _. reflexivity.
      * exists ParseThrew. split; [reflexivity|]. intros [? ?]. discriminate.
  - intros playlist st s w' Hp Hin Hkey H.
    unfold ProcessPlaylist in H. rewrite Hp in H.
    destruct (processSegments_completed _ _ _ _ _ _ _ H Hin) as [k Hk].
    rewrite Hkey in Hk. discriminate.
Qed.

Lemma keyless_segment_throws_witness :
  ((forall st, parsePlaylist Samples.keyless = Some st ->
      exists s more,
        st_segments st = s :: more /\
        seg_url s = "https://cdn.example/720p/show/a/clip-1.ts" /\
        seg_key s = None) /\
   (exists e,
      ProcessPlaylist SampleHost.host Samples.keyless "Show" SampleHost.emptyDisk
        = (SampleHost.emptyDisk, inl e) /\
      (is_Some (parsePlaylist Samples.keyless) -> e = KeyUndefined))) /\
  is_Some (parsePlaylist Samples.keyless).
Proof.
  split.
  - apply (proj1 (keyless_segment_throws SampleHost.host "Show" SampleHost.emptyDisk)
             Samples.keyless ["#EXTM3U"] "#EXTINF:5.005,"
             ["https://cdn.example/720p/show/a/clip-1.ts"; Samples.lineA;
              "#EXTINF:5.005,"; "https://cdn.example/720p/show/a/clip-2.ts"; ""]).
    + vm_compute; reflexivity.
    + apply noLiveKeyb_sound. vm_compute; reflexivity.
    + vm_compute; reflexivity.
    + vm_compute; reflexivity.
  - eexists. vm_compute; reflexivity.
Defined.

(** ** Discontinuities *)

Lemma indexOf_app (a b : list string) (x : string) :
  x ∈ a -> exists i, JS.indexOf (a ++ b) x = Some i /\ i < length a.
Proof.
  induction a as [|y a IH]; intros Hin.
  - exfalso. eapply not_elem_of_nil. exact Hin.
  - cbn [JS.indexOf app]. destruct (String.eqb y x) eqn:Hyx.
    + exists 0. split; [reflexivity|simpl; lia].
    + apply elem_of_cons in Hin as [->|Hin].
      * rewrite String.eqb_refl in Hyx. discriminate.
      * destruct (IH Hin) as (i & Hi & Hlt). rewrite Hi.
        exists (S i). split; [reflexivity|simpl; lia].
Qed.

(** The look-ahead of parseM3U8 from a line before the marker does not
    reach beyond the marker. *)
Lemma afterFirst_before (pre post : list string) (d x : string) :
  x ∈ pre ->
  JS.afterFirst (pre ++ d :: post) x = JS.afterFirst (pre ++ [d]) x.
Proof.
  intros Hin. unfold JS.afterFirst.
  destruct (indexOf_app pre (d :: post) x Hin) as (i & Hi & Hlt).
  destruct (indexOf_app pre [d] x Hin) as (i' & Hi' & Hlt').
  assert (i' = i).
  { clear Hlt Hlt'. revert i i' Hi Hi'.
    induction pre as [|y pre IH]; intros i i' Hi Hi'.
    - exfalso. eapply not_elem_of_nil. exact Hin.
    - cbn [JS.indexOf app] in Hi, Hi'. destruct (String.eqb y x) eqn:Hyx.
      + congruence.
      + apply elem_of_cons in Hin as [->|Hin];
          [rewrite String.eqb_refl in Hyx; discriminate|].
        destruct (JS.indexOf (pre ++ d :: post) x) as [j|] eqn:Hj; [|discriminate].
        destruct (JS.indexOf (pre ++ [d]) x) as [j'|] eqn:Hj'; [|discriminate].
        simpl in Hi, Hi'. inversion Hi; inversion Hi'; subst.
        f_equal. exact (IH Hin _ _ eq_refl eq_refl). }
  subst i'. rewrite Hi, Hi'.
  destruct (decide (i + 1 < length pre)) as [Hin1|Hout].
  - rewrite !lookup_app_l by exact Hin1. reflexivity.
  - assert (i + 1 = length pre) as -> by lia.
    rewrite !list_lookup_middle; reflexivity.
Qed.

Lemma m3u8Loop_lookahead lines1 lines2 todo st :
  (forall x, x ∈ todo -> JS.afterFirst lines1 x = JS.afterFirst lines2 x) ->
  m3u8Loop lines1 todo st = m3u8Loop lines2 todo st.
Proof.
  revert st. induction todo as [|line todo IH]; intros st Hsame; [reflexivity|].
  assert (Hrest : forall x, x ∈ todo -> JS.afterFirst lines1 x = JS.afterFirst lines2 x).
  { intros x Hx. apply Hsame. apply elem_of_cons. right. exact Hx. }
  cbn [m3u8Loop]. rewrite (Hsame line) by (apply elem_of_cons; left; reflexivity).
  destruct (JS.startsWith "#EXT-X-KEY" line).
  - destruct (parseKeyParts emptyKey (JS.split "," line)); cbn [mbind option_bind];
      [apply IH; exact Hrest|reflexivity].
  - destruct (JS.startsWith "#EXTINF:" line).
    + destruct (JS.afterFirst lines2 line); cbn [mbind option_bind];
        [apply IH; exact Hrest|reflexivity].
    + destruct (String.eqb line "#EXT-X-DISCONTINUITY"); [reflexivity|].
      apply IH. exact Hrest.
Qed.

(** The loop of parseM3U8 ends at the marker: what follows is not read. *)
Lemma m3u8Loop_stops lines pre post st :
  m3u8Loop lines (pre ++ discontinuity :: post) st = m3u8Loop lines pre st.
Proof.
  revert st. induction pre as [|line pre IH]; intros st; [reflexivity|].
  cbn [m3u8Loop app].
  destruct (JS.startsWith "#EXT-X-KEY" line).
  - destruct (parseKeyParts emptyKey (JS.split "," line)); cbn [mbind option_bind];
      [apply IH|reflexivity].
  - destruct (JS.startsWith "#EXTINF:" line).
    + destruct (JS.afterFirst lines line); cbn [mbind option_bind];
        [apply IH|reflexivity].
    + destruct (String.eqb line "#EXT-X-DISCONTINUITY"); [reflexivity|apply IH].
Qed.

(** C2, as stated, fails for parsePlaylist: the manifest has a
    discontinuity line at position 4, and the segment declared after it is
    returned. *)
Lemma discontinuity_ignored_counterexample :
  exists st,
    JS.splitLines Samples.withDiscontinuity !! 4 = Some discontinuity /\
    JS.splitLines Samples.withDiscontinuity !! 6 =
      Some "https://cdn.example/720p/show/a/clip-2.ts" /\
    parsePlaylist Samples.withDiscontinuity = Some st /\
    map seg_url (st_segments st) =
      ["https://cdn.example/720p/show/a/clip-1.ts";
       "https://cdn.example/720p/show/a/clip-2.ts"].
Proof.
  eexists. split; [vm_compute; reflexivity|].
  split; [vm_compute; reflexivity|].
  split; [vm_compute; reflexivity|]. reflexivity.
Qed.

(** C2, amended.  parseM3U8 stops at the first discontinuity line: for a
    manifest whose lines are [pre], the marker and [post], it returns what
    the scan of [pre] alone has collected, whatever [post] holds.
    parsePlaylist has no such stop: it passes over the marker like over any
    line it does not know and goes on with the lines that follow. *)
Theorem discontinuity_stops_parseM3U8 :
  (forall playlist pre post,
     JS.splitLines playlist = (pre ++ discontinuity :: post)%list ->
     parseM3U8 playlist = m3u8Loop (pre ++ [discontinuity]) pre initialState) /\
  (forall lines index post st,
     parseLoop lines index (discontinuity :: post) st =
     parseLoop lines (S index) post st).
Proof.
  split.
  - intros playlist pre post Hlines. unfold parseM3U8, parseM3U8Lines.
    rewrite Hlines. rewrite m3u8Loop_stops.
    apply m3u8Loop_lookahead. intros x Hx. apply afterFirst_before. exact Hx.
  - intros lines index post st. reflexivity.
Qed.

Lemma discontinuity_stops_parseM3U8_witness :
  exists st,
    parseM3U8 Samples.withDiscontinuity = Some st /\
    map seg_url (st_segments st) = ["https://cdn.example/720p/show/a/clip-1.ts"] /\
    parseM3U8 Samples.withDiscontinuity =
    m3u8Loop
      (["#EXTM3U"; Samples.lineA; "#EXTINF:5.005,";
        "https://cdn.example/720p/show/a/clip-1.ts"] ++ [discontinuity])
      ["#EXTM3U"; Samples.lineA; "#EXTINF:5.005,";
       "https://cdn.example/720p/show/a/clip-1.ts"]
      initialState.
Proof.
  eexists. split; [vm_compute; reflexivity|]. split; [reflexivity|].
  apply (proj1 discontinuity_stops_parseM3U8 Samples.withDiscontinuity
           ["#EXTM3U"; Samples.lineA; "#EXTINF:5.005,";
            "https://cdn.example/720p/show/a/clip-1.ts"]
           ["#EXTINF:5.005,"; "https://cdn.example/720p/show/a/clip-2.ts"; ""]).
  vm_compute; reflexivity.
Defined.

(** ** Stream selection *)

Lemma Math_max_ints (streams : list Stream) :
  streams <> [] ->
  Forall (fun s => isInt (bandwidth s)) streams ->
  exists z,
    Math_max (map bandwidth streams) = Int z /\
    (forall t, t ∈ streams -> numLe (bandwidth t) (Int z)) /\
    (exists t, t ∈ streams /\ bandwidth t = Int z).
Proof.
  induction streams as [|s rest IH]; intros Hne Hall; [contradiction|].
  apply Forall_cons in Hall as [[x Hx] Hrest].
  destruct rest as [|s' rest'].
  - exists x. cbn. rewrite Hx. split; [reflexivity|]. split.
    + intros t Ht. apply list_elem_of_singleton in Ht. subst t. rewrite Hx. simpl. lia.
    + exists s. split; [apply list_elem_of_singleton; reflexivity|exact Hx].
  - destruct (IH ltac:(discriminate) Hrest) as (z & Hmax & Hle & (t & Ht & Htz)).
    exists (Z.max x z). split; [|split].
    + change (Math_max (map bandwidth (s :: s' :: rest')))
        with (max2 (bandwidth s) (Math_max (map bandwidth (s' :: rest')))).
      rewrite Hmax, Hx. reflexivity.
    + intros u Hu. apply elem_of_cons in Hu as [->|Hu].
      * rewrite Hx. simpl. lia.
      * specialize (Hle u Hu). unfold numLe in *.
        destruct (bandwidth u); try contradiction. lia.
    + destruct (Z.max_spec x z) as [[_ ->]|[_ ->]].
      * exists t. split; [apply elem_of_cons; right; exact Ht|exact Htz].
      * exists s. split; [apply elem_of_cons; left; reflexivity|exact Hx].
Qed.

(** The head of a filtered list is the first element that passes. *)
Lemma head_filter {A} (P : A -> bool) (l : list A) :
  (exists t, t ∈ l /\ P t = true) ->
  exists i s,
    head (List.filter P l) = Some s /\
    l !! i = Some s /\
    P s = true /\
    (forall j t, j < i -> l !! j = Some t -> P t = false).
Proof.
  induction l as [|x l IH]; intros (t & Ht & HP).
  - exfalso. eapply not_elem_of_nil. exact Ht.
  - cbn [List.filter]. destruct (P x) eqn:Hx.
    + exists 0, x. repeat split; auto. intros j u Hj. lia.
    + apply elem_of_cons in Ht as [->|Ht]; [congruence|].
      destruct (IH (ex_intro _ t (conj Ht HP))) as (i & s & Hh & Hl & Hs & Hbefore).
      exists (S i), s. repeat split; auto.
      intros [|j] u Hj Hu.
      * simpl in Hu. inversion Hu; subst. exact Hx.
      * simpl in Hu. apply (Hbefore j u); [lia|exact Hu].
Qed.

(** C5. For a list of stream variants that is not empty and whose
    bandwidths are integers, getHighestBandwidthStream returns a variant of
    the list whose bandwidth no variant exceeds, and every variant before it
    in the list has a smaller bandwidth: it is the first of the variants
    with the maximum.  For the bandwidths 500000, 1200000, 1200000, 300000
    it is the entry at position 1. *)
Theorem highest_bandwidth_first :
  (forall streams,
     streams <> [] ->
     Forall (fun s => isInt (bandwidth s)) streams ->
     exists i s,
       getHighestBandwidthStream streams = Some s /\
       streams !! i = Some s /\
       (forall t, t ∈ streams -> numLe (bandwidth t) (bandwidth s)) /\
       (forall j t, j < i -> streams !! j = Some t ->
                    numLt (bandwidth t) (bandwidth s))) /\
  (forall s0 s1 s2 s3,
     bandwidth s0 = Int 500000 -> bandwidth s1 = Int 1200000 ->
     bandwidth s2 = Int 1200000 -> bandwidth s3 = Int 300000 ->
     getHighestBandwidthStream [s0; s1; s2; s3] = Some s1 /\
     [s0; s1; s2; s3] !! 1 = Some s1).
Proof.
  split.
  - intros streams Hne Hall.
    destruct (Math_max_ints streams Hne Hall) as (z & Hmax & Hle & (t & Ht & Htz)).
    unfold getHighestBandwidthStream. rewrite Hmax.
    destruct (head_filter (fun stream => looseEq (bandwidth stream) (Int z)) streams)
      as (i & s & Hh & Hl & Hs & Hbefore).
    { exists t. split; [exact Ht|]. rewrite Htz. simpl. apply Z.eqb_refl. }
    exists i, s. split; [exact Hh|]. split; [exact Hl|].
    assert (Hsz : bandwidth s = Int z).
    { destruct (bandwidth s) as [|y|]; simpl in Hs; try discriminate.
      apply Z.eqb_eq in Hs. congruence. }
    rewrite Hsz. split; [exact Hle|].
    intros j u Hj Hu. specialize (Hbefore j u Hj Hu). simpl in Hbefore.
    assert (Hu' : u ∈ streams) by (apply list_elem_of_lookup; eauto).
    specialize (Hle u Hu'). unfold numLe, numLt in *.
    destruct (bandwidth u) as [|y|]; try contradiction.
    simpl in Hbefore. apply Z.eqb_neq in Hbefore. lia.
  - intros s0 s1 s2 s3 H0 H1 H2 H3. split; [|reflexivity].
    unfold getHighestBandwidthStream. cbn [map List.filter].
    rewrite H0, H1, H2, H3. reflexivity.
Qed.

Lemma highest_bandwidth_first_witness :
  exists i s,
    getHighestBandwidthStream
      [mkStream (Int 1) (Int 500000) "subs" "low.m3u8";
       mkStream (Int 1) (Int 1200000) "subs" "high-a.m3u8";
       mkStream (Int 1) (Int 1200000) "subs" "high-b.m3u8";
       mkStream (Int 1) (Int 300000) "subs" "lowest.m3u8"] = Some s /\
    [mkStream (Int 1) (Int 500000) "subs" "low.m3u8";
     mkStream (Int 1) (Int 1200000) "subs" "high-a.m3u8";
     mkStream (Int 1) (Int 1200000) "subs" "high-b.m3u8";
     mkStream (Int 1) (Int 300000) "subs" "lowest.m3u8"] !! i = Some s /\
    (forall t,
       t ∈ [mkStream (Int 1) (Int 500000) "subs" "low.m3u8";
            mkStream (Int 1) (Int 1200000) "subs" "high-a.m3u8";
            mkStream (Int 1) (Int 1200000) "subs" "high-b.m3u8";
            mkStream (Int 1) (Int 300000) "subs" "lowest.m3u8"] ->
       numLe (bandwidth t) (bandwidth s)) /\
    (forall j t, j < i ->
       [mkStream (Int 1) (Int 500000) "subs" "low.m3u8";
        mkStream (Int 1) (Int 1200000) "subs" "high-a.m3u8";
        mkStream (Int 1) (Int 1200000) "subs" "high-b.m3u8";
        mkStream (Int 1) (Int 300000) "subs" "lowest.m3u8"] !! j = Some t ->
       numLt (bandwidth t) (bandwidth s)).
Proof.
  apply (proj1 highest_bandwidth_first).
  - discriminate.
  - repeat constructor; eexists; reflexivity.
Defined.

(** ** The URI of a stream variant *)

(** What parseMaster does: a MEDIA line gives its attributes and nothing
    else; a STREAM-INF line gives its attributes and, as [uri], the trimmed
    line that follows the first line of the manifest with the same text. *)
Lemma masterLoop_spec lines todo playlist playlist' :
  masterLoop lines todo playlist = Some playlist' ->
  exists ms ss,
    media playlist' = (media playlist ++ ms)%list /\
    streams playlist' = (streams playlist ++ ss)%list /\
    Forall (fun m => exists line,
              line ∈ todo /\ parseAttributes (JS.trim line) = Some m) ms /\
    Forall (fun s => exists line a next,
              line ∈ todo /\
              parseAttributes (JS.trim line) = Some a /\
              JS.afterFirst lines line = Some next /\
              s = <["uri" := JS.trim next]> a) ss.
Proof.
  revert playlist. induction todo as [|line todo IH]; intros playlist H.
  - inversion H; subst. exists [], []. rewrite !app_nil_r.
    repeat split; constructor.
  - assert (Hweaken1 : forall ms,
              Forall (fun m => exists l, l ∈ todo /\ parseAttributes (JS.trim l) = Some m) ms ->
              Forall (fun m => exists l, l ∈ line :: todo /\
                                         parseAttributes (JS.trim l) = Some m) ms).
    { intros ms Hms. eapply Forall_impl; [exact Hms|]. intros m (l & Hl & Hm).
      exists l. split; [apply elem_of_cons; right; exact Hl|exact Hm]. }
    assert (Hweaken2 : forall ss,
              Forall (fun s => exists l a next,
                        l ∈ todo /\ parseAttributes (JS.trim l) = Some a /\
                        JS.afterFirst lines l = Some next /\
                        s = <["uri" := JS.trim next]> a) ss ->
              Forall (fun s => exists l a next,
                        l ∈ line :: todo /\ parseAttributes (JS.trim l) = Some a /\
                        JS.afterFirst lines l = Some next /\
                        s = <["uri" := JS.trim next]> a) ss).
    { intros ss Hss. eapply Forall_impl; [exact Hss|].
      intros x (l & a & next & Hl & Hrest).
      exists l, a, next. split; [apply elem_of_cons; right; exact Hl|exact Hrest]. }
    assert (Hhere : line ∈ line :: todo) by (apply elem_of_cons; left; reflexivity).
    cbn [masterLoop] in H. cbv zeta in H.
    destruct (JS.startsWith "#EXTM3U" (JS.trim line)).
    { destruct (IH _ H) as (ms & ss & Hm & Hs & Hms & Hss).
      exists ms, ss. auto. }
    destruct (JS.startsWith "#EXT-X-MEDIA" (JS.trim line)).
    { destruct (parseAttributes (JS.trim line)) as [m|] eqn:Hattr;
        cbn [mbind option_bind] in H; [|discriminate].
      destruct (IH _ H) as (ms & ss & Hm & Hs & Hms & Hss). cbn [media streams] in *.
      exists (m :: ms), ss. rewrite Hm, <- app_assoc.
      split; [reflexivity|]. split; [exact Hs|]. split; [|auto].
      constructor; [|auto]. exists line. auto. }
    destruct (JS.startsWith "#EXT-X-STREAM-INF" (JS.trim line)).
    { destruct (parseAttributes (JS.trim line)) as [a|] eqn:Hattr;
        cbn [mbind option_bind] in H; [|discriminate].
      destruct (JS.afterFirst lines line) as [next|] eqn:Hnext;
        cbn [mbind option_bind] in H; [|discriminate].
      destruct (IH _ H) as (ms & ss & Hm & Hs & Hms & Hss). cbn [media streams] in *.
      exists ms, (<["uri" := JS.trim next]> a :: ss). rewrite Hs, <- app_assoc.
      split; [exact Hm|]. split; [reflexivity|]. split; [auto|].
      constructor; [|auto]. exists line, a, next. auto. }
    destruct (IH _ H) as (ms & ss & Hm & Hs & Hms & Hss).
    exists ms, ss. auto.
Qed.

(** C7 does not hold of the code.  The manifest has the same STREAM-INF
    line at positions 1 and 3; the line after the second one is
    [720p-b/playlist.m3u8], but parseMaster looks the line up with
    [indexOf], finds its first occurrence, and gives the second stream the
    URI [720p-a/playlist.m3u8]. *)
Theorem duplicate_stream_inf_uri :
  exists m s1 s2,
    JS.split "010" MasterSample.twins !! 1 = JS.split "010" MasterSample.twins !! 3 /\
    JS.split "010" MasterSample.twins !! 4 = Some "720p-b/playlist.m3u8" /\
    parseMaster MasterSample.twins = Some m /\
    streams m = [s1; s2] /\
    s1 !! "uri" = Some "720p-a/playlist.m3u8" /\
    s2 !! "uri" = Some "720p-a/playlist.m3u8" /\
    s2 !! "bandwidth" = Some "1200000".
Proof.
  eexists. eexists. eexists.
  split; [vm_compute; reflexivity|].
  split; [vm_compute; reflexivity|].
  split; [vm_compute; reflexivity|].
  split; [reflexivity|].
  split; [vm_compute; reflexivity|].
  split; vm_compute; reflexivity.
Qed.

(** ** When parsePlaylist returns *)

Lemma parseLoop_returns lines index todo st :
  (forall line, line ∈ todo ->
     JS.startsWith "#EXT-X-KEY" line = true -> is_Some (parseKey line)) ->
  (forall j line, todo !! j = Some line ->
     JS.startsWith "#EXTINF:" line = true -> is_Some (lines !! (index + j + 1))) ->
  is_Some (parseLoop lines index todo st).
Proof.
  revert index st. induction todo as [|l todo IH]; intros index st Hkeys Hnext.
  - eexists. reflexivity.
  - cbn [parseLoop].
    assert (Hstep : is_Some (parseStep lines index l st)).
    { unfold parseStep. destruct (JS.startsWith "#EXT-X-KEY" l) eqn:Hk.
      - destruct (Hkeys l ltac:(apply elem_of_cons; left; reflexivity) Hk) as [k ->].
        cbn [mbind option_bind]. destruct (_ && _); eexists; reflexivity.
      - destruct (JS.startsWith "#EXTINF:" l) eqn:Hinf; [|eexists; reflexivity].
        destruct (Hnext 0 l eq_refl Hinf) as [next Hn].
        rewrite Nat.add_0_r in Hn. rewrite Hn. cbn [mbind option_bind].
        destruct (_ && _); eexists; reflexivity. }
    destruct Hstep as [st1 ->]. cbn [mbind option_bind].
    apply IH.
    + intros line Hin. apply Hkeys. apply elem_of_cons. right. exact Hin.
    + intros j line Hj Hinf.
      replace (S index + j + 1) with (index + S j + 1) by lia.
      apply (Hnext (S j) line); assumption.
Qed.

(** X1. parsePlaylist returns exactly when every KEY line parses and every
    EXTINF line has a line after it; otherwise it throws. *)
Lemma parsePlaylist_returns playlist :
  is_Some (parsePlaylist playlist) <->
  (forall line, line ∈ JS.splitLines playlist ->
     JS.startsWith "#EXT-X-KEY" line = true -> is_Some (parseKey line)) /\
  (forall j line, JS.splitLines playlist !! j = Some line ->
     JS.startsWith "#EXTINF:" line = true ->
     is_Some (JS.splitLines playlist !! (j + 1))).
Proof.
  split.
  - intros [st H]. split.
    + intros line Hin Hk. eapply parseLoop_keys_parse; eauto.
    + intros j line Hj Hinf. unfold parsePlaylist, parseLines in H.
      pose proof (take_drop_middle _ _ _ Hj) as Hsplit.
      set (lines := JS.splitLines playlist) in *.
      assert (H' : parseLoop lines 0 (take j lines ++ line :: drop (S j) lines)
                     initialState = Some st) by (rewrite Hsplit; exact H).
      rewrite parseLoop_app in H'.
      destruct (parseLoop lines 0 (take j lines) initialState) as [st0|];
        cbn [mbind option_bind] in H'; [|discriminate].
      cbn [parseLoop] in H'.
      destruct (parseStep lines (0 + length (take j lines)) line st0) as [st1|] eqn:Hs;
        cbn [mbind option_bind] in H'; [|discriminate].
      assert (Hlen : 0 + length (take j lines) = j).
      { rewrite length_take. apply lookup_lt_Some in Hj. lia. }
      rewrite Hlen in Hs. unfold parseStep in Hs.
      rewrite (extinf_not_key _ Hinf), Hinf in Hs.
      destruct (lines !! (j + 1)) as [next|]; [eexists; reflexivity|discriminate].
  - intros [Hkeys Hnext]. apply parseLoop_returns; [exact Hkeys|].
    intros j line Hj Hinf. apply (Hnext j line Hj Hinf).
Qed.

(** ** The key bytes *)

Lemma Buffer_from_hex_byteToHex (b : byte) (s : string) :
  Buffer_from_hex (byteToHex b ++ s) = b :: Buffer_from_hex s.
Proof. destruct b; reflexivity. Qed.

(** The key handed to the decipher is the body of the key response. *)
Lemma Buffer_from_hex_buf2hex (data : buffer) :
  Buffer_from_hex (buf2hex data) = data.
Proof.
  unfold buf2hex. induction data as [|b data IH]; [reflexivity|].
  destruct data as [|b' data'].
  - destruct b; reflexivity.
  - change (String.concat "" (map byteToHex (b :: b' :: data')))
      with (byteToHex b ++ String.concat "" (map byteToHex (b' :: data'))).
    rewrite Buffer_from_hex_byteToHex. f_equal. exact IH.
Qed.

(** * Further properties *)
(** ** Number and order of the segments *)

Lemma declaredUrls_length lines index block :
  length (declaredUrls lines index block) <= extinfCount block.
Proof.
  revert index. induction block as [|line block IH]; intros index; [reflexivity|].
  unfold extinfCount in *. cbn [declaredUrls List.filter]. unfold declaredUrl.
  specialize (IH (S index)).
  destruct (JS.startsWith "#EXTINF:" line); [|exact IH].
  destruct (lines !! (index + 1)) as [next|]; [|cbn [length]; lia].
  destruct (excluded (JS.trim next)); cbn [length]; lia.
Qed.

Lemma declaredUrls_full lines index block :
  (forall j line, block !! j = Some line ->
     JS.startsWith "#EXTINF:" line = true ->
     exists next, lines !! (index + j + 1) = Some next /\
                  excluded (JS.trim next) = false) ->
  length (declaredUrls lines index block) = extinfCount block.
Proof.
  revert index. induction block as [|line block IH]; intros index H; [reflexivity|].
  unfold extinfCount in *. cbn [declaredUrls List.filter]. unfold declaredUrl.
  assert (IH' : length (declaredUrls lines (S index) block) =
                length (List.filter (JS.startsWith "#EXTINF:") block)).
  { apply IH. intros j l Hj Hl.
    replace (S index + j + 1) with (index + S j + 1) by lia.
    apply (H (S j) l Hj Hl). }
  destruct (JS.startsWith "#EXTINF:" line) eqn:Hinf; [|exact IH'].
  destruct (H 0 line eq_refl Hinf) as (next & Hn & Hex).
  rewrite Nat.add_0_r in Hn. rewrite Hn, Hex. cbn [length]. rewrite IH'. reflexivity.
Qed.

Lemma parseLoop_next_line lines index todo st st' :
  parseLoop lines index todo st = Some st' ->
  forall j line, todo !! j = Some line ->
    JS.startsWith "#EXTINF:" line = true ->
    is_Some (lines !! (index + j + 1)).
Proof.
  revert index st. induction todo as [|l todo IH]; intros index st H j line Hj Hinf.
  - rewrite lookup_nil in Hj. discriminate.
  - cbn [parseLoop] in H.
    destruct (parseStep lines index l st) as [st1|] eqn:Hstep;
      cbn [mbind option_bind] in H; [|discriminate].
    destruct j as [|j].
    + simpl in Hj. inversion Hj; subst l. unfold parseStep in Hstep.
      rewrite (extinf_not_key _ Hinf), Hinf in Hstep.
      rewrite Nat.add_0_r.
      destruct (lines !! (index + 1)); [eexists; reflexivity|discriminate].
    + simpl in Hj. replace (index + S j + 1) with (S index + j + 1) by lia.
      eapply IH; eauto.
Qed.

(** X2. When parsePlaylist returns, the URLs of its segments are the
    trimmed lines that follow the EXTINF lines, in manifest order, less the
    excluded ones: there are at most as many segments as EXTINF lines, and
    exactly as many when no line following an EXTINF line is excluded. *)
Theorem segments_in_manifest_order playlist st :
  parsePlaylist playlist = Some st ->
  map seg_url (st_segments st) =
    declaredUrls (JS.splitLines playlist) 0 (JS.splitLines playlist) /\
  length (st_segments st) <= extinfCount (JS.splitLines playlist) /\
  ((forall j line next,
      JS.splitLines playlist !! j = Some line ->
      JS.startsWith "#EXTINF:" line = true ->
      JS.splitLines playlist !! (j + 1) = Some next ->
      excluded (JS.trim next) = false) ->
   length (st_segments st) = extinfCount (JS.splitLines playlist)).
Proof.
  intros H.
  unfold parsePlaylist, parseLines in H.
  pose proof (parseLoop_next_line _ _ _ _ _ H) as Hnext.
  apply parseLoop_grows in H as (h & ks & ss & _ & _ & Hs & Hu).
  cbn in Hs. subst ss. split; [exact Hu|].
  rewrite <- (length_map seg_url), Hu. split.
  - apply declaredUrls_length.
  - intros Hex. apply declaredUrls_full. intros j line Hj Hinf.
    destruct (Hnext j line Hj Hinf) as [next Hn]. rewrite Nat.add_0_l in *.
    exists next. split; [exact Hn|]. exact (Hex j line next Hj Hinf Hn).
Qed.

Lemma segments_in_manifest_order_witness :
  exists st,
    parsePlaylist Samples.twoKeys = Some st /\
    map seg_url (st_segments st) =
      declaredUrls (JS.splitLines Samples.twoKeys) 0 (JS.splitLines Samples.twoKeys) /\
    length (st_segments st) <= extinfCount (JS.splitLines Samples.twoKeys) /\
    ((forall j line next,
        JS.splitLines Samples.twoKeys !! j = Some line ->
        JS.startsWith "#EXTINF:" line = true ->
        JS.splitLines Samples.twoKeys !! (j + 1) = Some next ->
        excluded (JS.trim next) = false) ->
     length (st_segments st) = extinfCount (JS.splitLines Samples.twoKeys)) /\
    extinfCount (JS.splitLines Samples.twoKeys) = 3.
Proof.
  eexists. split; [vm_compute; reflexivity|].
  assert (H := segments_in_manifest_order Samples.twoKeys _
                 ltac:(vm_compute; reflexivity)).
  destruct H as (H1 & H2 & H3).
  split; [exact H1|]. split; [exact H2|]. split; [exact H3|]. reflexivity.
Defined.

Lemma keyLe_refl x : keyLe x x.
Proof. destruct x; simpl; [lia|exact I]. Qed.

Lemma keyLe_trans x y z : keyLe x y -> keyLe y z -> keyLe x z.
Proof. destruct x, y, z; simpl; try tauto; try lia. Qed.

Lemma KeysOrdered_initial : KeysOrdered initialState.
Proof.
  split; cbn.
  - intros a Ha. exfalso. eapply not_elem_of_nil. exact Ha.
  - intros s Hs. exfalso. eapply not_elem_of_nil. exact Hs.
  - intros i j si sj Hi. rewrite lookup_nil in Hi. discriminate.
Qed.

Lemma parseStep_KeysOrdered lines index line st st' :
  KeysOrdered st -> parseStep lines index line st = Some st' -> KeysOrdered st'.
Proof.
  intros [Hk Hb Hs] H. apply parseStep_spec in H.
  destruct H as [k [Hs1 [Hp Hex]] ->|k Hs1 Hp Hex ->|url Hs1 Hd Hex ->|Hs1 Hd ->].
  - split; cbn [st_keys st_heap st_segments].
    + intros a Ha. rewrite length_app. cbn [length].
      apply elem_of_app in Ha as [Ha|Ha]; [specialize (Hk a Ha); lia|].
      apply list_elem_of_singleton in Ha. subst a. lia.
    + intros s Hin. rewrite last_snoc. specialize (Hb s Hin).
      destruct (seg_key s) as [b|]; [|exact I].
      destruct (last (st_keys st)) as [c|] eqn:Hl; [|contradiction].
      apply last_elem_of in Hl. specialize (Hk c Hl). simpl in *. lia.
    + exact Hs.
  - split; cbn [st_keys st_heap st_segments].
    + intros a Ha. rewrite length_app. specialize (Hk a Ha). lia.
    + exact Hb.
    + exact Hs.
  - split; cbn [st_keys st_heap st_segments].
    + exact Hk.
    + intros s Hin. apply elem_of_app in Hin as [Hin|Hin]; [auto|].
      apply list_elem_of_singleton in Hin. subst s. apply keyLe_refl.
    + intros i j si sj Hi Hj Hij.
      destruct (decide (j < length (st_segments st))) as [Hlt|Hge].
      * rewrite lookup_app_l in Hi by lia. rewrite lookup_app_l in Hj by lia.
        eapply Hs; eauto.
      * assert (Hjl : j = length (st_segments st)).
        { apply lookup_lt_Some in Hj. rewrite length_app in Hj. simpl in Hj. lia. }
        subst j. rewrite list_lookup_middle in Hj by reflexivity.
        inversion Hj; subst sj. cbn [seg_key].
        destruct (decide (i < length (st_segments st))) as [Hlt|Hge'].
        -- rewrite lookup_app_l in Hi by lia. apply Hb.
           apply list_elem_of_lookup. eauto.
        -- assert (i = length (st_segments st)) by lia. subst i.
           rewrite list_lookup_middle in Hi by reflexivity.
           inversion Hi; subst si. apply keyLe_refl.
  - split; assumption.
Qed.

Lemma parseLoop_KeysOrdered lines index todo st st' :
  KeysOrdered st -> parseLoop lines index todo st = Some st' -> KeysOrdered st'.
Proof.
  revert index st. induction todo as [|line todo IH]; intros index st Hwf H.
  - simpl in H. inversion H; subst. exact Hwf.
  - cbn [parseLoop] in H.
    destruct (parseStep lines index line st) as [st1|] eqn:Hstep;
      cbn [mbind option_bind] in H; [|discriminate].
    eapply IH; [|exact H]. eapply parseStep_KeysOrdered; eauto.
Qed.

(** X3. Along the segments returned by parsePlaylist the [key] references
    never go back: a segment holds the same key object as the segment
    before it or one allocated later.  In particular the segments without
    a key come first: once a segment has a key, every later one has. *)
Theorem segment_keys_monotone playlist st i j si sj :
  parsePlaylist playlist = Some st ->
  st_segments st !! i = Some si ->
  st_segments st !! j = Some sj ->
  i <= j ->
  keyLe (seg_key si) (seg_key sj) /\
  (is_Some (seg_key si) -> is_Some (seg_key sj)).
Proof.
  intros H Hi Hj Hij.
  apply parseLoop_KeysOrdered in H; [|apply KeysOrdered_initial].
  pose proof (segments_sorted _ H i j si sj Hi Hj Hij) as Hle.
  split; [exact Hle|].
  intros [a Ha]. rewrite Ha in Hle.
  destruct (seg_key sj); [eexists; reflexivity|contradiction].
Qed.

Lemma segment_keys_monotone_witness :
  exists st si sj,
    parsePlaylist Samples.keyless = Some st /\
    st_segments st !! 0 = Some si /\
    st_segments st !! 1 = Some sj /\
    seg_key si = None /\ seg_key sj = Some 0 /\
    keyLe (seg_key si) (seg_key sj) /\
    (is_Some (seg_key si) -> is_Some (seg_key sj)).
Proof.
  eexists. eexists. eexists.
  split; [vm_compute; reflexivity|].
  split; [reflexivity|]. split; [reflexivity|].
  split; [reflexivity|]. split; [reflexivity|].
  eapply (segment_keys_monotone Samples.keyless _ 0 1).
  - vm_compute; reflexivity.
  - reflexivity.
  - reflexivity.
  - lia.
Defined.

(** ** parseM3U8 against parsePlaylist *)

Lemma indexOf_lookup (a : list string) (x : string) (j : nat) :
  JS.indexOf a x = Some j -> a !! j = Some x.
Proof.
  revert j. induction a as [|y a IH]; intros j H; [discriminate|].
  cbn [JS.indexOf] in H. destruct (String.eqb y x) eqn:Hyx.
  - inversion H; subst. apply String.eqb_eq in Hyx. subst. reflexivity.
  - destruct (JS.indexOf a x) as [i|]; [|discriminate].
    inversion H; subst. simpl. apply IH. reflexivity.
Qed.

Lemma indexOf_elem (a : list string) (x : string) :
  x ∈ a -> is_Some (JS.indexOf a x).
Proof.
  intros Hin. destruct (indexOf_app a [] x Hin) as (i & Hi & _).
  rewrite app_nil_r in Hi. eexists. exact Hi.
Qed.

(** For a line that occurs once, [indexOf] finds its position. *)
Lemma afterFirst_unique (lines : list string) (i : nat) (line : string) :
  lines !! i = Some line ->
  (forall j, lines !! j = Some line -> j = i) ->
  JS.afterFirst lines line = lines !! (i + 1).
Proof.
  intros Hi Huniq. unfold JS.afterFirst.
  destruct (indexOf_elem lines line) as [j Hj].
  { apply list_elem_of_lookup. eauto. }
  rewrite Hj. apply indexOf_lookup in Hj. rewrite (Huniq j Hj). reflexivity.
Qed.

Lemma NoDup_filter_lookup {A} (P : A -> bool) (l : list A) i j x :
  NoDup (List.filter P l) ->
  l !! i = Some x -> l !! j = Some x -> P x = true -> i = j.
Proof.
  revert i j. induction l as [|y l IH]; intros i j Hnd Hi Hj HP.
  - rewrite lookup_nil in Hi. discriminate.
  - assert (Hin : forall n, l !! n = Some x -> In x (List.filter P l)).
    { intros n Hn. apply filter_In. split; [|exact HP].
      apply list_elem_of_In, list_elem_of_lookup. eauto. }
    cbn [List.filter] in Hnd.
    destruct i as [|i], j as [|j]; [reflexivity| | |].
    + simpl in Hi, Hj. inversion Hi; subst y. rewrite HP in Hnd.
      apply NoDup_cons in Hnd as [Hnotin _]. exfalso. apply Hnotin.
      apply list_elem_of_In. eapply Hin; eauto.
    + simpl in Hi, Hj. inversion Hj; subst y. rewrite HP in Hnd.
      apply NoDup_cons in Hnd as [Hnotin _]. exfalso. apply Hnotin.
      apply list_elem_of_In. eapply Hin; eauto.
    + simpl in Hi, Hj. f_equal. apply IH; auto.
      destruct (P y); [apply NoDup_cons in Hnd as [_ Hnd]|]; exact Hnd.
Qed.

Lemma m3u8Loop_parseLoop lines done todo st :
  lines = (done ++ todo)%list ->
  discontinuity ∉ lines ->
  (forall i j line,
     lines !! i = Some line -> lines !! j = Some line ->
     JS.startsWith "#EXTINF:" line = true -> i = j) ->
  (forall line k,
     line ∈ lines -> JS.startsWith "#EXT-X-KEY" line = true ->
     parseKey line = Some k -> excluded (key_uri k) = false) ->
  (forall i line next,
     lines !! i = Some line -> JS.startsWith "#EXTINF:" line = true ->
     lines !! (i + 1) = Some next -> excluded (JS.trim next) = false) ->
  m3u8Loop lines todo st = parseLoop lines (length done) todo st.
Proof.
  intros Hlines Hdisc Huniq Hkeys Hurls.
  revert done st Hlines. induction todo as [|line todo IH]; intros done st Hlines;
    [reflexivity|].
  assert (Hhere : lines !! length done = Some line).
  { rewrite Hlines. apply list_lookup_middle. reflexivity. }
  assert (Hin : line ∈ lines) by (apply list_elem_of_lookup; eauto).
  assert (Hrest : forall st1, m3u8Loop lines todo st1 =
                               parseLoop lines (S (length done)) todo st1).
  { intros st1. replace (S (length done)) with (length (done ++ [line])).
    - apply IH. rewrite Hlines, <- app_assoc. reflexivity.
    - rewrite length_app. simpl. lia. }
  cbn [m3u8Loop parseLoop]. unfold parseStep.
  destruct (JS.startsWith "#EXT-X-KEY" line) eqn:Hk.
  - change (parseKeyParts emptyKey (JS.split "," line)) with (parseKey line).
    destruct (parseKey line) as [k|] eqn:Hp; cbn [mbind option_bind]; [|reflexivity].
    rewrite not_excluded, (Hkeys line k Hin Hk Hp). cbn [negb mbind option_bind].
    apply Hrest.
  - destruct (JS.startsWith "#EXTINF:" line) eqn:Hinf.
    + rewrite (afterFirst_unique lines (length done) line Hhere).
      2:{ intros j Hj. symmetry. eapply Huniq; eauto. }
      destruct (lines !! (length done + 1)) as [next|] eqn:Hn;
        cbn [mbind option_bind]; [|reflexivity].
      rewrite not_excluded, (Hurls _ _ _ Hhere Hinf Hn). cbn [negb mbind option_bind].
      rewrite <- Hrest. destruct (0 <? length (st_keys st))%nat; reflexivity.
    + destruct (String.eqb line "#EXT-X-DISCONTINUITY") eqn:Hd.
      * apply String.eqb_eq in Hd. subst line. contradiction.
      * cbn [mbind option_bind]. apply Hrest.
Qed.

(** X4. On a manifest without discontinuity line, in which no two EXTINF
    lines have the same text and nothing is excluded (no KEY URI, no line
    after an EXTINF line), the older parseM3U8 and parsePlaylist give the
    same result, exception included. *)
Theorem parseM3U8_agrees playlist :
  discontinuity ∉ JS.splitLines playlist ->
  NoDup (List.filter (JS.startsWith "#EXTINF:") (JS.splitLines playlist)) ->
  (forall line k,
     line ∈ JS.splitLines playlist -> JS.startsWith "#EXT-X-KEY" line = true ->
     parseKey line = Some k -> excluded (key_uri k) = false) ->
  (forall i line next,
     JS.splitLines playlist !! i = Some line ->
     JS.startsWith "#EXTINF:" line = true ->
     JS.splitLines playlist !! (i + 1) = Some next ->
     excluded (JS.trim next) = false) ->
  parseM3U8 playlist = parsePlaylist playlist.
Proof.
  intros Hdisc Huniq Hkeys Hurls.
  unfold parseM3U8, parseM3U8Lines, parsePlaylist, parseLines.
  apply (m3u8Loop_parseLoop (JS.splitLines playlist) []); auto.
  intros i j line Hi Hj Hinf. eapply NoDup_filter_lookup; eauto.
Qed.

Lemma parseM3U8_agrees_witness :
  parseM3U8 MoreSamples.plain = parsePlaylist MoreSamples.plain /\
  (exists st, parsePlaylist MoreSamples.plain = Some st /\
              length (st_segments st) = 2).
Proof.
  split.
  - apply parseM3U8_agrees.
    + apply (bool_decide_unpack _). vm_compute. exact I.
    + apply (bool_decide_unpack _). vm_compute. exact I.
    + intros line k Hin Hk Hp.
      repeat (apply elem_of_cons in Hin as [->|Hin]; [try discriminate Hk|]).
      * vm_compute in Hp. inversion Hp. vm_compute. reflexivity.
      * exfalso. eapply not_elem_of_nil. exact Hin.
    + intros i line next Hi Hinf Hn.
      do 7 (destruct i as [|i]; [vm_compute in Hi; inversion Hi; subst line;
                                 try discriminate Hinf;
                                 vm_compute in Hn; inversion Hn; vm_compute; reflexivity|]).
      vm_compute in Hi. discriminate.
  - eexists. split; [vm_compute; reflexivity|reflexivity].
Defined.

(** ** Runs of ProcessPlaylist *)

Lemma processSegments_app host heap ShowName a b w :
  processSegments host heap ShowName (a ++ b) w =
  match processSegments host heap ShowName a w with
  | (w1, inr _) => processSegments host heap ShowName b w1
  | (w1, inl e) => (w1, inl e)
  end.
Proof.
  revert w. induction a as [|s a IH]; intros w; [reflexivity|].
  cbn [app]. rewrite !processSegments_cons.
  destruct (processSegment host heap ShowName s w) as [w1 [e|u]]; [reflexivity|].
  apply IH.
Qed.

(** X5. ProcessPlaylist is fail-fast: when the segments before [s] have
    been processed and the turn of [s] throws, the run ends there with that
    exception, in the world the failed turn left; nothing is made,
    requested or written for the segments after [s]. *)
Theorem run_stops_at_first_failure host playlist ShowName st done s rest w w1 w2 e :
  parsePlaylist playlist = Some st ->
  st_segments st = (done ++ s :: rest)%list ->
  processSegments host (st_heap st) ShowName done w = (w1, inr tt) ->
  processSegment host (st_heap st) ShowName s w1 = (w2, inl e) ->
  ProcessPlaylist host playlist ShowName w = (w2, inl e).
Proof.
  intros Hp Hsegs Hdone Hfail. unfold ProcessPlaylist. rewrite Hp, Hsegs.
  rewrite processSegments_app, Hdone, processSegments_cons, Hfail. reflexivity.
Qed.

Lemma run_stops_at_first_failure_witness :
  exists w2,
    ProcessPlaylist FaultyHost.host Samples.twoKeys "Show" SampleHost.emptyDisk
      = (w2, inl (RequestFailed "https://cdn.example/720p/show/a/clip-2.ts")) /\
    segmentRequests (trace w2) =
      ["https://cdn.example/720p/show/a/clip-1.ts";
       "https://cdn.example/720p/show/a/clip-2.ts"] /\
    writtenPaths (trace w2) = ["Show/episode1/show/a/clip-1.ts"].
Proof.
  eexists. split; [|split].
  - eapply (run_stops_at_first_failure FaultyHost.host Samples.twoKeys "Show" _
              [mkSegment "https://cdn.example/720p/show/a/clip-1.ts" "1" (Some 0)]
              (mkSegment "https://cdn.example/720p/show/a/clip-2.ts" "2" (Some 0))
              [mkSegment "https://cdn.example/720p/show/b/clip-3.ts" "3" (Some 1)]).
    + vm_compute; reflexivity.
    + reflexivity.
    + vm_compute; reflexivity.
    + vm_compute; reflexivity.
  - vm_compute; reflexivity.
  - vm_compute; reflexivity.
Defined.

(** A turn that completes: the segment was fetchable, and either its file
    was there and nothing was written, or it was not and the deciphered body
    was written to it. *)
Lemma processSegment_completed host heap ShowName s w w' :
  processSegment host heap ShowName s w = (w', inr tt) ->
  exists k body keyData,
    seg_key s ≫= (fun a => heap !! a) = Some k /\
    mkdir_ok host (outputDirectory host ShowName k (seg_url s)) = true /\
    http host (seg_url s) = Some body /\
    http host (key_uri k) = Some keyData /\
    ((is_Some (files w !! outputPath host ShowName k (seg_url s)) /\
      w' = mkWorld (files w)
             (trace w ++ [EvMkdir (outputDirectory host ShowName k (seg_url s));
                          EvGet SegmentBody (seg_url s); EvGet KeyBytes (key_uri k)])) \/
     (files w !! outputPath host ShowName k (seg_url s) = None /\
      exists plain,
        aes_128_cbc_decrypt host keyData (Buffer_from_hex (key_iv k)) body = Some plain /\
        write_ok host (outputPath host ShowName k (seg_url s)) = true /\
        w' = mkWorld (<[outputPath host ShowName k (seg_url s) := plain]> (files w))
               (trace w ++ [EvMkdir (outputDirectory host ShowName k (seg_url s));
                            EvGet SegmentBody (seg_url s); EvGet KeyBytes (key_uri k);
                            EvWrite (outputPath host ShowName k (seg_url s)) plain]))).
Proof.
  intros H.
  destruct (seg_key s ≫= (fun a => heap !! a)) as [k|] eqn:Hk.
  2:{ rewrite (processSegment_no_key _ _ _ _ _ Hk) in H. discriminate. }
  rewrite (processSegment_run _ _ _ _ _ _ Hk) in H. cbv zeta in H.
  exists k.
  destruct (mkdir_ok host _) eqn:Hmk; [|discriminate].
  destruct (http host (seg_url s)) as [body|] eqn:Hb; [|discriminate].
  destruct (http host (key_uri k)) as [keyData|] eqn:Hkd; [|discriminate].
  exists body, keyData. repeat (split; [reflexivity|]).
  destruct (bool_decide _) eqn:Hex.
  - left. apply bool_decide_eq_true in Hex. split; [exact Hex|].
    inversion H; reflexivity.
  - right. apply bool_decide_eq_false in Hex.
    assert (Hnone : files w !! outputPath host ShowName k (seg_url s) = None).
    { destruct (files w !! _) eqn:E; [|reflexivity].
      exfalso. apply Hex. eexists. reflexivity. }
    split; [exact Hnone|]. rewrite Buffer_from_hex_buf2hex in H.
    destruct (aes_128_cbc_decrypt _ _ _ _) as [plain|]; [|discriminate].
    destruct (write_ok host _); [|discriminate].
    exists plain. repeat (split; [reflexivity|]).
    inversion H. cbn [trace]. rewrite <- app_assoc. reflexivity.
Qed.

Lemma writtenPaths_app evs1 evs2 :
  writtenPaths (evs1 ++ evs2) = (writtenPaths evs1 ++ writtenPaths evs2)%list.
Proof.
  induction evs1 as [|ev evs1 IH]; [reflexivity|].
  destruct ev; cbn [app writtenPaths]; rewrite IH; reflexivity.
Qed.

Lemma writtenPaths_no_write evs :
  Forall (fun ev => isWrite ev = false) evs -> writtenPaths evs = [].
Proof.
  induction 1 as [|ev evs Hev _ IH]; [reflexivity|].
  destruct ev; try discriminate; exact IH.
Qed.

Lemma writtenPaths_elem evs p :
  p ∈ writtenPaths evs <-> exists d, EvWrite p d ∈ evs.
Proof.
  induction evs as [|ev evs IH].
  - split; [intros H|intros [d H]]; exfalso; eapply not_elem_of_nil; exact H.
  - split.
    + intros H. destruct ev as [dir|what url|q d]; cbn [writtenPaths] in H.
      * apply IH in H as [d0 H]. exists d0. apply elem_of_cons. right. exact H.
      * apply IH in H as [d0 H]. exists d0. apply elem_of_cons. right. exact H.
      * apply elem_of_cons in H as [->|H].
        -- exists d. apply elem_of_cons. left. reflexivity.
        -- apply IH in H as [d0 H]. exists d0. apply elem_of_cons. right. exact H.
    + intros [d0 H]. apply elem_of_cons in H as [H|H].
      * subst ev. apply elem_of_cons. left. reflexivity.
      * assert (Hp : p ∈ writtenPaths evs) by (apply IH; eauto).
        destruct ev; cbn [writtenPaths]; try exact Hp.
        apply elem_of_cons. right. exact Hp.
Qed.

(** Any run, completed or not: the paths it wrote are pairwise different,
    none of them held a file before, all of them hold one after, and the
    files that were there are still there. *)
Lemma processSegments_written host heap ShowName segments w w' r :
  processSegments host heap ShowName segments w = (w', r) ->
  exists evs,
    trace w' = (trace w ++ evs)%list /\
    NoDup (writtenPaths evs) /\
    (forall p, p ∈ writtenPaths evs ->
       files w !! p = None /\ is_Some (files w' !! p)) /\
    (forall p, is_Some (files w !! p) -> is_Some (files w' !! p)).
Proof.
  revert w. induction segments as [|s rest IH]; intros w H.
  - inversion H; subst. exists []. rewrite app_nil_r.
    split; [reflexivity|]. split; [constructor|]. split; [|auto].
    intros p Hp. exfalso. eapply not_elem_of_nil. exact Hp.
  - rewrite processSegments_cons in H.
    destruct (processSegment host heap ShowName s w) as [w1 r1] eqn:Hturn.
    apply processSegment_spec in Hturn.
    destruct Hturn as [Hk -> ->|k evs Hk -> Hnw _ _|k plain Hk Hnone -> ->].
    + inversion H; subst. exists []. rewrite app_nil_r.
      split; [reflexivity|]. split; [constructor|]. split; [|auto].
      intros p Hp. exfalso. eapply not_elem_of_nil. exact Hp.
    + assert (Hrest : exists evs2,
                 trace w' = ((trace w ++ evs) ++ evs2)%list /\
                 NoDup (writtenPaths evs2) /\
                 (forall p, p ∈ writtenPaths evs2 ->
                    files w !! p = None /\ is_Some (files w' !! p)) /\
                 (forall p, is_Some (files w !! p) -> is_Some (files w' !! p))).
      { destruct r1 as [e|[]].
        - inversion H; subst. exists []. rewrite app_nil_r.
          split; [reflexivity|]. split; [constructor|]. split; [|auto].
          intros p Hp. exfalso. eapply not_elem_of_nil. exact Hp.
        - apply IH in H. exact H. }
      destruct Hrest as (evs2 & Ht & Hnd & Hw & Hf).
      exists (evs ++ evs2)%list. rewrite app_assoc. split; [exact Ht|].
      rewrite writtenPaths_app, (writtenPaths_no_write _ Hnw). cbn [app].
      split; [exact Hnd|]. split; [exact Hw|exact Hf].
    + apply IH in H as (evs2 & Ht & Hnd & Hw & Hf). cbn [files trace] in *.
      set (target := outputPath host ShowName k (seg_url s)) in *.
      assert (Htarget : is_Some (files w' !! target)).
      { apply Hf. rewrite lookup_insert_eq. eexists. reflexivity. }
      eexists. rewrite Ht, <- app_assoc. split; [reflexivity|].
      rewrite writtenPaths_app. cbn [writtenPaths app].
      split; [|split].
      * apply NoDup_cons. split; [|exact Hnd].
        intros Hin. destruct (Hw _ Hin) as [Hnone' _].
        rewrite lookup_insert_eq in Hnone'. discriminate.
      * intros p Hp. apply elem_of_cons in Hp as [->|Hp]; [split; assumption|].
        destruct (Hw _ Hp) as [Hn Hs]. split; [|exact Hs].
        apply lookup_insert_None in Hn as [Hn _]. exact Hn.
      * intros p Hp. apply Hf. destruct (decide (target = p)) as [->|Hne].
        -- rewrite lookup_insert_eq. eexists. reflexivity.
        -- rewrite lookup_insert_ne by exact Hne. exact Hp.
Qed.

(** X6. In one run of ProcessPlaylist, completed or not, no path is written
    twice, no path that held a file when the run began is written, and
    every written path holds a file when the run ends. *)
Theorem run_writes_each_path_once host playlist ShowName w w' r :
  ProcessPlaylist host playlist ShowName w = (w', r) ->
  exists evs,
    trace w' = (trace w ++ evs)%list /\
    NoDup (writtenPaths evs) /\
    (forall p, p ∈ writtenPaths evs ->
       files w !! p = None /\ is_Some (files w' !! p)).
Proof.
  intros H. unfold ProcessPlaylist in H.
  destruct (parsePlaylist playlist) as [st|].
  - apply processSegments_written in H as (evs & Ht & Hnd & Hw & _).
    exists evs. auto.
  - inversion H; subst. exists []. rewrite app_nil_r.
    split; [reflexivity|]. split; [constructor|].
    intros p Hp. exfalso. eapply not_elem_of_nil. exact Hp.
Qed.

Lemma run_writes_each_path_once_witness :
  exists w' evs,
    ProcessPlaylist SampleHost.host Samples.twoKeys "Show" SampleHost.emptyDisk
      = (w', inr tt) /\
    trace w' = (trace SampleHost.emptyDisk ++ evs)%list /\
    length (writtenPaths evs) = 3 /\
    NoDup (writtenPaths evs) /\
    (forall p, p ∈ writtenPaths evs ->
       files SampleHost.emptyDisk !! p = None /\ is_Some (files w' !! p)).
Proof.
  eexists.
  assert (Hr : ProcessPlaylist SampleHost.host Samples.twoKeys "Show"
                 SampleHost.emptyDisk = (_, inr tt)) by (vm_compute; reflexivity).
  destruct (run_writes_each_path_once _ _ _ _ _ _ Hr) as (evs & Ht & Hnd & Hw).
  exists evs. split; [exact Hr|]. split; [exact Ht|].
  split; [|split; [exact Hnd|exact Hw]].
  cbn [trace SampleHost.emptyDisk app] in Ht. rewrite <- Ht. vm_compute. reflexivity.
Defined.

(** A completed run: every segment was fetchable, the output file of every
    segment is on disk at the end, and every write put the deciphered body
    of its segment at the segment's output path, where it still is. *)
Lemma processSegments_done host heap ShowName segments w w' :
  processSegments host heap ShowName segments w = (w', inr tt) ->
  exists evs,
    trace w' = (trace w ++ evs)%list /\
    (forall p d, files w !! p = Some d -> files w' !! p = Some d) /\
    Forall (fetchable host heap ShowName) segments /\
    Forall (materialized host heap ShowName (files w')) segments /\
    (forall p d, EvWrite p d ∈ evs ->
       files w' !! p = Some d /\
       exists s k body keyData,
         s ∈ segments /\
         seg_key s ≫= (fun a => heap !! a) = Some k /\
         p = outputPath host ShowName k (seg_url s) /\
         http host (seg_url s) = Some body /\
         http host (key_uri k) = Some keyData /\
         aes_128_cbc_decrypt host keyData (Buffer_from_hex (key_iv k)) body = Some d).
Proof.
  revert w. induction segments as [|s rest IH]; intros w H.
  - inversion H; subst. exists []. rewrite app_nil_r.
    split; [reflexivity|]. split; [auto|]. split; [constructor|]. split; [constructor|].
    intros p d Hin. exfalso. eapply not_elem_of_nil. exact Hin.
  - rewrite processSegments_cons in H.
    destruct (processSegment host heap ShowName s w) as [w1 [e|[]]] eqn:Hturn;
      [discriminate|].
    apply processSegment_completed in Hturn
      as (k & body & keyData & Hk & Hmk & Hb & Hkd & Hcase).
    apply IH in H as (evs2 & Ht & Hkeep & Hfetch & Hmat & Hwr).
    assert (Hfs : fetchable host heap ShowName s).
    { exists k. repeat split; try assumption; eexists; eassumption. }
    destruct Hcase as [[Hex ->]|(Hnone & plain & Haes & Hwok & ->)];
      cbn [files trace] in *.
    + eexists. rewrite Ht, <- app_assoc. split; [reflexivity|].
      split; [exact Hkeep|]. split; [constructor; assumption|].
      split.
      * constructor; [|exact Hmat]. exists k. split; [exact Hk|].
        destruct Hex as [d Hd]. exists d. apply Hkeep. exact Hd.
      * intros p d Hin. apply elem_of_app in Hin as [Hin|Hin].
        -- repeat (apply elem_of_cons in Hin as [Hin|Hin]; [discriminate|]).
           exfalso. eapply not_elem_of_nil. exact Hin.
        -- destruct (Hwr p d Hin) as (Hfile & s' & k' & b' & kd' & Hs' & Hrest).
           split; [exact Hfile|]. exists s', k', b', kd'.
           split; [apply elem_of_cons; right; exact Hs'|exact Hrest].
    + set (target := outputPath host ShowName k (seg_url s)) in *.
      assert (Htarget : files w' !! target = Some plain).
      { apply Hkeep. apply lookup_insert_eq. }
      eexists. rewrite Ht, <- app_assoc. split; [reflexivity|].
      split.
      { intros p d Hp. apply Hkeep. rewrite lookup_insert_ne; [exact Hp|].
        intros <-. congruence. }
      split; [constructor; assumption|].
      split.
      * constructor; [|exact Hmat]. exists k. split; [exact Hk|].
        exists plain. exact Htarget.
      * intros p d Hin. apply elem_of_app in Hin as [Hin|Hin].
        -- repeat (apply elem_of_cons in Hin as [Hin|Hin]; [try discriminate|]).
           ++ inversion Hin; subst p d. split; [exact Htarget|].
              exists s, k, body, keyData. split; [apply elem_of_cons; left; reflexivity|].
              repeat split; assumption.
           ++ exfalso. eapply not_elem_of_nil. exact Hin.
        -- destruct (Hwr p d Hin) as (Hfile & s' & k' & b' & kd' & Hs' & Hrest).
           split; [exact Hfile|]. exists s', k', b', kd'.
           split; [apply elem_of_cons; right; exact Hs'|exact Hrest].
Qed.

(** A run over segments that are fetchable and materialized skips every
    one of them. *)
Lemma processSegments_skip_all host heap ShowName segments w :
  Forall (fetchable host heap ShowName) segments ->
  Forall (materialized host heap ShowName (files w)) segments ->
  exists evs,
    processSegments host heap ShowName segments w
      = (mkWorld (files w) (trace w ++ evs), inr tt) /\
    writtenPaths evs = [] /\
    length (keyRequests evs) = length segments.
Proof.
  revert w. induction segments as [|s rest IH]; intros w Hf Hm.
  - exists []. rewrite app_nil_r. destruct w. split; [reflexivity|]. split; reflexivity.
  - apply Forall_cons in Hf as [(k & Hk & Hmk & [body Hb] & [keyData Hkd]) Hf].
    apply Forall_cons in Hm as [(k' & Hk' & Hex) Hm].
    assert (k' = k) by congruence. subst k'.
    rewrite processSegments_cons, (processSegment_run _ _ _ _ _ _ Hk). cbv zeta.
    rewrite Hmk, Hb, Hkd, (bool_decide_eq_true_2 _ Hex).
    destruct (IH (mkWorld (files w)
                    (trace w ++ [EvMkdir (outputDirectory host ShowName k (seg_url s));
                                 EvGet SegmentBody (seg_url s);
                                 EvGet KeyBytes (key_uri k)])) Hf Hm)
      as (evs & Hrun & Hw & Hlen).
    cbn [files trace] in Hrun.
    eexists. rewrite Hrun, <- app_assoc. split; [reflexivity|].
    cbn [app writtenPaths keyRequests length]. rewrite Hw, Hlen. split; reflexivity.
Qed.

(** X7. A run of ProcessPlaylist that completes leaves the output file of
    every segment on disk; and every file it wrote holds the body of its
    segment, deciphered with the bytes of the key response as the key and
    the hex-decoded [iv] of the key record. *)
Theorem completed_run_materializes host playlist ShowName st w w' :
  parsePlaylist playlist = Some st ->
  ProcessPlaylist host playlist ShowName w = (w', inr tt) ->
  exists evs,
    trace w' = (trace w ++ evs)%list /\
    Forall (materialized host (st_heap st) ShowName (files w')) (st_segments st) /\
    (forall p d, EvWrite p d ∈ evs ->
       files w' !! p = Some d /\
       exists s k body keyData,
         s ∈ st_segments st /\
         seg_key s ≫= (fun a => st_heap st !! a) = Some k /\
         p = outputPath host ShowName k (seg_url s) /\
         http host (seg_url s) = Some body /\
         http host (key_uri k) = Some keyData /\
         aes_128_cbc_decrypt host keyData (Buffer_from_hex (key_iv k)) body = Some d).
Proof.
  intros Hp H. unfold ProcessPlaylist in H. rewrite Hp in H.
  apply processSegments_done in H as (evs & Ht & _ & _ & Hmat & Hwr).
  exists evs. auto.
Qed.

Lemma completed_run_materializes_witness :
  exists st w' evs,
    parsePlaylist Samples.twoKeys = Some st /\
    trace w' = (trace SampleHost.emptyDisk ++ evs)%list /\
    length (st_segments st) = 3 /\
    Forall (materialized SampleHost.host (st_heap st) "Show" (files w')) (st_segments st) /\
    (forall p d, EvWrite p d ∈ evs ->
       files w' !! p = Some d /\
       exists s k body keyData,
         s ∈ st_segments st /\
         seg_key s ≫= (fun a => st_heap st !! a) = Some k /\
         p = outputPath SampleHost.host "Show" k (seg_url s) /\
         http SampleHost.host (seg_url s) = Some body /\
         http SampleHost.host (key_uri k) = Some keyData /\
         aes_128_cbc_decrypt SampleHost.host keyData (Buffer_from_hex (key_iv k)) body
           = Some d).
Proof.
  eexists. eexists.
  assert (Hp : parsePlaylist Samples.twoKeys = Some _) by (vm_compute; reflexivity).
  assert (Hr : ProcessPlaylist SampleHost.host Samples.twoKeys "Show"
                 SampleHost.emptyDisk = (_, inr tt)) by (vm_compute; reflexivity).
  destruct (completed_run_materializes _ _ _ _ _ _ Hp Hr) as (evs & Ht & Hm & Hw).
  exists evs. split; [exact Hp|]. split; [exact Ht|]. split; [reflexivity|].
  split; [exact Hm|exact Hw].
Defined.

(** X8. Running ProcessPlaylist again on the same manifest, against the
    same collaborators and on the disk that a completed run has left,
    completes as well, writes nothing and leaves the disk as it is; it
    still requests the key of every segment. *)
Theorem rerun_writes_nothing host playlist ShowName st w w' :
  parsePlaylist playlist = Some st ->
  ProcessPlaylist host playlist ShowName w = (w', inr tt) ->
  exists evs,
    ProcessPlaylist host playlist ShowName w'
      = (mkWorld (files w') (trace w' ++ evs), inr tt) /\
    writtenPaths evs = [] /\
    length (keyRequests evs) = length (st_segments st).
Proof.
  intros Hp H. unfold ProcessPlaylist in *. rewrite Hp in *.
  apply processSegments_done in H as (evs & _ & _ & Hf & Hm & _).
  apply processSegments_skip_all; assumption.
Qed.

Lemma rerun_writes_nothing_witness :
  exists st w' evs,
    parsePlaylist Samples.twoKeys = Some st /\
    ProcessPlaylist SampleHost.host Samples.twoKeys "Show" SampleHost.emptyDisk
      = (w', inr tt) /\
    ProcessPlaylist SampleHost.host Samples.twoKeys "Show" w'
      = (mkWorld (files w') (trace w' ++ evs), inr tt) /\
    writtenPaths evs = [] /\
    length (keyRequests evs) = length (st_segments st).
Proof.
  eexists. eexists.
  assert (Hp : parsePlaylist Samples.twoKeys = Some _) by (vm_compute; reflexivity).
  assert (Hr : ProcessPlaylist SampleHost.host Samples.twoKeys "Show"
                 SampleHost.emptyDisk = (_, inr tt)) by (vm_compute; reflexivity).
  destruct (rerun_writes_nothing _ _ _ _ _ _ Hp Hr) as (evs & H).
  exists evs. split; [exact Hp|]. split; [exact Hr|]. exact H.
Defined.

(** ** getURLBaseDir *)

Lemma consHead_split (c d : ascii) (s : string) :
  exists p rest, JS.split c s = p :: rest /\
                 JS.consHead d (JS.split c s) = String d p :: rest.
Proof.
  pose proof (split_not_nil c s) as Hne.
  destruct (JS.split c s) as [|p rest]; [contradiction|].
  exists p, rest. split; reflexivity.
Qed.

Lemma join_cons (sep p : string) (l : list string) :
  l <> [] -> JS.join sep (p :: l) = p ++ sep ++ JS.join sep l.
Proof. destruct l; [contradiction|reflexivity]. Qed.

(** Joining the pieces of a split gives the string back. *)
Lemma join_split (c : ascii) (s : string) :
  JS.join (String c EmptyString) (JS.split c s) = s.
Proof.
  induction s as [|d s IH]; [reflexivity|].
  cbn [JS.split]. destruct (Ascii.eqb d c) eqn:Hd.
  - apply Ascii.eqb_eq in Hd. subst d.
    rewrite join_cons by apply split_not_nil. rewrite IH. reflexivity.
  - destruct (consHead_split c d s) as (p & rest & Hsplit & Hcons).
    rewrite Hcons. rewrite Hsplit in IH. destruct rest as [|q rest].
    + cbn in *. subst. reflexivity.
    + rewrite join_cons in * by discriminate. rewrite <- IH. reflexivity.
Qed.

Lemma split_app_sep (c : ascii) (dir file : string) :
  hasChar c file = false ->
  JS.split c (dir ++ String c file) = (JS.split c dir ++ [file])%list.
Proof.
  intros Hfile. induction dir as [|d dir IH].
  - change (EmptyString ++ String c file) with (String c file).
    cbn [JS.split]. rewrite Ascii.eqb_refl, (split_no_sep _ _ Hfile). reflexivity.
  - change (String d dir ++ String c file) with (String d (dir ++ String c file)).
    cbn [JS.split]. rewrite IH.
    destruct (Ascii.eqb d c); [reflexivity|].
    destruct (consHead_split c d dir) as (p & rest & Hsplit & Hcons).
    rewrite Hcons, Hsplit. reflexivity.
Qed.

Lemma no_marker_no_match (s : string) :
  JS.startsWith "720p" s = false -> match720p s = None.
Proof.
  intros H. unfold match720p.
  destruct (JS.startsWith "720pDRM/" s) eqn:H1.
  - apply startsWith_inv in H1 as [t ->]. discriminate.
  - destruct (JS.startsWith "720p/" s) eqn:H2; [|reflexivity].
    apply startsWith_inv in H2 as [t ->]. discriminate.
Qed.

(** A string without separator is one piece. *)
Lemma split720p_one_piece (s : string) :
  JS.includes "720p/" s = false ->
  JS.includes "720pDRM/" s = false ->
  split720p 0 s = [s].
Proof.
  induction s as [|c s IH]; intros H1 H2; [reflexivity|].
  cbn [JS.includes] in H1, H2.
  apply orb_false_iff in H1 as [H1 H1'], H2 as [H2 H2'].
  cbn [split720p]. unfold match720p. rewrite H1, H2, (IH H1' H2'). reflexivity.
Qed.

(** A separator cannot begin inside a text that has no ["720p"] and is
    followed by ["720p"]. *)
Lemma marker_no_straddle (x y : string) :
  x <> EmptyString ->
  JS.startsWith "720p" x = false ->
  JS.startsWith "720p" (x ++ "720p" ++ y) = false.
Proof.
  intros Hne H.
  destruct x as [|c1 [|c2 [|c3 [|c4 x]]]]; [contradiction| | | |].
  - change (JS.startsWith "720p" (String c1 ("720p" ++ y)) = false).
    cbn [JS.startsWith String.append].
    destruct (Ascii.eqb "7" c1); reflexivity.
  - change (JS.startsWith "720p" (String c1 (String c2 ("720p" ++ y))) = false).
    cbn [JS.startsWith].
    destruct (Ascii.eqb "7" c1), (Ascii.eqb "2" c2); reflexivity.
  - change (JS.startsWith "720p" (String c1 (String c2 (String c3 ("720p" ++ y)))) = false).
    cbn [JS.startsWith].
    destruct (Ascii.eqb "7" c1), (Ascii.eqb "2" c2), (Ascii.eqb "0" c3); reflexivity.
  - change (JS.startsWith "720p"
              (String c1 (String c2 (String c3 (String c4 (x ++ "720p" ++ y))))) = false).
    cbn [JS.startsWith] in *. exact H.
Qed.

Lemma split720p_base (base sep rest : string) :
  sep = "720p/" \/ sep = "720pDRM/" ->
  JS.includes "720p" base = false ->
  split720p 0 (base ++ sep ++ rest) = base :: split720p 0 rest.
Proof.
  intros Hsep Hbase. induction base as [|c base IH].
  - destruct Hsep as [-> | ->]; reflexivity.
  - cbn [JS.includes] in Hbase. apply orb_false_iff in Hbase as [Hstart Hbase].
    change (String c base ++ sep ++ rest) with (String c (base ++ sep ++ rest)).
    cbn [split720p].
    assert (Hnone : match720p (String c (base ++ sep ++ rest)) = None).
    { apply no_marker_no_match.
      change (String c (base ++ sep ++ rest)) with (String c base ++ sep ++ rest).
      destruct Hsep as [-> | ->].
      - apply (marker_no_straddle (String c base) ("/" ++ rest)); [discriminate|exact Hstart].
      - apply (marker_no_straddle (String c base) ("DRM/" ++ rest));
          [discriminate|exact Hstart]. }
    rewrite Hnone, (IH Hbase). reflexivity.
Qed.

(** X9. A URL without ["720p/"] and without ["720pDRM/"] has the empty base
    directory. *)
Theorem getURLBaseDir_no_marker url :
  JS.includes "720p/" url = false ->
  JS.includes "720pDRM/" url = false ->
  getURLBaseDir url = "".
Proof.
  intros H1 H2. unfold getURLBaseDir.
  rewrite (split720p_one_piece _ H1 H2). reflexivity.
Qed.

Lemma getURLBaseDir_no_marker_witness :
  getURLBaseDir "https://cdn.example/1080p/show/a/clip-1.ts" = "".
Proof.
  apply getURLBaseDir_no_marker; vm_compute; reflexivity.
Defined.

(** X10. For a URL made of a text without ["720p"], the separator
    ["720p/"] or ["720pDRM/"], a directory, ["/"] and a file name, where
    the file name has no ["/"] and directory and file name hold no further
    separator, the base directory is the directory. *)
Theorem getURLBaseDir_directory base sep dir file :
  sep = "720p/" \/ sep = "720pDRM/" ->
  JS.includes "720p" base = false ->
  JS.includes "720p/" (dir ++ "/" ++ file) = false ->
  JS.includes "720pDRM/" (dir ++ "/" ++ file) = false ->
  hasChar "/" file = false ->
  getURLBaseDir (base ++ sep ++ dir ++ "/" ++ file) = dir.
Proof.
  intros Hsep Hbase H1 H2 Hfile. unfold getURLBaseDir.
  rewrite (split720p_base base sep _ Hsep Hbase), (split720p_one_piece _ H1 H2).
  cbn [lookup list_lookup].
  assert (Hne : String.eqb (dir ++ "/" ++ file) "" = false).
  { destruct dir; reflexivity. }
  change (([base; dir ++ "/" ++ file] : list string) !! 1) with (Some (dir ++ "/" ++ file)).
  rewrite Hne.
  change (dir ++ "/" ++ file) with (dir ++ String "/" file).
  rewrite (split_app_sep "/" dir file Hfile), removelast_last.
  apply (join_split "/").
Qed.

Lemma getURLBaseDir_directory_witness :
  getURLBaseDir
    ("https://cdn.example/" ++ "720pDRM/" ++ "show/a" ++ "/" ++ "clip-1.ts")
  = "show/a".
Proof.
  apply getURLBaseDir_directory.
  - right. reflexivity.
  - vm_compute; reflexivity.
  - vm_compute; reflexivity.
  - vm_compute; reflexivity.
  - vm_compute; reflexivity.
Defined.

(** ** parseAttributes *)

Lemma parseAttribute_None attributes part :
  parseAttribute attributes part = None <-> hasChar "=" part = false.
Proof.
  unfold parseAttribute. split.
  - intros H. destruct (hasChar "=" part) eqn:Hc; [|reflexivity].
    destruct (split_two_pieces "=" part Hc) as (p & q & rest & Hs).
    rewrite Hs in H. discriminate.
  - intros Hc. rewrite (split_no_sep _ _ Hc). reflexivity.
Qed.

Lemma parseAttributeParts_None attributes parts :
  parseAttributeParts attributes parts = None <->
  exists part, part ∈ parts /\ hasChar "=" part = false.
Proof.
  revert attributes. induction parts as [|p parts IH]; intros attributes.
  - split; [discriminate|]. intros (part & Hin & _).
    exfalso. eapply not_elem_of_nil. exact Hin.
  - cbn [parseAttributeParts].
    destruct (parseAttribute attributes p) as [a|] eqn:Hp; cbn [mbind option_bind].
    + rewrite IH. split.
      * intros (part & Hin & Hc). exists part. split; [|exact Hc].
        apply elem_of_cons. right. exact Hin.
      * intros (part & Hin & Hc). apply elem_of_cons in Hin as [->|Hin].
        -- apply (parseAttribute_None attributes) in Hc. congruence.
        -- exists part. auto.
    + split; [|reflexivity]. intros _. exists p.
      split; [apply elem_of_cons; left; reflexivity|].
      apply (parseAttribute_None attributes). exact Hp.
Qed.

(** X12. parseAttributes throws exactly when one of the comma-separated
    parts of the line holds no ['=']: its value is then undefined. *)
Theorem parseAttributes_throws line :
  parseAttributes line = None <->
  exists part, part ∈ JS.split "," line /\ hasChar "=" part = false.
Proof. apply parseAttributeParts_None. Qed.

Lemma lowerChar_idem (c : ascii) : JS.lowerChar (JS.lowerChar c) = JS.lowerChar c.
Proof. destruct c as [[] [] [] [] [] [] [] []]; reflexivity. Qed.

Lemma toLowerCase_idem (s : string) : JS.toLowerCase (JS.toLowerCase s) = JS.toLowerCase s.
Proof.
  induction s as [|c s IH]; [reflexivity|].
  cbn [JS.toLowerCase]. rewrite lowerChar_idem, IH. reflexivity.
Qed.

Lemma removeAll_clean (c : ascii) (s : string) : hasChar c (JS.removeAll c s) = false.
Proof.
  induction s as [|d s IH]; [reflexivity|].
  cbn [JS.removeAll]. destruct (Ascii.eqb d c) eqn:Hd; [exact IH|].
  cbn [hasChar]. rewrite Hd, IH. reflexivity.
Qed.

Lemma parseAttributeParts_clean attributes parts bag :
  cleanBag attributes ->
  parseAttributeParts attributes parts = Some bag ->
  cleanBag bag.
Proof.
  revert attributes. induction parts as [|p parts IH]; intros attributes Hc H.
  - inversion H; subst. exact Hc.
  - cbn [parseAttributeParts] in H.
    destruct (parseAttribute attributes p) as [a|] eqn:Hp; cbn [mbind option_bind] in H;
      [|discriminate].
    eapply IH; [|exact H].
    unfold parseAttribute in Hp.
    destruct (JS.split "=" p !! 0) as [key|]; cbn [mbind option_bind] in Hp; [|discriminate].
    destruct (JS.split "=" p !! 1) as [value|]; cbn [mbind option_bind] in Hp; [|discriminate].
    inversion Hp; subst a. intros name v Hl.
    destruct (decide (JS.toLowerCase (JS.trim key) = name)) as [<-|Hne].
    + rewrite lookup_insert_eq in Hl. inversion Hl; subst v.
      split; [apply toLowerCase_idem|apply removeAll_clean].
    + rewrite lookup_insert_ne in Hl by exact Hne. eapply Hc; eauto.
Qed.

(** X13. In the bag that parseAttributes returns every name is in lower
    case and no value holds a double quote. *)
Theorem parseAttributes_clean line bag :
  parseAttributes line = Some bag -> cleanBag bag.
Proof.
  apply parseAttributeParts_clean. intros name value H.
  rewrite lookup_empty in H. discriminate.
Qed.

Lemma parseAttributes_clean_witness :
  exists bag,
    parseAttributes
      ("#EXT-X-STREAM-INF:PROGRAM-ID=1, Bandwidth =500000,CODECS="
       ++ Samples.quoted "avc1.4d401f") = Some bag /\
    bag !! "bandwidth" = Some "500000" /\
    bag !! "codecs" = Some "avc1.4d401f" /\
    cleanBag bag.
Proof.
  eexists. split; [vm_compute; reflexivity|].
  split; [vm_compute; reflexivity|]. split; [vm_compute; reflexivity|].
  apply (parseAttributes_clean
           ("#EXT-X-STREAM-INF:PROGRAM-ID=1, Bandwidth =500000,CODECS="
            ++ Samples.quoted "avc1.4d401f")).
  vm_compute; reflexivity.
Defined.

(** ** parseMaster, line by line *)

Lemma masterLoop_masterLoopAt lines done todo playlist :
  lines = (done ++ todo)%list ->
  NoDup (List.filter isStreamInf lines) ->
  masterLoop lines todo playlist = masterLoopAt lines (length done) todo playlist.
Proof.
  intros Hlines Hnd. revert done playlist Hlines.
  induction todo as [|line todo IH]; intros done playlist Hlines; [reflexivity|].
  assert (Hhere : lines !! length done = Some line).
  { rewrite Hlines. apply list_lookup_middle. reflexivity. }
  assert (Hrest : forall pl, masterLoop lines todo pl =
                             masterLoopAt lines (S (length done)) todo pl).
  { intros pl. replace (S (length done)) with (length (done ++ [line])).
    - apply IH. rewrite Hlines, <- app_assoc. reflexivity.
    - rewrite length_app. simpl. lia. }
  cbn [masterLoop masterLoopAt]. cbv zeta.
  destruct (JS.startsWith "#EXTM3U" (JS.trim line)); [apply Hrest|].
  destruct (JS.startsWith "#EXT-X-MEDIA" (JS.trim line)).
  { destruct (parseAttributes (JS.trim line)); cbn [mbind option_bind];
      [apply Hrest|reflexivity]. }
  destruct (JS.startsWith "#EXT-X-STREAM-INF" (JS.trim line)) eqn:Hinf; [|apply Hrest].
  destruct (parseAttributes (JS.trim line)) as [a|]; cbn [mbind option_bind];
    [|reflexivity].
  rewrite (afterFirst_unique lines (length done) line Hhere).
  2:{ intros j Hj. eapply (NoDup_filter_lookup isStreamInf); eauto. }
  destruct (lines !! (length done + 1)); cbn [mbind option_bind];
    [apply Hrest|reflexivity].
Qed.

(** X14. On a master manifest in which no two STREAM-INF lines have the
    same text, parseMaster gives every stream the line that follows its own
    STREAM-INF line: it agrees with the loop that looks the next line up by
    position. *)
Theorem parseMaster_by_position m3uContent :
  NoDup (List.filter isStreamInf (JS.split "010" m3uContent)) ->
  parseMaster m3uContent =
  masterLoopAt (JS.split "010" m3uContent) 0 (JS.split "010" m3uContent)
               (mkMaster [] []).
Proof.
  intros Hnd. unfold parseMaster, parseMasterLines.
  apply (masterLoop_masterLoopAt _ []); auto.
Qed.

Lemma parseMaster_by_position_witness :
  exists m s1 s2,
    parseMaster MasterSamples.twoVariants = Some m /\
    streams m = [s1; s2] /\
    s1 !! "uri" = Some "480p/playlist.m3u8" /\
    s2 !! "uri" = Some "720p/playlist.m3u8" /\
    parseMaster MasterSamples.twoVariants =
    masterLoopAt (JS.split "010" MasterSamples.twoVariants) 0
                 (JS.split "010" MasterSamples.twoVariants) (mkMaster [] []).
Proof.
  eexists. eexists. eexists.
  split; [vm_compute; reflexivity|]. split; [reflexivity|].
  split; [vm_compute; reflexivity|]. split; [vm_compute; reflexivity|].
  apply parseMaster_by_position.
  apply (bool_decide_unpack _). vm_compute. exact I.
Defined.

(** ** parseM3U8 and repeated EXTINF lines *)

Lemma m3u8Loop_urls lines todo st st' :
  (forall l, l ∈ todo -> l ∈ lines) ->
  (forall s, s ∈ st_segments st ->
     exists line next,
       line ∈ lines /\ JS.startsWith "#EXTINF:" line = true /\
       JS.afterFirst lines line = Some next /\ seg_url s = JS.trim next) ->
  m3u8Loop lines todo st = Some st' ->
  forall s, s ∈ st_segments st' ->
    exists line next,
      line ∈ lines /\ JS.startsWith "#EXTINF:" line = true /\
      JS.afterFirst lines line = Some next /\ seg_url s = JS.trim next.
Proof.
  revert st. induction todo as [|line todo IH]; intros st Hsub Hst H.
  - simpl in H. inversion H; subst. exact Hst.
  - assert (Hline : line ∈ lines) by (apply Hsub, elem_of_cons; left; reflexivity).
    assert (Hsub' : forall l, l ∈ todo -> l ∈ lines).
    { intros l Hl. apply Hsub, elem_of_cons. right. exact Hl. }
    cbn [m3u8Loop] in H.
    destruct (JS.startsWith "#EXT-X-KEY" line).
    + destruct (parseKeyParts emptyKey (JS.split "," line)) as [k|];
        cbn [mbind option_bind] in H; [|discriminate].
      eapply IH; [exact Hsub'| |exact H]. exact Hst.
    + destruct (JS.startsWith "#EXTINF:" line) eqn:Hinf.
      * destruct (JS.afterFirst lines line) as [next|] eqn:Hnext;
          cbn [mbind option_bind] in H; [|discriminate].
        eapply IH; [exact Hsub'| |exact H]. cbn [st_segments].
        intros s Hin. apply elem_of_app in Hin as [Hin|Hin]; [auto|].
        apply list_elem_of_singleton in Hin. subst s.
        exists line, next. split; [exact Hline|]. split; [exact Hinf|].
        split; [exact Hnext|].
        destruct (0 <? length (st_keys st))%nat; reflexivity.
      * destruct (String.eqb line "#EXT-X-DISCONTINUITY").
        -- inversion H; subst. exact Hst.
        -- eapply IH; eauto.
Qed.

(** X15. parseM3U8 finds the URL of a segment through [indexOf] of its
    EXTINF line: the URL is the trimmed line after the first line of the
    manifest with that text.  So when all EXTINF lines of a manifest have
    the same text, all returned segments have one and the same URL, the
    one of the first segment. *)
Theorem parseM3U8_repeated_extinf playlist st extinf :
  parseM3U8 playlist = Some st ->
  (forall line, line ∈ JS.splitLines playlist ->
     JS.startsWith "#EXTINF:" line = true -> line = extinf) ->
  (forall s, s ∈ st_segments st ->
     exists next,
       JS.afterFirst (JS.splitLines playlist) extinf = Some next /\
       seg_url s = JS.trim next) /\
  (forall s1 s2, s1 ∈ st_segments st -> s2 ∈ st_segments st ->
     seg_url s1 = seg_url s2).
Proof.
  intros H Hsame.
  assert (Hall : forall s, s ∈ st_segments st ->
            exists next,
              JS.afterFirst (JS.splitLines playlist) extinf = Some next /\
              seg_url s = JS.trim next).
  { intros s Hs.
    destruct (m3u8Loop_urls (JS.splitLines playlist) (JS.splitLines playlist)
                initialState st) with (s := s)
      as (line & next & Hin & Hinf & Hnext & Hurl); auto.
    - intros s' Hs'. exfalso. eapply not_elem_of_nil. exact Hs'.
    - rewrite (Hsame line Hin Hinf) in Hnext. exists next. auto. }
  split; [exact Hall|].
  intros s1 s2 H1 H2.
  destruct (Hall s1 H1) as (n1 & Ha1 & ->).
  destruct (Hall s2 H2) as (n2 & Ha2 & ->).
  congruence.
Qed.

Lemma parseM3U8_repeated_extinf_witness :
  exists st,
    parseM3U8 Samples.twoKeys = Some st /\
    map seg_url (st_segments st) =
      ["https://cdn.example/720p/show/a/clip-1.ts";
       "https://cdn.example/720p/show/a/clip-1.ts";
       "https://cdn.example/720p/show/a/clip-1.ts"] /\
    (forall s, s ∈ st_segments st ->
       exists next,
         JS.afterFirst (JS.splitLines Samples.twoKeys) "#EXTINF:5.005," = Some next /\
         seg_url s = JS.trim next) /\
    (forall s1 s2, s1 ∈ st_segments st -> s2 ∈ st_segments st ->
       seg_url s1 = seg_url s2).
Proof.
  eexists. split; [vm_compute; reflexivity|]. split; [reflexivity|].
  apply (parseM3U8_repeated_extinf Samples.twoKeys).
  - vm_compute; reflexivity.
  - intros line Hin Hinf.
    repeat (apply elem_of_cons in Hin as [->|Hin];
            [first [reflexivity | discriminate Hinf]|]).
    exfalso. eapply not_elem_of_nil. exact Hin.
Defined.

(** ** More on strings *)

Lemma string_app_nil_r (s : string) : s ++ "" = s.
Proof. induction s as [|c s IH]; [reflexivity|]. change (String c (s ++ "") = String c s). rewrite IH. reflexivity. Qed.

Lemma string_app_assoc (a b c : string) : (a ++ b) ++ c = a ++ b ++ c.
Proof.
  induction a as [|x a IH]; [reflexivity|].
  change (String x ((a ++ b) ++ c) = String x (a ++ b ++ c)). rewrite IH. reflexivity.
Qed.

Lemma string_length_app (a b : string) :
  String.length (a ++ b) = String.length a + String.length b.
Proof.
  induction a as [|x a IH]; [reflexivity|].
  change (S (String.length (a ++ b)) = S (String.length a + String.length b)).
  rewrite IH. reflexivity.
Qed.

Lemma rev_app_spec (s acc : string) :
  String.rev_app s acc = String.rev s ++ acc.
Proof.
  unfold String.rev. revert acc. induction s as [|c s IH]; intros acc; [reflexivity|].
  cbn [String.rev_app]. rewrite IH, (IH (String c "")), string_app_assoc. reflexivity.
Qed.

Lemma rev_cons (c : ascii) (s : string) :
  String.rev (String c s) = String.rev s ++ String c "".
Proof. unfold String.rev at 1. cbn [String.rev_app]. apply rev_app_spec. Qed.

Lemma rev_app_distr (a b : string) :
  String.rev (a ++ b) = String.rev b ++ String.rev a.
Proof.
  induction a as [|x a IH].
  - change ("" ++ b) with b. change (String.rev "") with "".
    rewrite string_app_nil_r. reflexivity.
  - change (String x a ++ b) with (String x (a ++ b)).
    rewrite !rev_cons, IH, string_app_assoc. reflexivity.
Qed.

Lemma rev_involutive (s : string) : String.rev (String.rev s) = s.
Proof.
  induction s as [|c s IH]; [reflexivity|].
  rewrite rev_cons, rev_app_distr, IH. reflexivity.
Qed.

Lemma noSpace_app (a b : string) : noSpace (a ++ b) = noSpace a && noSpace b.
Proof.
  induction a as [|x a IH]; [reflexivity|].
  change (noSpace (String x (a ++ b)) = noSpace (String x a) && noSpace b).
  cbn [noSpace]. rewrite IH, andb_assoc. reflexivity.
Qed.

Lemma noSpace_rev (s : string) : noSpace (String.rev s) = noSpace s.
Proof.
  induction s as [|c s IH]; [reflexivity|].
  rewrite rev_cons, noSpace_app, IH. cbn [noSpace].
  rewrite andb_true_r. apply andb_comm.
Qed.

Lemma trimStart_noSpace (s : string) : noSpace s = true -> JS.trimStart s = s.
Proof.
  destruct s as [|c s]; [reflexivity|]. cbn [noSpace JS.trimStart].
  intros H. apply andb_true_iff in H as [Hc _].
  apply negb_true_iff in Hc. rewrite Hc. reflexivity.
Qed.

(** A string without white space is its own trim. *)
Lemma trim_noSpace (s : string) : noSpace s = true -> JS.trim s = s.
Proof.
  intros H. unfold JS.trim, JS.trimEnd.
  rewrite (trimStart_noSpace s H), trimStart_noSpace, rev_involutive; [reflexivity|].
  rewrite noSpace_rev. exact H.
Qed.

Lemma substring_0_app (a b : string) :
  substring 0 (String.length a) (a ++ b) = a.
Proof.
  induction a as [|x a IH]; [destruct b; reflexivity|].
  change (String x (substring 0 (String.length a) (a ++ b)) = String x a).
  rewrite IH. reflexivity.
Qed.

Lemma substring_0_all (s : string) : substring 0 (String.length s) s = s.
Proof.
  rewrite <- (string_app_nil_r s) at 2. apply substring_0_app.
Qed.

(** [s.slice(n)] drops the first [n] code units. *)
Lemma slice_from (n : nat) (s : string) :
  JS.slice (Z.of_nat n) None s = JS.dropChars n s.
Proof.
  unfold JS.slice, JS.sliceIndex.
  destruct (Z.ltb_spec (Z.of_nat n) 0) as [Hneg|_]; [lia|].
  rewrite Nat2Z.id. revert n. induction s as [|c s IH]; intros n.
  - destruct n; reflexivity.
  - destruct n as [|n].
    + cbn [Nat.min String.length JS.dropChars]. rewrite Nat.sub_0_r.
      apply (substring_0_all (String c s)).
    + cbn [String.length JS.dropChars]. rewrite <- (IH n).
      cbn [Nat.min]. reflexivity.
Qed.

(** [s.slice(1, -1)] on a string in quotes gives what is between them. *)
Lemma slice_quoted (q1 q2 : ascii) (u : string) :
  JS.slice 1 (Some (-1)%Z) (String q1 (u ++ String q2 "")) = u.
Proof.
  unfold JS.slice, JS.sliceIndex. cbn [String.length].
  rewrite string_length_app. cbn [String.length].
  change (1 <? 0)%Z with false. change (-1 <? 0)%Z with true. cbv iota.
  replace (Z.to_nat (Z.max (Z.of_nat (S (String.length u + 1)) + -1) 0))
    with (S (String.length u)) by lia.
  replace (Nat.min (Z.to_nat 1) (S (String.length u + 1))) with 1 by lia.
  replace (S (String.length u) - 1) with (String.length u) by lia.
  cbn [substring]. apply substring_0_app.
Qed.

Lemma split_app_first (c : ascii) (a b : string) :
  hasChar c a = false ->
  JS.split c (a ++ String c b) = a :: JS.split c b.
Proof.
  intros Ha. induction a as [|x a IH].
  - change ("" ++ String c b) with (String c b). cbn [JS.split].
    rewrite Ascii.eqb_refl. reflexivity.
  - cbn [hasChar] in Ha. apply orb_false_iff in Ha as [Hx Ha].
    change (String x a ++ String c b) with (String x (a ++ String c b)).
    cbn [JS.split]. rewrite Hx, (IH Ha). reflexivity.
Qed.

Lemma hasChar_quoted (c : ascii) (u : string) :
  Ascii.eqb doubleQuote c = false ->
  hasChar c u = false -> hasChar c (Samples.quoted u) = false.
Proof.
  intros Hq Hu. unfold Samples.quoted. cbn [hasChar].
  rewrite hasChar_app, Hq, Hu. cbn [hasChar]. rewrite Hq. reflexivity.
Qed.

(** ** parseKey on the usual shape *)

Lemma noSpace_quoted (u : string) : noSpace u = true -> noSpace (Samples.quoted u) = true.
Proof.
  intros H. unfold Samples.quoted. cbn [noSpace]. rewrite noSpace_app, H. reflexivity.
Qed.

Lemma parseKeyPart_uri_part key u p5 :
  hasChar "=" u = false -> noSpace u = true ->
  JS.split "/" u !! 5 = Some p5 ->
  parseKeyPart key ("URI=" ++ Samples.quoted u) =
  Some (mkKey (JS.dropChars 25 p5) u (key_iv key) (key_ivasDec key)).
Proof.
  intros Heq Hsp H5. unfold parseKeyPart.
  change ("URI=" ++ Samples.quoted u) with ("URI" ++ String "=" (Samples.quoted u)).
  rewrite (split_app_first "=" "URI") by reflexivity.
  rewrite (split_no_sep "=" (Samples.quoted u))
    by (apply hasChar_quoted; [reflexivity|exact Heq]).
  cbn [lookup list_lookup mbind option_bind].
  change (["URI"; Samples.quoted u] !! 0) with (Some "URI").
  change (["URI"; Samples.quoted u] !! 1) with (Some (Samples.quoted u)).
  cbn [mbind option_bind].
  destruct (decide (JS.trim "URI" = "URI")) as [_|Hne]; [|exfalso; apply Hne; reflexivity].
  rewrite (trim_noSpace _ (noSpace_quoted u Hsp)).
  unfold Samples.quoted. rewrite slice_quoted, H5. cbn [mbind option_bind].
  change (JS.slice 25 None p5) with (JS.slice (Z.of_nat 25) None p5).
  rewrite (slice_from 25 p5). reflexivity.
Qed.

Lemma parseKeyPart_iv_part key hex :
  hasChar "=" hex = false -> noSpace hex = true ->
  parseKeyPart key ("IV=0x" ++ hex) =
  Some (mkKey (key_name key) (key_uri key) hex (IvParseInt16 hex)).
Proof.
  intros Heq Hsp. unfold parseKeyPart.
  change ("IV=0x" ++ hex) with ("IV" ++ String "=" ("0x" ++ hex)).
  rewrite (split_app_first "=" "IV") by reflexivity.
  rewrite (split_no_sep "=" ("0x" ++ hex)).
  2:{ change ("0x" ++ hex) with (String "0" (String "x" hex)). cbn [hasChar].
      rewrite Heq. reflexivity. }
  change (["IV"; "0x" ++ hex] !! 0) with (Some "IV").
  change (["IV"; "0x" ++ hex] !! 1) with (Some ("0x" ++ hex)).
  cbn [mbind option_bind].
  destruct (decide (JS.trim "IV" = "URI")) as [Heq'|_]; [discriminate Heq'|].
  destruct (decide (JS.trim "IV" = "IV")) as [_|Hne]; [|exfalso; apply Hne; reflexivity].
  rewrite (trim_noSpace ("0x" ++ hex)).
  2:{ change ("0x" ++ hex) with (String "0" (String "x" hex)). cbn [noSpace].
      rewrite Hsp. reflexivity. }
  change (JS.slice 2 None ("0x" ++ hex)) with (JS.slice (Z.of_nat 2) None ("0x" ++ hex)).
  rewrite (slice_from 2 ("0x" ++ hex)). reflexivity.
Qed.

(** X16. On a KEY line of the usual shape,
    [#EXT-X-KEY:METHOD=AES-128,URI="u",IV=0xhex], where [u] and [hex] hold
    no comma, no ['='] and no white space and [u] has at least six
    ['/']-separated pieces, parseKey returns the record with [uri] [u],
    [iv] [hex] and, as [name], the sixth piece of [u] without its first 25
    code units. *)
Theorem parseKey_usual_shape u hex p5 :
  hasChar "," u = false -> hasChar "=" u = false -> noSpace u = true ->
  hasChar "," hex = false -> hasChar "=" hex = false -> noSpace hex = true ->
  JS.split "/" u !! 5 = Some p5 ->
  parseKey (Samples.keyLine u hex) =
  Some (mkKey (JS.dropChars 25 p5) u hex (IvParseInt16 hex)).
Proof.
  intros Hcu Heu Hsu Hch Heh Hsh H5. unfold parseKey.
  change (Samples.keyLine u hex)
    with ("#EXT-X-KEY:METHOD=AES-128"
          ++ String "," (("URI=" ++ Samples.quoted u) ++ String "," ("IV=0x" ++ hex))).
  rewrite (split_app_first "," "#EXT-X-KEY:METHOD=AES-128") by reflexivity.
  rewrite (split_app_first "," ("URI=" ++ Samples.quoted u)).
  2:{ change ("URI=" ++ Samples.quoted u)
        with (String "U" (String "R" (String "I" (String "=" (Samples.quoted u))))).
      cbn [hasChar]. rewrite (hasChar_quoted "," u eq_refl Hcu). reflexivity. }
  rewrite (split_no_sep "," ("IV=0x" ++ hex)).
  2:{ change ("IV=0x" ++ hex)
        with (String "I" (String "V" (String "=" (String "0" (String "x" hex))))).
      cbn [hasChar]. rewrite Hch. reflexivity. }
  cbn [parseKeyParts].
  change (parseKeyPart emptyKey "#EXT-X-KEY:METHOD=AES-128") with (Some emptyKey).
  cbn [mbind option_bind].
  rewrite (parseKeyPart_uri_part emptyKey u p5 Heu Hsu H5). cbn [mbind option_bind].
  rewrite (parseKeyPart_iv_part _ hex Heh Hsh). reflexivity.
Qed.

Lemma parseKey_usual_shape_witness :
  parseKey (Samples.keyLine Samples.uriA "000102030405060708090a0b0c0d0e0f") =
  Some (mkKey (JS.dropChars 25 "0123456789abcdef01234567_episode1") Samples.uriA
              "000102030405060708090a0b0c0d0e0f"
              (IvParseInt16 "000102030405060708090a0b0c0d0e0f")).
Proof.
  apply parseKey_usual_shape; vm_compute; reflexivity.
Defined.




(** ** removeAfterLastSlash *)

Lemma lastIndexOf_None (c : ascii) (s : string) :
  lastIndexOf c s = None <-> hasChar c s = false.
Proof.
  induction s as [|d s IH]; [split; reflexivity|].
  cbn [lastIndexOf hasChar]. destruct (lastIndexOf c s) as [i|].
  - split; [discriminate|]. intros H. apply orb_false_iff in H as [_ H].
    apply IH in H. discriminate.
  - destruct IH as [IH _]. rewrite (IH eq_refl), orb_false_r.
    destruct (Ascii.eqb d c); split; try reflexivity; discriminate.
Qed.

Lemma lastIndexOf_split (c : ascii) (s : string) (i : nat) :
  lastIndexOf c s = Some i ->
  s = substring 0 i s ++ String c (afterLast c s).
Proof.
  revert i. induction s as [|d s IH]; intros i H; [discriminate|].
  cbn [lastIndexOf afterLast] in *.
  destruct (lastIndexOf c s) as [j|] eqn:Hj.
  - inversion H; subst i.
    assert (Hc : hasChar c s = true).
    { destruct (hasChar c s) eqn:E; [reflexivity|].
      apply lastIndexOf_None in E. congruence. }
    rewrite Hc.
    change (String d s = String d (substring 0 j s ++ String c (afterLast c s))).
    f_equal. apply IH. reflexivity.
  - apply lastIndexOf_None in Hj. rewrite Hj.
    destruct (Ascii.eqb d c) eqn:Hd; [|discriminate].
    inversion H; subst i. apply Ascii.eqb_eq in Hd. subst d. reflexivity.
Qed.

(** X18. removeAfterLastSlash gives back a string without ['/'] as it is;
    otherwise it gives the part before the last ['/'], so that the result,
    ['/'] and the file name make up the string again. *)
Theorem removeAfterLastSlash_spec str :
  (hasChar "/" str = false -> removeAfterLastSlash str = str) /\
  (hasChar "/" str = true ->
   str = removeAfterLastSlash str ++ "/" ++ fileName str).
Proof.
  unfold removeAfterLastSlash, fileName. split; intros H.
  - apply lastIndexOf_None in H. rewrite H. reflexivity.
  - destruct (lastIndexOf "/" str) as [i|] eqn:Hi.
    + apply lastIndexOf_split. exact Hi.
    + apply lastIndexOf_None in Hi. congruence.
Qed.

Lemma removeAfterLastSlash_spec_witness :
  removeAfterLastSlash "FreitagNachtNews" = "FreitagNachtNews" /\
  "https://cdn.example/720p/show/a/clip-1.ts" =
  removeAfterLastSlash "https://cdn.example/720p/show/a/clip-1.ts"
  ++ "/" ++ fileName "https://cdn.example/720p/show/a/clip-1.ts".
Proof.
  split.
  - apply (proj1 (removeAfterLastSlash_spec "FreitagNachtNews")). reflexivity.
  - apply (proj2 (removeAfterLastSlash_spec "https://cdn.example/720p/show/a/clip-1.ts")).
    reflexivity.
Defined.

(** ** getFiles *)

(** X19. When [sort] returns its argument rearranged, the paths that
    getFiles returns are exactly the joined paths of the directory entries
    that pass the two tests, each test being waived by an empty argument;
    the tests look at the whole joined path.  When [readdir] throws,
    getFiles returns the empty list. *)
Theorem getFiles_spec host folder directoryPath NamePrefix fileExt :
  (forall l, Permutation (sortByLocale folder l) l) ->
  (readdir folder directoryPath = None ->
   getFiles host folder directoryPath NamePrefix fileExt = []) /\
  (forall fp,
     fp ∈ getFiles host folder directoryPath NamePrefix fileExt <->
     exists fileNames fn,
       readdir folder directoryPath = Some fileNames /\
       fn ∈ fileNames /\
       fp = path_join host [directoryPath; fn] /\
       (NamePrefix = "" \/ JS.includes NamePrefix fp = true) /\
       (fileExt = "" \/ endsWith fileExt fp = true)).
Proof.
  intros Hsort. unfold getFiles. split.
  - intros ->. reflexivity.
  - intros fp. destruct (readdir folder directoryPath) as [fileNames|].
    + cbv zeta. rewrite (Hsort _).
      rewrite list_elem_of_In, filter_In, in_map_iff. unfold keepPath.
      rewrite andb_true_iff, !orb_true_iff, !String.eqb_eq. split.
      * intros [(fn & <- & Hin) [Hp He]]. exists fileNames, fn.
        split; [reflexivity|]. split; [apply list_elem_of_In; exact Hin|].
        split; [reflexivity|]. split; assumption.
      * intros (names & fn & Hn & Hin & -> & Hp & He). inversion Hn; subst names.
        split; [|split; assumption].
        exists fn. split; [reflexivity|]. apply list_elem_of_In. exact Hin.
    + split.
      * intros H. exfalso. eapply not_elem_of_nil. exact H.
      * intros (names & fn & Hn & _). discriminate.
Qed.

Lemma insertPath_perm p l : Permutation (SampleFolder.insertPath p l) (p :: l).
Proof.
  induction l as [|q l IH]; [reflexivity|].
  cbn [SampleFolder.insertPath]. destruct (String.leb p q); [reflexivity|].
  rewrite IH. apply perm_swap.
Qed.

Lemma sortPaths_perm l : Permutation (SampleFolder.sortPaths l) l.
Proof.
  induction l as [|p l IH]; [reflexivity|].
  unfold SampleFolder.sortPaths in *. cbn [foldr].
  rewrite insertPath_perm, IH. reflexivity.
Qed.

Lemma getFiles_spec_witness :
  getFiles SampleFolder.host SampleFolder.folder "./m3u8" "FNN" "m3u8" =
    ["m3u8/FNN_1700000000.m3u8"; "m3u8/FNN_1700000005.m3u8"] /\
  (readdir SampleFolder.folder "./none" = None ->
   getFiles SampleFolder.host SampleFolder.folder "./none" "FNN" "m3u8" = []) /\
  (forall fp,
     fp ∈ getFiles SampleFolder.host SampleFolder.folder "./m3u8" "FNN" "m3u8" <->
     exists fileNames fn,
       readdir SampleFolder.folder "./m3u8" = Some fileNames /\
       fn ∈ fileNames /\
       fp = path_join SampleFolder.host ["./m3u8"; fn] /\
       ("FNN" = "" \/ JS.includes "FNN" fp = true) /\
       ("m3u8" = "" \/ endsWith "m3u8" fp = true)).
Proof.
  split; [vm_compute; reflexivity|]. split.
  - apply (proj1 (getFiles_spec SampleFolder.host SampleFolder.folder
                    "./none" "FNN" "m3u8" sortPaths_perm)).
  - apply (proj2 (getFiles_spec SampleFolder.host SampleFolder.folder
                    "./m3u8" "FNN" "m3u8" sortPaths_perm)).
Defined.

(** ** The script of Parse_Playlist.ts *)

Lemma ProcessPlaylist_keeps host playlist ShowName w w' r p d :
  ProcessPlaylist host playlist ShowName w = (w', r) ->
  files w !! p = Some d -> files w' !! p = Some d.
Proof.
  intros H Hp. unfold ProcessPlaylist in H.
  destruct (parsePlaylist playlist) as [st|].
  - apply processSegments_writes in H as (evs & _ & _ & Hkeep). apply Hkeep. exact Hp.
  - inversion H; subst. exact Hp.
Qed.

Lemma ProcessPlaylist_trace host playlist ShowName w w' r :
  ProcessPlaylist host playlist ShowName w = (w', r) ->
  exists evs, trace w' = (trace w ++ evs)%list.
Proof.
  intros H. unfold ProcessPlaylist in H.
  destruct (parsePlaylist playlist) as [st|].
  - apply processSegments_writes in H as (evs & Ht & _). exists evs. exact Ht.
  - inversion H; subst. exists []. rewrite app_nil_r. reflexivity.
Qed.

Lemma unlinkSync_spec folder file w w2 :
  unlinkSync folder file w = Some w2 ->
  trace w2 = trace w /\ files w2 = delete file (files w).
Proof.
  unfold unlinkSync. destruct (files w !! file); [|discriminate].
  destruct (unlinkable folder file); [|discriminate].
  intros H. inversion H; subst. split; reflexivity.
Qed.

Lemma processFiles_acc host folder ShowName Files w acc :
  processFiles host folder ShowName Files w acc =
    let '(w', u, r) := processFiles host folder ShowName Files w [] in
    (w', (acc ++ u)%list, r).
Proof.
  revert w acc. induction Files as [|file Files IH]; intros w acc.
  - cbn [processFiles]. rewrite app_nil_r. reflexivity.
  - cbn [processFiles].
    destruct (readText folder file w) as [text|]; [|rewrite app_nil_r; reflexivity].
    destruct (ProcessPlaylist host text ShowName w) as [w1 [e|[]]];
      [rewrite app_nil_r; reflexivity|].
    destruct (unlinkSync folder file w1) as [w2|]; [|rewrite app_nil_r; reflexivity].
    rewrite (IH w2 (acc ++ [file])%list), (IH w2 ([] ++ [file])%list).
    destruct (processFiles host folder ShowName Files w2 []) as [[w' u] r].
    rewrite <- app_assoc. reflexivity.
Qed.

Lemma processFiles_trace host folder ShowName Files w acc w' unlinked r :
  processFiles host folder ShowName Files w acc = (w', unlinked, r) ->
  exists evs, trace w' = (trace w ++ evs)%list.
Proof.
  revert w acc. induction Files as [|file Files IH]; intros w acc H.
  - inversion H; subst. exists []. rewrite app_nil_r. reflexivity.
  - cbn [processFiles] in H.
    destruct (readText folder file w) as [text|].
    2:{ inversion H; subst. exists []. rewrite app_nil_r. reflexivity. }
    destruct (ProcessPlaylist host text ShowName w) as [w1 [e|[]]] eqn:Hrun;
      apply ProcessPlaylist_trace in Hrun as [evs1 Ht1].
    { inversion H; subst. exists evs1. exact Ht1. }
    destruct (unlinkSync folder file w1) as [w2|] eqn:Hun.
    2:{ inversion H; subst. exists evs1. exact Ht1. }
    apply unlinkSync_spec in Hun as [Ht2 _].
    apply IH in H as [evs Ht]. exists (evs1 ++ evs)%list.
    rewrite Ht, Ht2, Ht1, app_assoc. reflexivity.
Qed.

(** The loop splits into the files it unlinked, on which it completed, and
    the rest, at whose first file it stopped. *)
Lemma processFiles_split host folder ShowName Files w w' unlinked r :
  processFiles host folder ShowName Files w [] = (w', unlinked, r) ->
  exists rest w0,
    Files = (unlinked ++ rest)%list /\
    processFiles host folder ShowName unlinked w [] = (w0, unlinked, inr tt) /\
    processFiles host folder ShowName rest w0 [] = (w', [], r).
Proof.
  revert w w' unlinked r. induction Files as [|file Files IH]; intros w w' unlinked r H.
  - inversion H; subst. exists [], w'. repeat split.
  - assert (Hstop : unlinked = [] ->
      exists rest w0,
        file :: Files = (unlinked ++ rest)%list /\
        processFiles host folder ShowName unlinked w [] = (w0, unlinked, inr tt) /\
        processFiles host folder ShowName rest w0 [] = (w', [], r)).
    { intros ->. exists (file :: Files), w. repeat split. exact H. }
    cbn [processFiles] in H.
    destruct (readText folder file w) as [text|] eqn:Hread.
    2:{ apply Hstop. inversion H; reflexivity. }
    destruct (ProcessPlaylist host text ShowName w) as [w1 [e|[]]] eqn:Hrun.
    { apply Hstop. inversion H; reflexivity. }
    destruct (unlinkSync folder file w1) as [w2|] eqn:Hun.
    2:{ apply Hstop. inversion H; reflexivity. }
    clear Hstop. rewrite processFiles_acc in H.
    destruct (processFiles host folder ShowName Files w2 []) as [[w3 u3] r3] eqn:Hrest.
    inversion H; subst. clear H.
    apply IH in Hrest as (rest & w0 & HF & Hdone & Hstop).
    exists rest, w0. split; [cbn [app]; rewrite HF; reflexivity|].
    split; [|exact Hstop].
    cbn [app processFiles]. rewrite Hread, Hrun, Hun, processFiles_acc, Hdone.
    reflexivity.
Qed.

(** A completed loop has run ProcessPlaylist to completion on the text of
    each of its files, in the state the files before it left. *)
Lemma processFiles_completed host folder ShowName pre file post w wf :
  processFiles host folder ShowName (pre ++ file :: post) w []
    = (wf, (pre ++ file :: post)%list, inr tt) ->
  exists w0 text w1 evs,
    processFiles host folder ShowName pre w [] = (w0, pre, inr tt) /\
    readText folder file w0 = Some text /\
    ProcessPlaylist host text ShowName w0 = (w1, inr tt) /\
    is_Some (unlinkSync folder file w1) /\
    trace wf = (trace w1 ++ evs)%list.
Proof.
  revert w. induction pre as [|p pre IH]; intros w H.
  - cbn [app processFiles] in H.
    destruct (readText folder file w) as [text|] eqn:Hread; [|inversion H].
    destruct (ProcessPlaylist host text ShowName w) as [w1 [e|[]]] eqn:Hrun; [inversion H|].
    destruct (unlinkSync folder file w1) as [w2|] eqn:Hun; [|inversion H].
    apply processFiles_trace in H as [evs Ht].
    apply unlinkSync_spec in Hun as Hw2. destruct Hw2 as [Ht2 _].
    exists w, text, w1, evs. rewrite <- Ht2. rewrite Hun. repeat split; eauto.
  - cbn [app processFiles] in H.
    destruct (readText folder p w) as [text|] eqn:Hread; [|inversion H].
    destruct (ProcessPlaylist host text ShowName w) as [w1 [e|[]]] eqn:Hrun; [inversion H|].
    destruct (unlinkSync folder p w1) as [w2|] eqn:Hun; [|inversion H].
    rewrite processFiles_acc in H.
    destruct (processFiles host folder ShowName (pre ++ file :: post) w2 [])
      as [[w3 u3] r3] eqn:Hrest.
    inversion H; subst. clear H.
    apply IH in Hrest as (w0 & text0 & w1' & evs & Hpre & Hr & Hp & Hu & Ht).
    exists w0, text0, w1', evs. split; [|auto].
    cbn [processFiles]. rewrite Hread, Hrun, Hun, processFiles_acc, Hpre. reflexivity.
Qed.

(** The files the loop has not unlinked keep their content. *)
Lemma processFiles_keeps host folder ShowName Files w acc w' unlinked r :
  NoDup Files ->
  processFiles host folder ShowName Files w acc = (w', unlinked, r) ->
  exists done rest,
    unlinked = (acc ++ done)%list /\
    Files = (done ++ rest)%list /\
    (forall f d, f ∈ rest -> files w !! f = Some d -> files w' !! f = Some d).
Proof.
  revert w acc. induction Files as [|file Files IH]; intros w acc Hnd H.
  - inversion H; subst. exists [], []. rewrite app_nil_r. repeat split; auto.
  - apply NoDup_cons in Hnd as [Hnotin Hnd]. cbn [processFiles] in H.
    destruct (readText folder file w) as [text|] eqn:Hread.
    2:{ inversion H; subst. exists [], (file :: Files). rewrite app_nil_r.
        repeat split; auto. }
    destruct (ProcessPlaylist host text ShowName w) as [w1 [e|[]]] eqn:Hrun.
    { inversion H; subst. exists [], (file :: Files). rewrite app_nil_r.
      repeat split; auto. intros f d _ Hf. eapply ProcessPlaylist_keeps; eauto. }
    destruct (unlinkSync folder file w1) as [w2|] eqn:Hun.
    2:{ inversion H; subst. exists [], (file :: Files). rewrite app_nil_r.
        repeat split; auto. intros f d _ Hf. eapply ProcessPlaylist_keeps; eauto. }
    apply unlinkSync_spec in Hun as [_ Hf2].
    apply IH in H as (done & rest & Hu & HF & Hkeep); [|exact Hnd].
    exists (file :: done), rest. rewrite Hu, <- app_assoc.
    split; [reflexivity|]. split; [rewrite HF; reflexivity|].
    intros f d Hf Hfd. apply Hkeep; [exact Hf|]. rewrite Hf2.
    rewrite lookup_delete_ne.
    + eapply ProcessPlaylist_keeps; eauto.
    + intros ->. apply Hnotin. rewrite HF. apply elem_of_app. right. exact Hf.
Qed.

(** X20. The loop of the script unlinks a playlist file only after
    ProcessPlaylist has completed on its text: for every unlinked file, the
    loop over the files before it completed, the file was read in the state
    reached then, ProcessPlaylist on its text returned without an exception
    from that state, the unlink succeeded, and the events of the run are
    part of the final trace.  The loop stops at the first file that cannot
    be read, on whose text ProcessPlaylist throws, or that cannot be
    unlinked: the unlinked files are the files before that one, in order,
    and the run is over without an exception exactly when every file was
    unlinked.  When no path occurs twice, the file at which the loop
    stopped and all later ones keep the content they had at the start. *)
Theorem script_unlinks_processed host folder ShowName Files w w' unlinked r :
  processFiles host folder ShowName Files w [] = (w', unlinked, r) ->
  exists rest,
    Files = (unlinked ++ rest)%list /\
    (forall pre file post,
       unlinked = (pre ++ file :: post)%list ->
       exists w0 text w1 evs,
         processFiles host folder ShowName pre w [] = (w0, pre, inr tt) /\
         readText folder file w0 = Some text /\
         ProcessPlaylist host text ShowName w0 = (w1, inr tt) /\
         is_Some (unlinkSync folder file w1) /\
         trace w' = (trace w1 ++ evs)%list) /\
    (r = inr tt <-> rest = []) /\
    (forall e, r = inl e ->
       exists file rest' w0,
         rest = file :: rest' /\
         processFiles host folder ShowName unlinked w [] = (w0, unlinked, inr tt) /\
         ((e = ReadFailed file /\ readText folder file w0 = None /\ w' = w0) \/
          (exists text x,
             e = RunFailed file x /\
             readText folder file w0 = Some text /\
             ProcessPlaylist host text ShowName w0 = (w', inl x)) \/
          (exists text,
             e = UnlinkFailed file /\
             readText folder file w0 = Some text /\
             ProcessPlaylist host text ShowName w0 = (w', inr tt) /\
             unlinkSync folder file w' = None))) /\
    (NoDup Files ->
     forall f d, f ∈ rest -> files w !! f = Some d -> files w' !! f = Some d).
Proof.
  intros H.
  destruct (processFiles_split _ _ _ _ _ _ _ _ H) as (rest & w0 & HF & Hdone & Hstop).
  exists rest. split; [exact HF|]. split; [|split; [|split]].
  - intros pre file post Hu.
    rewrite Hu in Hdone.
    destruct (processFiles_completed _ _ _ _ _ _ _ _ Hdone)
      as (v0 & text & v1 & evs & Hpre & Hr & Hp & Hun & Ht).
    apply processFiles_trace in Hstop as [evs' Ht'].
    exists v0, text, v1, (evs ++ evs')%list.
    repeat (split; [assumption|]).
    rewrite Ht', Ht, app_assoc. reflexivity.
  - split.
    + intros ->. destruct rest as [|file rest']; [reflexivity|]. exfalso.
      cbn [processFiles] in Hstop.
      destruct (readText folder file w0) as [text|]; [|inversion Hstop].
      destruct (ProcessPlaylist host text ShowName w0) as [w1 [e|[]]]; [inversion Hstop|].
      destruct (unlinkSync folder file w1) as [w2|]; [|inversion Hstop].
      rewrite processFiles_acc in Hstop.
      destruct (processFiles host folder ShowName rest' w2 []) as [[w3 u3] r3].
      inversion Hstop.
    + intros ->. inversion Hstop. destruct r as [e|[]]; [discriminate|reflexivity].
  - intros e ->. destruct rest as [|file rest']; [inversion Hstop|].
    exists file, rest', w0. split; [reflexivity|]. split; [exact Hdone|].
    cbn [processFiles] in Hstop.
    destruct (readText folder file w0) as [text|] eqn:Hread.
    2:{ left. inversion Hstop; subst. auto. }
    destruct (ProcessPlaylist host text ShowName w0) as [w1 [x|[]]] eqn:Hrun.
    { right. left. inversion Hstop; subst. eauto. }
    destruct (unlinkSync folder file w1) as [w2|] eqn:Hun.
    2:{ right. right. inversion Hstop; subst. eauto. }
    rewrite processFiles_acc in Hstop.
    destruct (processFiles host folder ShowName rest' w2 []) as [[w3 u3] r3].
    inversion Hstop.
  - intros Hnd.
    destruct (processFiles_keeps _ _ _ _ _ _ _ _ _ Hnd H)
      as (done & rest0 & Hu & HF0 & Hkeep).
    cbn [app] in Hu. subst done. rewrite HF in HF0.
    apply app_inv_head in HF0. subst rest0. exact Hkeep.
Qed.

Lemma script_unlinks_processed_witness :
  exists w' rest,
    Parse_Playlist SampleFolder.host SampleFolder.folder SampleFolder.disk
      = (w', ["m3u8/FNN_1700000000.m3u8"],
         inl (RunFailed "m3u8/FNN_1700000005.m3u8" KeyUndefined)) /\
    ["m3u8/FNN_1700000000.m3u8"; "m3u8/FNN_1700000005.m3u8"] =
      (["m3u8/FNN_1700000000.m3u8"] ++ rest)%list /\
    (forall pre file post,
       ["m3u8/FNN_1700000000.m3u8"] = (pre ++ file :: post)%list ->
       exists w0 text w1 evs,
         processFiles SampleFolder.host SampleFolder.folder "FreitagNachtNews"
           pre SampleFolder.disk [] = (w0, pre, inr tt) /\
         readText SampleFolder.folder file w0 = Some text /\
         ProcessPlaylist SampleFolder.host text "FreitagNachtNews" w0 = (w1, inr tt) /\
         is_Some (unlinkSync SampleFolder.folder file w1) /\
         trace w' = (trace w1 ++ evs)%list) /\
    (forall f d, f ∈ rest ->
       files SampleFolder.disk !! f = Some d -> files w' !! f = Some d).
Proof.
  eexists.
  assert (Hrun : Parse_Playlist SampleFolder.host SampleFolder.folder SampleFolder.disk
                 = (_, ["m3u8/FNN_1700000000.m3u8"],
                    inl (RunFailed "m3u8/FNN_1700000005.m3u8" KeyUndefined)))
    by (vm_compute; reflexivity).
  assert (Hnd : NoDup ["m3u8/FNN_1700000000.m3u8"; "m3u8/FNN_1700000005.m3u8"])
    by (apply (bool_decide_unpack _); vm_compute; exact I).
  destruct (script_unlinks_processed SampleFolder.host SampleFolder.folder
              "FreitagNachtNews"
              ["m3u8/FNN_1700000000.m3u8"; "m3u8/FNN_1700000005.m3u8"]
              SampleFolder.disk _ _ _ Hrun)
    as (rest & HF & Hdone & _ & _ & Hkeep).
  exists rest. split; [exact Hrun|]. split; [exact HF|].
  split; [exact Hdone|exact (Hkeep Hnd)].
Defined.

(** ** The key bytes, in hexadecimal *)

Lemma buf2hex_length (data : buffer) :
  String.length (buf2hex data) = 2 * length data.
Proof.
  unfold buf2hex. induction data as [|b data IH]; [reflexivity|].
  destruct data as [|b' data'].
  - reflexivity.
  - change (String.concat "" (map byteToHex (b :: b' :: data')))
      with (byteToHex b ++ String.concat "" (map byteToHex (b' :: data'))).
    rewrite string_length_app, IH. cbn [length byteToHex String.length]. lia.
Qed.

(** X11. [Buffer.from(buf2hex(data), "hex")] is [data]: the key handed to
    the decipher is the body of the key response, byte for byte; buf2hex
    writes two digits per byte and tells different buffers apart. *)
Theorem buf2hex_round_trip :
  (forall data, Buffer_from_hex (buf2hex data) = data) /\
  (forall data, String.length (buf2hex data) = 2 * length data) /\
  (forall data1 data2, buf2hex data1 = buf2hex data2 -> data1 = data2).
Proof.
  split; [exact Buffer_from_hex_buf2hex|]. split; [exact buf2hex_length|].
  intros data1 data2 H.
  rewrite <- (Buffer_from_hex_buf2hex data1), <- (Buffer_from_hex_buf2hex data2), H.
  reflexivity.
Qed.

(** ** Stream selection without a result *)

Lemma Math_max_NaN (values : list number) :
  Math_max values = NaN <-> NaN ∈ values.
Proof.
  induction values as [|v values IH].
  - split; [discriminate|]. intros H. exfalso. eapply not_elem_of_nil. exact H.
  - change (Math_max (v :: values)) with (max2 v (Math_max values)).
    rewrite elem_of_cons, <- IH.
    destruct v, (Math_max values); cbn; split; intros H;
      try discriminate; auto; destruct H as [H|H]; try discriminate; auto.
Qed.

Lemma Math_max_attained (values : list number) :
  values <> [] -> NaN ∉ values ->
  exists v, v ∈ values /\ looseEq v (Math_max values) = true.
Proof.
  induction values as [|v values IH]; intros Hne Hnan; [contradiction|].
  apply not_elem_of_cons in Hnan as [Hv Hnan].
  change (Math_max (v :: values)) with (max2 v (Math_max values)).
  destruct values as [|v' values'].
  - exists v. split; [apply elem_of_cons; left; reflexivity|].
    destruct v; cbn; try reflexivity; [apply Z.eqb_refl|contradiction].
  - destruct (IH ltac:(discriminate) Hnan) as (u & Hu & Heq).
    assert (Hm : Math_max (v' :: values') <> NaN).
    { intros Hm. apply Math_max_NaN in Hm. contradiction. }
    destruct (Math_max (v' :: values')) as [|m|] eqn:Hmax; [| |contradiction].
    + exists v. split; [apply elem_of_cons; left; reflexivity|].
      destruct v; cbn; try reflexivity; [apply Z.eqb_refl|contradiction].
    + destruct v as [|x|]; [| |contradiction].
      * exists u. split; [apply elem_of_cons; right; exact Hu|exact Heq].
      * cbn [max2]. destruct (Z.max_spec x m) as [[_ ->]|[_ ->]].
        -- exists u. split; [apply elem_of_cons; right; exact Hu|exact Heq].
        -- exists (Int x). split; [apply elem_of_cons; left; reflexivity|].
           cbn. apply Z.eqb_refl.
Qed.

Lemma looseEq_NaN (a : number) : looseEq a NaN = false.
Proof. destruct a; reflexivity. Qed.

Lemma head_filter_None {A} (P : A -> bool) (l : list A) :
  head (List.filter P l) = None <-> forall x, x ∈ l -> P x = false.
Proof.
  induction l as [|y l IH].
  - split; [|reflexivity]. intros _ x Hx. exfalso. eapply not_elem_of_nil. exact Hx.
  - cbn [List.filter]. destruct (P y) eqn:Hy.
    + split; [discriminate|]. intros H.
      rewrite (H y) in Hy by (apply elem_of_cons; left; reflexivity). discriminate.
    + rewrite IH. split.
      * intros H x Hx. apply elem_of_cons in Hx as [->|Hx]; auto.
      * intros H x Hx. apply H. apply elem_of_cons. right. exact Hx.
Qed.

(** X21. getHighestBandwidthStream returns [undefined] exactly when the
    list is empty or one of the bandwidths is [NaN]: [Math.max] is then
    [-Infinity] or [NaN], which no bandwidth of the list equals. *)
Theorem highest_bandwidth_undefined streams :
  getHighestBandwidthStream streams = None <->
  streams = [] \/ exists s, s ∈ streams /\ bandwidth s = NaN.
Proof.
  unfold getHighestBandwidthStream. rewrite head_filter_None. split.
  - intros H. destruct streams as [|s0 rest]; [left; reflexivity|right].
    assert (Hcases : NaN ∈ map bandwidth (s0 :: rest) \/ NaN ∉ map bandwidth (s0 :: rest)).
    { destruct (Math_max (map bandwidth (s0 :: rest))) eqn:Hm.
      - right. intros Hin. apply Math_max_NaN in Hin. congruence.
      - right. intros Hin. apply Math_max_NaN in Hin. congruence.
      - left. apply Math_max_NaN. exact Hm. }
    destruct Hcases as [Hin|Hnot].
    + apply list_elem_of_In, in_map_iff in Hin as (s & Hs & Hin).
      exists s. split; [apply list_elem_of_In; exact Hin|exact Hs].
    + destruct (Math_max_attained (map bandwidth (s0 :: rest))) as (v & Hv & Heq);
        [discriminate|exact Hnot|].
      apply list_elem_of_In, in_map_iff in Hv as (s & Hs & Hin).
      apply list_elem_of_In in Hin. specialize (H s Hin). cbv beta in H.
      rewrite Hs in H. congruence.
  - intros [-> | (s & Hs & Hnan)] x Hx.
    + exfalso. eapply not_elem_of_nil. exact Hx.
    + assert (Hmax : Math_max (map bandwidth streams) = NaN).
      { apply Math_max_NaN. rewrite <- Hnan.
        apply list_elem_of_In, in_map. apply list_elem_of_In. exact Hs. }
      rewrite Hmax. apply looseEq_NaN.
Qed.
